(** * AdBlock4All: the request-classification core of [background.js]

    A shallow embedding of the service worker's matching engine
    ([FilterTrie]), its result cache ([LRUCache]), the filter-list loader,
    the per-tab session bookkeeping, the storage batching timers and the
    asynchronous all-time counter update, together with the properties the
    specification states about them.

    Two revisions of [background.js] are in the repository: the V1.8 file
    and an older "optimized" revision.  [FilterTrie] and [LRUCache] are
    identical in both; the storage batching differs and both variants are
    modelled ([scheduleStorageUpdate] and [scheduleBatchedStorageUpdate]). *)

From Stdlib Require Import String Ascii.
From stdpp Require Import gmap list fin_maps sorting.

Set Default Proof Using "Type".
Set Warnings "-register-all".
Local Open Scope N_scope.

(** ** JavaScript strings

    A JavaScript string is a sequence of UTF-16 code units.  Indexing
    ([url[i]]) and [length] work on code units, while [for (const ch of s)]
    iterates over code points: a high surrogate followed by a low surrogate
    is delivered as one two-unit string. *)

Module JS.

Abbreviation jsstring := (list N).

(** A string literal of the source, as code units (the literals of
    [background.js] used here are all ASCII). *)
Definition lit (s : string) : jsstring :=
  map N_of_ascii (list_ascii_of_string s).

Definition isHighSurrogate (c : N) : bool := (55296 <=? c) && (c <=? 56319).
Definition isLowSurrogate (c : N) : bool := (56320 <=? c) && (c <=? 57343).

(** The string iterator behind [for (const char of s)]. *)
Fixpoint codePoints (s : jsstring) : list jsstring :=
  match s with
  | [] => []
  | c :: r =>
      match r with
      | d :: r' =>
          if isHighSurrogate c && isLowSurrogate d
          then [c; d] :: codePoints r'
          else [c] :: codePoints r
      | [] => [[c]]
      end
  end.

(** The strings on which code-point iteration and code-unit indexing see
    the same characters: those with no surrogate pair. *)
Fixpoint hasSurrogatePair (s : jsstring) : bool :=
  match s with
  | [] => false
  | c :: r =>
      match r with
      | d :: _ => (isHighSurrogate c && isLowSurrogate d) || hasSurrogatePair r
      | [] => false
      end
  end.

(** [s[i]] for every [i], each as a one-unit string. *)
Definition units (s : jsstring) : list jsstring := map (λ c, [c]) s.

(** Lower case for the Basic Latin letters: A-Z are mapped to a-z, every
    other code unit is left as it is.  This is what the [i] flag of a regex
    without the [u] flag does to a text matched against ASCII alternatives,
    and what [String.prototype.toLowerCase] does to an ASCII string. *)
Definition lowerUnit (c : N) : N :=
  if (65 <=? c) && (c <=? 90) then c + 32 else c.

Definition asciiLower (s : jsstring) : jsstring := map lowerUnit s.

(** The strings of code units below 128. *)
Definition isAscii (s : jsstring) : bool := forallb (λ c, c <? 128) s.

(** How often the code unit [x] occurs in [s]. *)
Definition occurrences (x : N) (s : jsstring) : nat :=
  length (filter (λ c, c = x) s).

(** Character codes of the filter syntax. *)
Definition BAR : N := 124.    (* | *)
Definition STAR : N := 42.    (* * *)
Definition CARET : N := 94.   (* ^ *)

(** [String.prototype.toLowerCase].  The built-in lowers every cased
    letter of Unicode and can change the length of a string; its case
    tables are not part of the repository.  It is taken as any function
    with three properties of the built-in: on an ASCII string it maps A-Z
    to a-z and nothing else; only the empty string is lowered to the
    empty string; the characters [|], [*] and [^] are lowered to
    themselves and no other character is lowered to one of them, so each
    occurs as often after as before. *)
Class Lowering := {
  toLowerCase : jsstring → jsstring;
  toLowerCase_ascii :
    ∀ s, isAscii s = true → toLowerCase s = asciiLower s;
  toLowerCase_empty : ∀ s, toLowerCase s = [] → s = [];
  toLowerCase_syntax :
    ∀ x s, x = BAR ∨ x = STAR ∨ x = CARET →
      occurrences x (toLowerCase s) = occurrences x s
}.

(** The lowering that changes the Basic Latin letters only; it is used to
    evaluate the definitions on ASCII inputs, where every lowering agrees
    with it. *)
Definition asciiLowering : Lowering.
Proof.
  refine {| toLowerCase := asciiLower |}.
  - done.
  - intros s. by destruct s.
  - intros x s Hx. unfold occurrences, asciiLower.
    induction s as [|c s IH]; [done|]. cbn [map].
    assert (lowerUnit c = x ↔ c = x) as Hc.
    { unfold lowerUnit, BAR, STAR, CARET in *.
      destruct ((65 <=? c) && (c <=? 90)) eqn:E; [|done].
      apply andb_true_iff in E as [H1 H2]. apply N.leb_le in H1, H2. lia. }
    destruct (decide (c = x)) as [Heq|Hne].
    + rewrite !filter_cons_True by tauto. simpl. by rewrite IH.
    + rewrite !filter_cons_False by tauto. done.
Defined.

(** [s.startsWith(p)] *)
Fixpoint startsWith (s p : jsstring) {struct p} : bool :=
  match p with
  | [] => true
  | c :: p' =>
      match s with
      | d :: s' => bool_decide (c = d) && startsWith s' p'
      | [] => false
      end
  end.

(** [s.includes(p)] *)
Fixpoint includes (s p : jsstring) : bool :=
  startsWith s p ||
  match s with
  | [] => false
  | _ :: s' => includes s' p
  end.

(** The white space and line terminators that [trim] removes. *)
Definition isWhiteSpace (c : N) : bool :=
  bool_decide (c ∈ [9; 10; 11; 12; 13; 32; 160; 5760; 8232; 8233; 8239; 8287;
                    12288; 65279])
  || ((8192 <=? c) && (c <=? 8202)).

Fixpoint trimStart (s : jsstring) : jsstring :=
  match s with
  | c :: r => if isWhiteSpace c then trimStart r else s
  | [] => []
  end.

Definition trim (s : jsstring) : jsstring :=
  reverse (trimStart (reverse (trimStart s))).

(** [s.split(sep)[0]] for a one-unit separator: the text before the first
    occurrence of [sep] (all of [s] when there is none). *)
Fixpoint beforeFirst (sep : N) (s : jsstring) : jsstring :=
  match s with
  | [] => []
  | c :: r => if bool_decide (c = sep) then [] else c :: beforeFirst sep r
  end.

End JS.
Import JS.

(** ** FilterTrie._cleanPattern *)

Module Clean.

Section WithLowering.

Context {Low : Lowering}.

(** [.replace(/^\|\|/, '')] *)
Definition stripLeadingBars (p : jsstring) : jsstring :=
  match p with
  | c :: d :: r => if bool_decide (c = BAR) && bool_decide (d = BAR) then r else p
  | _ => p
  end.

(** [.replace(/^\|/, '')] *)
Definition stripLeadingBar (p : jsstring) : jsstring :=
  match p with
  | c :: r => if bool_decide (c = BAR) then r else p
  | [] => p
  end.

(** [.replace(/\|$/, '')]: without the [m] flag, [$] is the end of input. *)
Fixpoint stripTrailingBar (p : jsstring) : jsstring :=
  match p with
  | [] => []
  | c :: r =>
      match r with
      | [] => if bool_decide (c = BAR) then [] else [c]
      | _ :: _ => c :: stripTrailingBar r
      end
  end.

(** [.replace(/\*/g, '')] and [.replace(/\^/g, '')] *)
Definition removeAll (x : N) (p : jsstring) : jsstring :=
  filter (λ c, c ≠ x) p.

Definition _cleanPattern (pattern : jsstring) : jsstring :=
  toLowerCase
    (removeAll CARET
       (removeAll STAR
          (stripTrailingBar (stripLeadingBar (stripLeadingBars pattern))))).

End WithLowering.

End Clean.
Import Clean.

(** ** FilterTrie *)

Inductive Category := Ad | Tracker.

#[global] Instance Category_eq_dec : EqDecision Category.
Proof. solve_decision. Defined.

Module Trie.

Section WithLowering.

Context {Low : Lowering}.

(** [class TrieNode]: [children] is a [Map] from one-character strings to
    nodes, [category] is [null] until the node is made a pattern end. *)
Inductive TrieNode := mkNode {
  children : gmap jsstring TrieNode;
  isPattern : bool;
  category : option Category
}.

(** [new TrieNode()] *)
Definition newNode : TrieNode := mkNode ∅ false None.

Record FilterTrie := mkTrie {
  root : TrieNode;
  patternCount : nat
}.

(** [new FilterTrie()] *)
Definition newTrie : FilterTrie := mkTrie newNode 0.

(** The loop of [insert] and the two assignments after it, from [node]
    downwards: a missing child is created, then the walk continues in the
    child; the node reached at the end becomes a pattern end. *)
Fixpoint insertFrom (chars : list jsstring) (cat : Category) (node : TrieNode)
  : TrieNode :=
  match chars with
  | [] => mkNode (children node) true (Some cat)
  | char :: rest =>
      let child := default newNode (children node !! char) in
      mkNode (<[char := insertFrom rest cat child]> (children node))
             (isPattern node) (category node)
  end.

Definition insert (t : FilterTrie) (pattern : jsstring) (cat : Category)
  : FilterTrie :=
  let cleanPattern := _cleanPattern pattern in
  mkTrie (insertFrom (codePoints cleanPattern) cat (root t))
         (S (patternCount t)).

(** The value [{ matched: true, category: node.category }]. *)
Record MatchResult := mkResult {
  matched : bool;
  resultCategory : option Category
}.

Definition hit (node : TrieNode) : MatchResult :=
  mkResult true (category node).

(** [return node?.isPattern ? {...} : null] *)
Definition finalCheck (node : option TrieNode) : option MatchResult :=
  match node with
  | Some n => if isPattern n then Some (hit n) else None
  | None => None
  end.

(** The loop of [_searchFrom] over the characters [url[i]], [url[i+1]], ...
    that remain; [node] is [undefined] ([None]) once a child is missing. *)
Fixpoint searchLoop (node : option TrieNode) (rest : jsstring)
  : option MatchResult :=
  match rest with
  | char :: rest' =>
      match node with
      | Some n =>
          if isPattern n then Some (hit n)
          else searchLoop (children n !! [char]) rest'
      | None => finalCheck node
      end
  | [] => finalCheck node
  end.

Definition _searchFrom (t : FilterTrie) (url : jsstring) (startIdx : nat)
  : option MatchResult :=
  searchLoop (Some (root t)) (drop startIdx url).

(** The loop of [matches]: [remaining] iterations are left, the next one
    is for offset [i]. *)
Fixpoint matchesLoop (t : FilterTrie) (cleanUrl : jsstring) (i remaining : nat)
  : option MatchResult :=
  match remaining with
  | O => None
  | S remaining' =>
      match _searchFrom t cleanUrl i with
      | Some result => Some result
      | None => matchesLoop t cleanUrl (S i) remaining'
      end
  end.

Definition matches (t : FilterTrie) (url : jsstring) : option MatchResult :=
  let cleanUrl := toLowerCase url in
  matchesLoop t cleanUrl 0 (length cleanUrl).

(** A pattern store: the trie after a sequence of [insert] calls. *)
Definition build (ps : list (jsstring * Category)) : FilterTrie :=
  foldl (λ t pc, insert t pc.1 pc.2) newTrie ps.

End WithLowering.

End Trie.
Import Trie.

(** ** What a store holds

    Two observers used to state what the trie stores; they are not part of
    the source. *)

Module Stored.

Section WithLowering.

Context {Low : Lowering}.

(** The pattern end reached from [n] along the keys [ks]: [Some cat] when
    that node exists and is flagged [isPattern], with its category. *)
Fixpoint patternAt (ks : list jsstring) (n : TrieNode) : option (option Category) :=
  match ks with
  | [] => if isPattern n then Some (category n) else None
  | k :: r => children n !! k ≫= patternAt r
  end.

(** The category given by the last insert whose cleaned pattern iterates to
    the keys [ks]. *)
Fixpoint lastCategory (ks : list jsstring) (ps : list (jsstring * Category))
  : option Category :=
  match ps with
  | [] => None
  | pc :: r =>
      match lastCategory ks r with
      | Some d => Some d
      | None =>
          if decide (codePoints (_cleanPattern pc.1) = ks) then Some pc.2 else None
      end
  end.

End WithLowering.

End Stored.
Import Stored.

(** ** loadFilterList *)

Module Loader.

Section WithLowering.

Context {Low : Lowering}.

(** The alternatives of the two categorizer regexes of the V1.8 loader, in
    the order of the source ([content\.ad], [advertising\.com] and
    [turn\.com] with their literal dots). *)
Definition trackerKeywords : list string := [
    "track"; "analytics"; "analytic"; "pixel"; "beacon"; "telemetry";
    "collect"; "metric"; "stats"; "statistic"; "counter"; "logger";
    "logging"; "monitor"; "telemetrics"; "insight"; "heatmap"; "mouseflow";
    "clicktale"; "usabilla"; "hotjar"; "mixpanel"; "segment"; "amplitude";
    "heap"; "fullstory"; "smartlook"; "inspectlet"; "quantcast"; "comscore";
    "chartbeat"; "parsely"; "snowplow"; "matomo"; "piwik"; "kissmetrics";
    "clicky"; "woopra"; "crazy-egg"; "optimizely"; "vwo"; "google-analytics";
    "googletagmanager"; "gtag"; "doubleclick"; "criteo-analytics";
    "facebook-pixel"; "fbevents"; "pinterest-tag"; "twitter-pixel";
    "linkedin-insight"; "reddit-pixel"; "tiktok-pixel"; "snapchat-pixel";
    "omniture"; "adobe-analytics"; "sitestat"; "webtrekk"; "atinternet";
    "eulerian"; "xiti"; "gemius"; "navegg"; "retailrocket"; "conviva";
    "youbora"; "nice264"; "streamsense"; "moat"; "ias"; "doubleverify";
    "integral-ad-science"; "scorecard"; "newrelic"; "sentry"; "bugsnag";
    "rollbar"; "airbrake"; "raygun"; "trackjs"; "errorception"; "honeybadger"
  ]%string.

Definition adKeywords : list string := [
    "advert"; "banner"; "popup"; "sponsor"; "promo"; "promotion";
    "affiliate"; "monetize"; "adsense"; "adserver"; "adservice"; "adslot";
    "adunit"; "admob"; "inmobi"; "mopub"; "applovin"; "chartboost"; "vungle";
    "unity-ads"; "ironsource"; "adcolony"; "tapjoy"; "fyber"; "smaato";
    "pubmatic"; "rubicon"; "openx"; "appnexus"; "indexexchange"; "sovrn";
    "triplelift"; "teads"; "outbrain"; "taboola"; "revcontent"; "mgid";
    "plista"; "ligatus"; "adblade"; "content.ad"; "zone"; "doubleclick";
    "googlesyndication"; "googleadservices"; "amazon-adsystem";
    "casalemedia"; "advertising.com"; "adnxs"; "rubiconproject";
    "contextweb"; "advertising"; "bidswitch"; "spotx"; "smartadserver";
    "improvedigital"; "yieldmo"; "adform"; "undertone"; "conversant";
    "sharethrough"; "nativo"; "mediamath"; "turn.com"; "criteo"; "adroll";
    "retargeter"; "adtech"; "exponential"; "tribal"; "33across"; "sonobi";
    "districtm"; "gumgum"; "kargo"; "lockerdome"; "nanointeractive";
    "beachfront"; "trustx"; "rhythmone"; "emxdigital"
  ]%string.

(** [regex.test(filter)] for a regex [/(k1|k2|...)/i]: some alternative
    occurs in the text, letter case apart. *)
Definition regexTest (alternatives : list string) (filter : jsstring) : bool :=
  existsb (λ k, includes (asciiLower filter) (lit k)) alternatives.

Definition categorizers : list (list string * Category) :=
  [(trackerKeywords, Tracker); (adKeywords, Ad)].

(** [let category = 'Ad'; for (const cat of categorizers) {...; break}] *)
Fixpoint categorize (cats : list (list string * Category)) (filter : jsstring)
  : Category :=
  match cats with
  | [] => Ad
  | cat :: rest =>
      if regexTest cat.1 filter then cat.2 else categorize rest filter
  end.

(** The first [if] of the loop body: the lines that are skipped. *)
Definition skipped (line : jsstring) : bool :=
  bool_decide (trim line = [])
  || startsWith line (lit "!") || startsWith line (lit "[")
  || includes line (lit "##") || includes line (lit "#@#")
  || startsWith line (lit "@@").

(** [filter] after [line.trim()] and the removal of a [$option] suffix. *)
Definition filterOf (line : jsstring) : jsstring :=
  let filter := trim line in
  if includes filter (lit "$") then beforeFirst 36 filter else filter.

(** One iteration of the loop over the lines. *)
Definition loadLine (t : FilterTrie) (line : jsstring) : FilterTrie :=
  if skipped line then t
  else
    let filter := filterOf line in
    if bool_decide (filter = []) then t
    else insert t filter (categorize categorizers filter).

(** [content.split('\n')] *)
Fixpoint splitLines (content : jsstring) : list jsstring :=
  match content with
  | [] => [[]]
  | c :: r =>
      if bool_decide (c = 10) then [] :: splitLines r
      else match splitLines r with
           | line :: lines => (c :: line) :: lines
           | [] => [[c]]
           end
  end.

(** The lines are processed in order; the chunking of the source only
    yields to the event loop between chunks of [CHUNK_SIZE] lines. *)
Definition loadLines (t : FilterTrie) (lines : list jsstring) : FilterTrie :=
  foldl loadLine t lines.

Definition loadFilterList (t : FilterTrie) (content : jsstring) : FilterTrie :=
  loadLines t (splitLines content).

End WithLowering.

End Loader.
Import Loader.

(** ** LRUCache *)

Module LRU.

Section Cache.

Context {K V : Type} `{EqDecision K}.

(** A JavaScript [Map] in insertion order: keys are unique, [set] on a
    present key replaces the value where it stands, [set] on an absent key
    appends, [keys().next().value] is the first key. *)
Fixpoint mapGet (key : K) (m : list (K * V)) : option V :=
  match m with
  | [] => None
  | kv :: r => if decide (kv.1 = key) then Some kv.2 else mapGet key r
  end.

Definition mapHas (key : K) (m : list (K * V)) : bool :=
  bool_decide (key ∈ m.*1).

Definition mapDelete (key : K) (m : list (K * V)) : list (K * V) :=
  filter (λ kv, kv.1 ≠ key) m.

Fixpoint mapSet (key : K) (value : V) (m : list (K * V)) : list (K * V) :=
  match m with
  | [] => [(key, value)]
  | kv :: r =>
      if decide (kv.1 = key) then (key, value) :: r
      else kv :: mapSet key value r
  end.

Record LRUCache := mkCache {
  cache : list (K * V);
  maxSize : nat
}.

(** [new LRUCache(maxSize)] *)
Definition new (maxSize : nat) : LRUCache := mkCache [] maxSize.

(** [get(key)]: the result ([None] for [undefined]) and the cache after. *)
Definition get (c : LRUCache) (key : K) : option V * LRUCache :=
  if negb (mapHas key (cache c)) then (None, c)
  else
    let value := mapGet key (cache c) in
    let cache1 := mapDelete key (cache c) in
    match value with
    | Some v => (Some v, mkCache (mapSet key v cache1) (maxSize c))
    | None => (None, c)
    end.

(** [set(key, value)]; on an empty [Map] the first key is [undefined] and
    deleting it does nothing. *)
Definition set (c : LRUCache) (key : K) (value : V) : LRUCache :=
  let cache1 :=
    if decide (maxSize c ≤ length (cache c))%nat then
      match head (cache c) with
      | Some first => mapDelete first.1 (cache c)
      | None => cache c
      end
    else cache c in
  mkCache (mapSet key value cache1) (maxSize c).

(** [has(key)] *)
Definition has (c : LRUCache) (key : K) : bool := mapHas key (cache c).

(** The calls a client can make, and a cache driven by a sequence of them. *)
Inductive Op := OpGet (key : K) | OpSet (key : K) (value : V) | OpHas (key : K).

Definition step (c : LRUCache) (op : Op) : LRUCache :=
  match op with
  | OpGet key => (get c key).2
  | OpSet key value => set c key value
  | OpHas key => c
  end.

Definition run (c : LRUCache) (ops : list Op) : LRUCache := foldl step c ops.

(** Recency, read off the history of calls and not off the [Map]: a call
    uses [key] when it is a [get] that finds it or a [set] of it. *)
Definition uses (c : LRUCache) (op : Op) (key : K) : bool :=
  match op with
  | OpGet k => bool_decide (k = key) && has c k
  | OpSet k _ => bool_decide (k = key)
  | OpHas _ => false
  end.

(** The time of the last call of [ops] that uses [key], when the first
    call of [ops] is made at time [now] on the cache [c]. *)
Fixpoint lastUse (c : LRUCache) (ops : list Op) (now : nat) (key : K)
  : option nat :=
  match ops with
  | [] => None
  | op :: r =>
      match lastUse (step c op) r (S now) key with
      | Some t => Some t
      | None => if uses c op key then Some now else None
      end
  end.

(** [a] was last used before [b], for last-use times [lu]. *)
Definition usedBefore (lu : K → option nat) (a b : K) : Prop :=
  ∃ ta tb, lu a = Some ta ∧ lu b = Some tb ∧ (ta < tb)%nat.

(** The discipline of [checkUrlBlocked]: [set] is called for a key only
    after [has] answered [false] for it. *)
Fixpoint setsAbsentKeys (c : LRUCache) (ops : list Op) : bool :=
  match ops with
  | [] => true
  | op :: r =>
      match op with
      | OpSet k _ => negb (has c k)
      | _ => true
      end && setsAbsentKeys (step c op) r
  end.

End Cache.

Arguments LRUCache : clear implicits.
Arguments Op : clear implicits.

End LRU.

(** ** Per-tab sessions *)

Module Session.

(** One entry of [tabData.urls]. *)
Record BlockedUrl := mkBlockedUrl {
  url : jsstring;              (* the shortened URL *)
  fullUrl : jsstring;
  timestamp : N;               (* [Date.now()], in milliseconds *)
  blockedCategory : Category   (* the field [category] *)
}.

(** A value of [blockedUrlsByTab].  The counters are JavaScript numbers
    holding counts; they are natural numbers here. *)
Record TabData := mkTabData {
  domain : jsstring;
  urls : list BlockedUrl;
  totalCount : N;
  adCount : N;
  trackerCount : N
}.

(** The object literal [{domain, urls: [], totalCount: 0, adCount: 0,
    trackerCount: 0}] of the request and navigation handlers. *)
Definition freshTab (domain : jsstring) : TabData := mkTabData domain [] 0 0 0.

(** The text that [urlShortener(url, maxLength)] computes when its table
    holds nothing for the URL.  The function with its table, which is keyed
    by the URL alone, is [Shortener.urlShortener] below.  The request
    handler is its only caller and always asks for [maxLength = 100]; for
    that caller a text found in the table is the text computed here, and
    [recordMatch] uses the computation. *)
Definition urlShortener (url : jsstring) (maxLength : nat) : jsstring :=
  if decide (length url ≤ maxLength)%nat then url
  else
    let halfLength := ((maxLength - 3) / 2)%nat in
    take halfLength url ++ lit "..." ++ drop (length url - halfLength) url.

(** [matchResult.category || 'Ad'] *)
Definition categoryOrAd (c : option Category) : Category := default Ad c.

(** The update of [tabData] for one matched request: the entry is put in
    front only while the list is below the cap, the counters always move. *)
Definition recordMatch (MAX_STORED_PER_TAB : nat) (tabData : TabData)
    (u : jsstring) (time : N) (cat : Category) : TabData :=
  let urls' :=
    if decide (length (urls tabData) < MAX_STORED_PER_TAB)%nat
    then mkBlockedUrl (urlShortener u 100) u time cat :: urls tabData
    else urls tabData in
  mkTabData (domain tabData) urls' (totalCount tabData + 1)
    (if decide (cat = Tracker) then adCount tabData else adCount tabData + 1)
    (if decide (cat = Tracker) then trackerCount tabData + 1
     else trackerCount tabData).

(** The same on [blockedUrlsByTab]: the tab's record is created first when
    the tab has none. *)
Definition recordBlocked (MAX_STORED_PER_TAB : nat)
    (tabs : gmap Z TabData) (tabId : Z)
    (u : jsstring) (time : N) (cat : Category) : gmap Z TabData :=
  let tabs1 :=
    match tabs !! tabId with
    | Some _ => tabs
    | None => <[tabId := freshTab []]> tabs
    end in
  match tabs1 !! tabId with
  | Some tabData =>
      <[tabId := recordMatch MAX_STORED_PER_TAB tabData u time cat]> tabs1
  | None => tabs1
  end.

(** A matched request as the handler sees it. *)
Record Blocked := mkBlocked {
  requestUrl : jsstring;
  requestTime : N;
  requestCategory : Category
}.

Definition entryOf (b : Blocked) : BlockedUrl :=
  mkBlockedUrl (urlShortener (requestUrl b) 100) (requestUrl b)
    (requestTime b) (requestCategory b).

(** The record of one session after a list of matched requests. *)
Definition sessionAfter (MAX_STORED_PER_TAB : nat) (d : TabData)
    (requests : list Blocked) : TabData :=
  foldl (λ d b, recordMatch MAX_STORED_PER_TAB d (requestUrl b)
                  (requestTime b) (requestCategory b)) d requests.

Definition recordAll (MAX_STORED_PER_TAB : nat) (tabs : gmap Z TabData)
    (tabId : Z) (requests : list Blocked) : gmap Z TabData :=
  foldl (λ tabs b, recordBlocked MAX_STORED_PER_TAB tabs tabId
                     (requestUrl b) (requestTime b) (requestCategory b))
        tabs requests.

End Session.

(** ** chrome.storage.local *)

Module Storage.

(** The keys the service worker reads and writes; [None] is a key that was
    never set ([undefined] in the result of [get]).  [totalTimeSaved] is
    kept in hundredths of a second (the source adds the double [0.12]). *)
Record Storage := mkStorage {
  adBlockerEnabled : option bool;
  showBadge : option bool;
  totalBlockedAllTime : option N;
  totalTimeSaved : option N;
  totalDataSaved : option N;
  userXP : option N;
  userCoins : option N;
  blockedUrlsByTab : option (gmap Z Session.TabData)
}.

(** An area in which no key was set yet. *)
Definition empty : Storage := mkStorage None None None None None None None None.

(** The process-wide counters: all-time total, time saved, data saved,
    experience points and reward currency. *)
Definition globalCounters (s : Storage)
  : option N * option N * option N * option N * option N :=
  (totalBlockedAllTime s, totalTimeSaved s, totalDataSaved s, userXP s,
   userCoins s).

(** [chrome.storage.local.set({ blockedUrlsByTab: data })] *)
Definition setBlockedUrlsByTab (s : Storage) (data : gmap Z Session.TabData)
  : Storage :=
  mkStorage (adBlockerEnabled s) (showBadge s) (totalBlockedAllTime s)
    (totalTimeSaved s) (totalDataSaved s) (userXP s) (userCoins s) (Some data).

(** [chrome.storage.local.set({ userXP, userCoins })] *)
Definition setXPCoins (s : Storage) (xp coins : N) : Storage :=
  mkStorage (adBlockerEnabled s) (showBadge s) (totalBlockedAllTime s)
    (totalTimeSaved s) (totalDataSaved s) (Some xp) (Some coins)
    (blockedUrlsByTab s).

(** [chrome.storage.local.set({ totalBlockedAllTime, totalTimeSaved,
    totalDataSaved })] *)
Definition setTotals (s : Storage) (total time data : N) : Storage :=
  mkStorage (adBlockerEnabled s) (showBadge s) (Some total) (Some time)
    (Some data) (userXP s) (userCoins s) (blockedUrlsByTab s).

End Storage.

(** ** Timers and the state of the service worker *)

Module Background.
Import Session.

(** What a pending timer will run: the callbacks that the source passes to
    [setTimeout]. *)
Inductive TimerAction :=
  | FlushStorage                 (* scheduleStorageUpdate, V1.8 *)
  | FlushBatched                 (* scheduleBatchedStorageUpdate, older *)
  | UpdateBadge (tabId : Z)
  | AwardXPCoins.

#[global] Instance TimerAction_eq_dec : EqDecision TimerAction.
Proof. solve_decision. Defined.

Record Timer := mkTimer {
  timerId : positive;
  due : N;                       (* earliest firing time, in milliseconds *)
  action : TimerAction
}.

(** The timer table of the JavaScript runtime and its clock. *)
Record Runtime := mkRuntime {
  timers : list Timer;
  nextTimerId : positive;
  now : N
}.

(** [setTimeout(callback, delay)]: a fresh, non-zero handle. *)
Definition setTimeout (rt : Runtime) (a : TimerAction) (delay : N)
  : positive * Runtime :=
  (nextTimerId rt,
   mkRuntime (timers rt ++ [mkTimer (nextTimerId rt) (now rt + delay) a])
             (Pos.succ (nextTimerId rt)) (now rt)).

(** [clearTimeout(id)] *)
Definition clearTimeout (rt : Runtime) (id : positive) : Runtime :=
  mkRuntime (filter (λ t, timerId t ≠ id) (timers rt)) (nextTimerId rt) (now rt).

Definition STORAGE_BATCH_DELAY : N := 1000.
Definition BADGE_UPDATE_DELAY : N := 500.
Definition XP_PER_AD : N := 3.
Definition COINS_PER_AD : N := 1.
(** [MAX_STORED_PER_TAB] of the V1.8 file (50 in the older revision). *)
Definition MAX_STORED_PER_TAB : nat := 300.

(** The module-level variables of [background.js] that the session and
    batching code uses, with the runtime and the storage area.
    [pendingStorageUpdates] exists in the older revision only. *)
Record World := mkWorld {
  blockedUrlsByTab : gmap Z TabData;
  storageUpdateTimer : option positive;
  badgeUpdateTimers : gmap Z positive;
  xpCoinsUpdateTimer : option positive;
  pendingXPCoins : N * N;
  pendingStorageUpdates : gset Z;
  runtime : Runtime;
  storage : Storage.Storage
}.

Definition withTabs (w : World) (tabs : gmap Z TabData) : World :=
  mkWorld tabs (storageUpdateTimer w) (badgeUpdateTimers w)
    (xpCoinsUpdateTimer w) (pendingXPCoins w) (pendingStorageUpdates w)
    (runtime w) (storage w).

Definition withStorageTimer (w : World) (t : option positive) (rt : Runtime)
  : World :=
  mkWorld (blockedUrlsByTab w) t (badgeUpdateTimers w)
    (xpCoinsUpdateTimer w) (pendingXPCoins w) (pendingStorageUpdates w)
    rt (storage w).

Definition withBadgeTimers (w : World) (b : gmap Z positive) (rt : Runtime)
  : World :=
  mkWorld (blockedUrlsByTab w) (storageUpdateTimer w) b
    (xpCoinsUpdateTimer w) (pendingXPCoins w) (pendingStorageUpdates w)
    rt (storage w).

Definition withXP (w : World) (t : option positive) (pending : N * N)
    (rt : Runtime) : World :=
  mkWorld (blockedUrlsByTab w) (storageUpdateTimer w) (badgeUpdateTimers w)
    t pending (pendingStorageUpdates w) rt (storage w).

Definition withPending (w : World) (p : gset Z) : World :=
  mkWorld (blockedUrlsByTab w) (storageUpdateTimer w) (badgeUpdateTimers w)
    (xpCoinsUpdateTimer w) (pendingXPCoins w) p (runtime w) (storage w).

Definition withStorage (w : World) (s : Storage.Storage) : World :=
  mkWorld (blockedUrlsByTab w) (storageUpdateTimer w) (badgeUpdateTimers w)
    (xpCoinsUpdateTimer w) (pendingXPCoins w) (pendingStorageUpdates w)
    (runtime w) s.

Definition withRuntime (w : World) (rt : Runtime) : World :=
  mkWorld (blockedUrlsByTab w) (storageUpdateTimer w) (badgeUpdateTimers w)
    (xpCoinsUpdateTimer w) (pendingXPCoins w) (pendingStorageUpdates w)
    rt (storage w).

(** The service worker as it starts: nothing pending, clock at [now]. *)
Definition start (s : Storage.Storage) (now : N) : World :=
  mkWorld ∅ None ∅ None (0, 0) ∅ (mkRuntime [] 1%positive now) s.

(** *** V1.8: saving and scheduling *)

(** [saveBlockedUrlsToStorage]: every tab's record goes into one object. *)
Definition saveBlockedUrlsToStorage (w : World) : World :=
  withStorage w (Storage.setBlockedUrlsByTab (storage w) (blockedUrlsByTab w)).

(** [scheduleStorageUpdate] of the V1.8 file: a pending timer is cleared
    and a new one is armed. *)
Definition scheduleStorageUpdate (w : World) : World :=
  let rt1 :=
    match storageUpdateTimer w with
    | Some id => clearTimeout (runtime w) id
    | None => runtime w
    end in
  let '(id, rt2) := setTimeout rt1 FlushStorage STORAGE_BATCH_DELAY in
  withStorageTimer w (Some id) rt2.

(** [updateBadgeForTab]: one timer slot per tab, re-armed on every call. *)
Definition updateBadgeForTab (w : World) (tabId : Z) : World :=
  let rt1 :=
    match badgeUpdateTimers w !! tabId with
    | Some id => clearTimeout (runtime w) id
    | None => runtime w
    end in
  let '(id, rt2) := setTimeout rt1 (UpdateBadge tabId) BADGE_UPDATE_DELAY in
  withBadgeTimers w (<[tabId := id]> (badgeUpdateTimers w)) rt2.

(** [awardXPAndCoins] *)
Definition awardXPAndCoins (w : World) : World :=
  let pending := ((pendingXPCoins w).1 + XP_PER_AD,
                  (pendingXPCoins w).2 + COINS_PER_AD) in
  match xpCoinsUpdateTimer w with
  | Some id => withXP w (Some id) pending (runtime w)
  | None =>
      let '(id, rt) := setTimeout (runtime w) AwardXPCoins 1000 in
      withXP w (Some id) pending rt
  end.

(** *** The older revision: batched saving *)

(** [flushStorageUpdates]: only the dirty tabs that still exist are
    written, and the dirty set is cleared when the write is issued. *)
Definition flushStorageUpdates (w : World) : World :=
  if decide (size (pendingStorageUpdates w) = 0%nat) then w
  else
    let dataToStore :=
      filter (λ kv, kv.1 ∈ pendingStorageUpdates w) (blockedUrlsByTab w) in
    withPending
      (withStorage w (Storage.setBlockedUrlsByTab (storage w) dataToStore)) ∅.

(** [scheduleBatchedStorageUpdate(tabId)]: the tab is marked dirty, and a
    timer is armed only when none is pending. *)
Definition scheduleBatchedStorageUpdate (w : World) (tabId : Z) : World :=
  let w1 := withPending w ({[tabId]} ∪ pendingStorageUpdates w) in
  match storageUpdateTimer w1 with
  | Some _ => w1
  | None =>
      let '(id, rt) := setTimeout (runtime w1) FlushBatched STORAGE_BATCH_DELAY in
      withStorageTimer w1 (Some id) rt
  end.

(** *** The callbacks of the timers *)

Definition callback (w : World) (a : TimerAction) : World :=
  match a with
  | FlushStorage =>
      withStorageTimer (saveBlockedUrlsToStorage w) None (runtime w)
  | FlushBatched =>
      withStorageTimer (flushStorageUpdates w) None (runtime w)
  | UpdateBadge tabId =>
      (* the icon and the badge text are outside this state *)
      withBadgeTimers w (delete tabId (badgeUpdateTimers w)) (runtime w)
  | AwardXPCoins =>
      (* [get] then [set] of the reward totals, taken as one step here *)
      let '(xp, coins) := pendingXPCoins w in
      let s := storage w in
      withXP
        (withStorage w
           (Storage.setXPCoins s (default 0 (Storage.userXP s) + xp)
                                 (default 0 (Storage.userCoins s) + coins)))
        None (0, 0) (runtime w)
  end.

(** The runtime fires timer [id]: it must be pending and due. *)
Definition fireTimer (w : World) (id : positive) : World :=
  match list_find (λ t, timerId t = id) (timers (runtime w)) with
  | Some (_, t) =>
      if decide (due t ≤ now (runtime w)) then
        callback (withRuntime w (clearTimeout (runtime w) id)) (action t)
      else w
  | None => w
  end.

(** Time passes. *)
Definition advance (w : World) (dt : N) : World :=
  withRuntime w (mkRuntime (timers (runtime w)) (nextTimerId (runtime w))
                           (now (runtime w) + dt)).

(** A timer of the storage flush, of either revision. *)
Definition isFlush (t : Timer) : Prop :=
  action t = FlushStorage ∨ action t = FlushBatched.

(** The pending timers of the storage flush, as due times and as handles. *)
Definition pendingFlushes (w : World) : list N :=
  due <$> filter isFlush (timers (runtime w)).

Definition flushIds (rt : Runtime) : list positive :=
  timerId <$> filter isFlush (timers rt).

(** *** Tab events (V1.8) *)

Section TabEvents.

(** [new URL(u).hostname]; [None] when the constructor throws. *)
Variable hostname : jsstring → option jsstring.

(** [chrome.tabs.onUpdated]: [changeInfoUrl] is [changeInfo.url]. *)
Definition onUpdated (w : World) (tabId : Z) (changeInfoUrl : option jsstring)
  : World :=
  match changeInfoUrl with
  | None | Some [] => w
  | Some u =>
      match hostname u with
      | None => w     (* [catch]: only the badge text is cleared *)
      | Some newDomain =>
          match blockedUrlsByTab w !! tabId with
          | Some tabData =>
              if decide (domain tabData ≠ newDomain) then
                let w1 := withTabs w (<[tabId := freshTab newDomain]>
                                        (blockedUrlsByTab w)) in
                updateBadgeForTab (scheduleStorageUpdate w1) tabId
              else w
          | None =>
              withTabs w (<[tabId := freshTab newDomain]> (blockedUrlsByTab w))
          end
      end
  end.

End TabEvents.

(** [chrome.tabs.onRemoved] *)
Definition onRemoved (w : World) (tabId : Z) : World :=
  let w1 := scheduleStorageUpdate
              (withTabs w (delete tabId (blockedUrlsByTab w))) in
  match badgeUpdateTimers w1 !! tabId with
  | Some id =>
      withBadgeTimers w1 (delete tabId (badgeUpdateTimers w1))
        (clearTimeout (runtime w1) id)
  | None => w1
  end.

(** The synchronous part of the request handler for a matched request:
    session update, then the three schedulers.  (The asynchronous update
    of the all-time totals is modelled in [Counters].) *)
Definition onBlockedRequest (w : World) (tabId : Z) (u : jsstring) (time : N)
    (cat : option Category) : World :=
  let w1 := withTabs w (recordBlocked MAX_STORED_PER_TAB (blockedUrlsByTab w)
                          tabId u time (categoryOrAd cat)) in
  updateBadgeForTab (awardXPAndCoins (scheduleStorageUpdate w1)) tabId.

(** *** Histories of the batching code *)

(** What can happen to the timers of the storage flush: a call of either
    scheduler, of the badge or reward schedulers (which share the timer
    table), the runtime firing a timer, time passing. *)
Inductive Event :=
  | EvSchedule
  | EvScheduleBatched (tabId : Z)
  | EvBadge (tabId : Z)
  | EvAward
  | EvFire (id : positive)
  | EvAdvance (dt : N).

Definition stepEvent (w : World) (e : Event) : World :=
  match e with
  | EvSchedule => scheduleStorageUpdate w
  | EvScheduleBatched tabId => scheduleBatchedStorageUpdate w tabId
  | EvBadge tabId => updateBadgeForTab w tabId
  | EvAward => awardXPAndCoins w
  | EvFire id => fireTimer w id
  | EvAdvance dt => advance w dt
  end.

Definition runEvents (w : World) (events : list Event) : World :=
  foldl stepEvent w events.

(** Sessions marked dirty one after the other, [dt] milliseconds after the
    previous mark each, with no timer fired in between. *)
Definition markAll (w : World) (marks : list (N * Z)) : World :=
  foldl (λ w m, scheduleBatchedStorageUpdate (advance w m.1) m.2) w marks.

(** The invariant of the timer table: handles are fresh and distinct, the
    pending flush timers are exactly the one named by
    [storageUpdateTimer], and no badge slot names a flush timer. *)
Record Inv (w : World) : Prop := mkInv {
  inv_fresh :
    Forall (λ t, (timerId t < nextTimerId (runtime w))%positive)
           (timers (runtime w));
  inv_distinct : NoDup (timerId <$> timers (runtime w));
  inv_flush : flushIds (runtime w) = option_list (storageUpdateTimer w);
  inv_badge :
    ∀ tabId id, badgeUpdateTimers w !! tabId = Some id →
      (id < nextTimerId (runtime w))%positive ∧ id ∉ flushIds (runtime w)
}.

End Background.

(** ** The all-time totals: a read, a suspension, a write *)

Module Counters.

Definition AVG_TIME_PER_AD : N := 12.   (* 0.12 s, in hundredths *)
Definition AVG_DATA_PER_AD : N := 50.   (* KB *)

(** The callback of [chrome.storage.local.get(['totalBlockedAllTime',
    'totalTimeSaved', 'totalDataSaved'], ...)]: from the [result] that was
    read, the [set] it issues, as a function of the storage at that time. *)
Definition onTotalsRead (result : Storage.Storage)
  : Storage.Storage → Storage.Storage :=
  let newTotal := default 0 (Storage.totalBlockedAllTime result) + 1 in
  let newTimeSaved := default 0 (Storage.totalTimeSaved result) + AVG_TIME_PER_AD in
  let newDataSaved := default 0 (Storage.totalDataSaved result) + AVG_DATA_PER_AD in
  λ s, Storage.setTotals s newTotal newTimeSaved newDataSaved.

(** Where the totals update of one matched request stands: the [get] was
    issued and not yet answered; the answer [result] arrived and the
    callback with its [set] is still to run; done. *)
Inductive Phase :=
  | Reading
  | Resumed (result : Storage.Storage)
  | Finished.

(** One step of one update: the storage area answers the [get], or the
    callback runs and its [set] is applied. *)
Definition stepUpdate (s : Storage.Storage) (p : Phase)
  : Storage.Storage * Phase :=
  match p with
  | Reading => (s, Resumed s)
  | Resumed result => (onTotalsRead result s, Finished)
  | Finished => (s, Finished)
  end.

(** The event loop advances the update of request [i]. *)
Definition stepRequest (st : Storage.Storage * list Phase) (i : nat)
  : Storage.Storage * list Phase :=
  match st.2 !! i with
  | Some p =>
      let '(s', p') := stepUpdate st.1 p in (s', <[i := p']> st.2)
  | None => st
  end.

(** A schedule names, step by step, the request whose update advances. *)
Definition runSchedule (s : Storage.Storage) (phases : list Phase)
    (schedule : list nat) : Storage.Storage * list Phase :=
  foldl stepRequest (s, phases) schedule.

End Counters.

(** ** checkUrlBlocked *)

Module Interceptor.

(** [urlCache] maps a URL to the result of [matches], [null] included. *)
Abbreviation UrlCache := (LRU.LRUCache jsstring (option MatchResult)).

Section WithLowering.

Context {Low : Lowering}.

(** [checkUrlBlocked(url)]: the result, and the cache after the call.  The
    key is the URL as given, not lower-cased. *)
Definition checkUrlBlocked (t : FilterTrie) (urlCache : UrlCache)
    (u : jsstring) : option MatchResult * UrlCache :=
  if LRU.has urlCache u then
    let '(value, urlCache') := LRU.get urlCache u in
    (default None value, urlCache')
  else
    let result := matches t u in
    (result, LRU.set urlCache u result).

End WithLowering.

End Interceptor.

(** ** The rules of a filter list *)

Module Rules.

(** What one line of the list contributes: nothing when the loop body
    skips it, else the filter text and the category given to [insert]. *)
Definition ruleOf (line : jsstring) : option (jsstring * Category) :=
  if skipped line then None
  else
    let filter := filterOf line in
    if bool_decide (filter = []) then None
    else Some (filter, categorize categorizers filter).

Definition rulesOf (lines : list jsstring) : list (jsstring * Category) :=
  omap ruleOf lines.

(** The cleaned pattern occurs in the text at a place where text remains:
    it starts a non-empty suffix. *)
Definition occursIn (pattern text : jsstring) : Prop :=
  ∃ pre post, text = pre ++ pattern ++ post ∧ pattern ++ post ≠ [].

End Rules.
Import Rules.

(** ** The memo table of [urlShortener] *)

Module Shortener.

Definition MAX_CACHE : nat := 500.

(** The [Map] of the closure, from URL to shortened URL. *)
Abbreviation Memo := (list (jsstring * jsstring)).

(** [urlShortener(url, maxLength)] with its table: a URL found in the
    table is answered from it ([has] and [get] agree on a [Map]);
    otherwise the text is computed, the first key is deleted when the table
    is full, and the result is stored under the URL alone. *)
Definition urlShortener (cache : Memo) (url : jsstring) (maxLength : nat)
  : jsstring * Memo :=
  match LRU.mapGet url cache with
  | Some shortened => (shortened, cache)
  | None =>
      let shortened := Session.urlShortener url maxLength in
      let cache1 :=
        if decide (MAX_CACHE ≤ length cache)%nat then
          match head cache with
          | Some first => LRU.mapDelete first.1 cache
          | None => cache
          end
        else cache in
      (shortened, LRU.mapSet url shortened cache1)
  end.

(** The calls [urlShortener(url, 100)] of the request handler, one after
    the other: the results, and the table at the end. *)
Definition shortenAll (cache : Memo) (urls : list jsstring)
  : list jsstring * Memo :=
  foldl (λ acc u, let '(s, cache') := urlShortener acc.2 u 100 in
                  (acc.1 ++ [s], cache'))
        ([], cache) urls.

End Shortener.

(** ** Counting the updates of the totals *)

Module Tally.

Definition isFinished (p : Counters.Phase) : bool :=
  match p with Counters.Finished => true | _ => false end.

(** How many of the updates have run their callback. *)
Definition finishedCount (phases : list Counters.Phase) : nat :=
  length (filter (λ p, isFinished p = true) phases).

(** [result.totalBlockedAllTime || 0] *)
Definition totalOf (s : Storage.Storage) : N :=
  default 0 (Storage.totalBlockedAllTime s).

End Tally.

(** ** Lookups one after the other *)

Module Lookups.
Import Interceptor.

Section WithLowering.

Context {Low : Lowering}.

(** The calls [checkUrlBlocked(url)] of successive requests while the
    rules are [t]: the results, and the cache at the end. *)
Definition lookups (t : FilterTrie) (urlCache : UrlCache)
    (urls : list jsstring) : list (option MatchResult) * UrlCache :=
  foldl (λ acc u, let '(result, urlCache') := checkUrlBlocked t acc.2 u in
                  (acc.1 ++ [result], urlCache'))
        ([], urlCache) urls.

End WithLowering.

End Lookups.

(** ** Invariants used in the proofs *)

Module Invariants.

Section WithLowering.

Context {Low : Lowering}.

(** What the table holds is what the computation gives at length 100, and
    the table has at most [MAX_CACHE] entries. *)
Definition memoOk (cache : Shortener.Memo) : Prop :=
  Forall (λ kv, kv.2 = Session.urlShortener kv.1 100) cache
  ∧ (length cache ≤ Shortener.MAX_CACHE)%nat.

(** The stored total and every result held by a suspended callback lie
    between the first total and the first total plus the number of
    callbacks that have run. *)
Definition bounded (total0 : N) (st : Storage.Storage * list Counters.Phase) : Prop :=
  let k := Tally.finishedCount st.2 in
  total0 + (if decide (k = 0)%nat then 0 else 1) ≤ Tally.totalOf st.1
  ∧ Tally.totalOf st.1 ≤ total0 + N.of_nat k
  ∧ ∀ result, Counters.Resumed result ∈ st.2 →
      total0 ≤ Tally.totalOf result ∧ Tally.totalOf result ≤ total0 + N.of_nat k.

(** Every cached result is what the rules [t] give for its URL. *)
Definition coherent (t : FilterTrie) (c : Interceptor.UrlCache) : Prop :=
  Forall (λ kv, kv.2 = matches t kv.1) (LRU.cache c).

End WithLowering.

End Invariants.
Import Invariants.

(** ** The handlers of the service worker (V1.8) *)

Module Handlers.
Import Session Background Interceptor.

Section WithLowering.

Context {Low : Lowering}.

(** The worker: the variables of [World], with the rules and the URL
    cache.  ([streakCheckedToday] and the streak keys of the storage area
    are left out: nothing below reads them.) *)
Record Worker := mkWorker {
  world : World;
  filterTrie : FilterTrie;
  urlCache : UrlCache
}.

Definition withWorld (wk : Worker) (w : World) : Worker :=
  mkWorker w (filterTrie wk) (urlCache wk).

(** [new LRUCache(2000)] *)
Definition URL_CACHE_SIZE : nat := 2000.

(** The worker in the run where the initial read of [blockedUrlsByTab] is
    answered, and its callback runs, before any listener: the stored
    sessions are in the [Map], no rule is loaded yet.  The runs where
    listeners come first are those of [Async] below. *)
Definition boot (s : Storage.Storage) (now : N) : Worker :=
  mkWorker (withTabs (start s now) (default ∅ (Storage.blockedUrlsByTab s)))
           newTrie (LRU.new URL_CACHE_SIZE).

(** The callback of [chrome.storage.local.get(['adBlockerEnabled'], ...)]
    in the [onBeforeRequest] listener, with the early return on
    [tabId < 0] that precedes the read.  [result] is what the read
    answered, [time] is [Date.now()]. *)
Definition onBeforeRequest (wk : Worker) (u : jsstring) (tabId : Z)
    (time : N) (result : Storage.Storage) : Worker :=
  if decide (tabId < 0)%Z then wk
  else if decide (Storage.adBlockerEnabled result = Some false) then wk
  else
    let '(matchResult, urlCache') :=
      checkUrlBlocked (filterTrie wk) (urlCache wk) u in
    match matchResult with
    | Some r =>
        if matched r then
          mkWorker (onBlockedRequest (world wk) tabId u time (resultCategory r))
                   (filterTrie wk) urlCache'
        else mkWorker (world wk) (filterTrie wk) urlCache'
    | None => mkWorker (world wk) (filterTrie wk) urlCache'
    end.



(** [clearBlockedUrlsForTab]: only the list is emptied. *)
Definition clearBlockedUrlsForTab (w : World) (tabId : Z) : World :=
  match blockedUrlsByTab w !! tabId with
  | Some tabData =>
      scheduleStorageUpdate
        (withTabs w (<[tabId := mkTabData (domain tabData) []
                                  (totalCount tabData) (adCount tabData)
                                  (trackerCount tabData)]>
                       (blockedUrlsByTab w)))
  | None => w
  end.

(** The keys of this model that [resetAllData] writes. *)
Definition resetStorage (s : Storage.Storage) : Storage.Storage :=
  Storage.mkStorage (Storage.adBlockerEnabled s) (Storage.showBadge s)
    (Some 0) (Some 0) (Some 0) (Some 0) (Some 0) (Some ∅).

(** [resetAllData]: the sessions and the URL cache are emptied, the
    counters are written as zero; no timer is cleared. *)
Definition resetAllData (wk : Worker) : Worker :=
  mkWorker (withStorage (withTabs (world wk) ∅)
              (resetStorage (storage (world wk))))
           (filterTrie wk)
           (LRU.mkCache [] (LRU.maxSize (urlCache wk))).

(** [chrome.storage.local.set({ adBlockerEnabled: enabled })] *)
Definition setAdBlockerEnabled (s : Storage.Storage) (enabled : bool)
  : Storage.Storage :=
  Storage.mkStorage (Some enabled) (Storage.showBadge s)
    (Storage.totalBlockedAllTime s) (Storage.totalTimeSaved s)
    (Storage.totalDataSaved s) (Storage.userXP s) (Storage.userCoins s)
    (Storage.blockedUrlsByTab s).

(** [tabs.forEach(tab => updateBadgeForTab(tab.id))], the callback of
    [chrome.tabs.query] in the [toggleAdBlocker], [updateBadge] and
    start-up handlers. *)
Definition updateBadgeForTabs (w : World) (tabs : list Z) : World :=
  foldl updateBadgeForTab w tabs.

(** The [updateBadge] message: [if (request.tabId)] is false for a
    missing id and for tab 0, and then all tabs are queried. *)
Definition onUpdateBadge (w : World) (tabId : option Z) : World :=
  match tabId with
  | Some t => if decide (t = 0)%Z then w else updateBadgeForTab w t
  | None => w
  end.

(** The callback of the read in the [shareExtension] handler. *)
Definition onShareRead (result : Storage.Storage) (s : Storage.Storage)
  : Storage.Storage :=
  Storage.setXPCoins s (default 0 (Storage.userXP result) + 300)
                       (default 0 (Storage.userCoins result) + 100).

(** The callback of the read in the [onStartup] handler:
    [blockedUrlsByTab.clear()], then every stored session is set. *)
Definition onStartupRead (w : World) (result : Storage.Storage) : World :=
  withTabs w (default ∅ (Storage.blockedUrlsByTab result)).

(** The [unload] listener. *)
Definition onUnload (w : World) : World :=
  match storageUpdateTimer w with
  | Some id =>
      saveBlockedUrlsToStorage (withRuntime w (clearTimeout (runtime w) id))
  | None => w
  end.

Section Histories.

Variable hostname : jsstring → option jsstring.

(** What happens to the worker, one task at a time.  A read of the storage
    area is named by the task that runs its callback; [result] is what the
    read answered, and any value is allowed for it.  [StartupRead] is the
    start-up read answered at once, with the storage area as it is when
    its callback runs; an answer that waits for its callback is a task of
    [Async] below.  A write is applied when it is issued.  The
    [onInstalled] listener is not among the tasks: it writes an empty
    [blockedUrlsByTab] over the stored one and leaves the sessions in
    memory. *)
Inductive Task :=
  | Request (u : jsstring) (tabId : Z) (time : N) (result : Storage.Storage)
  | TotalsRead (result : Storage.Storage)
  | ShareRead (result : Storage.Storage)
  | ListLoaded (content : jsstring)
  | TabRemoved (tabId : Z)
  | TabUpdated (tabId : Z) (changeInfoUrl : option jsstring)
  | TabActivated (tabId : Z)
  | TabsQueried (tabs : list Z)
  | GetBlockedUrls (tabId : Z)
  | ClearBlockedUrls (tabId : Z)
  | ResetAllData
  | ToggleAdBlocker (enabled : bool)
  | UpdateBadgeMessage (tabId : option Z)
  | StartupRead
  | Fire (id : positive)
  | Advance (dt : N).

Definition stepTask (wk : Worker) (task : Task) : Worker :=
  let w := world wk in
  match task with
  | Request u tabId time result => onBeforeRequest wk u tabId time result
  | TotalsRead result =>
      withWorld wk (withStorage w (Counters.onTotalsRead result (storage w)))
  | ShareRead result =>
      withWorld wk (withStorage w (onShareRead result (storage w)))
  | ListLoaded content =>
      mkWorker w (loadFilterList (filterTrie wk) content) (urlCache wk)
  | TabRemoved tabId => withWorld wk (onRemoved w tabId)
  | TabUpdated tabId changeInfoUrl =>
      withWorld wk (onUpdated hostname w tabId changeInfoUrl)
  | TabActivated tabId => withWorld wk (updateBadgeForTab w tabId)
  | TabsQueried tabs => withWorld wk (updateBadgeForTabs w tabs)
  | GetBlockedUrls _ => wk
  | ClearBlockedUrls tabId => withWorld wk (clearBlockedUrlsForTab w tabId)
  | ResetAllData => resetAllData wk
  | ToggleAdBlocker enabled =>
      withWorld wk (withStorage w (setAdBlockerEnabled (storage w) enabled))
  | UpdateBadgeMessage tabId => withWorld wk (onUpdateBadge w tabId)
  | StartupRead => withWorld wk (onStartupRead w (storage w))
  | Fire id => withWorld wk (fireTimer w id)
  | Advance dt => withWorld wk (advance w dt)
  end.

Definition runTasks (wk : Worker) (tasks : list Task) : Worker :=
  foldl stepTask wk tasks.

End Histories.

(** The handle a timer action is kept under, if it is pending. *)
Definition slot (w : World) (a : TimerAction) : option positive :=
  match a with
  | FlushStorage => storageUpdateTimer w
  | FlushBatched => None
  | UpdateBadge tabId => badgeUpdateTimers w !! tabId
  | AwardXPCoins => xpCoinsUpdateTimer w
  end.

(** The pending timers of an action, as handles and as due times. *)
Definition pendingIds (w : World) (a : TimerAction) : list positive :=
  timerId <$> filter (λ t, action t = a) (timers (runtime w)).

Definition pendingDues (w : World) (a : TimerAction) : list N :=
  due <$> filter (λ t, action t = a) (timers (runtime w)).

(** The timer table and the variables that hold handles agree: every
    pending timer is the one its variable names, and every handle held
    names a pending timer of that action. *)
Record Slots (w : World) : Prop := mkSlots {
  slots_fresh :
    Forall (λ t, (timerId t < nextTimerId (runtime w))%positive)
           (timers (runtime w));
  slots_distinct : NoDup (timerId <$> timers (runtime w));
  slots_timer :
    ∀ t, t ∈ timers (runtime w) → slot w (action t) = Some (timerId t);
  slots_slot :
    ∀ a id, slot w a = Some id →
      ∃ t, t ∈ timers (runtime w) ∧ timerId t = id ∧ action t = a
}.

(** The events of a list that are trackers, and the others. *)
Definition trackersIn (l : list BlockedUrl) : nat :=
  length (filter (λ e, blockedCategory e = Tracker) l).

Definition adsIn (l : list BlockedUrl) : nat :=
  length (filter (λ e, blockedCategory e ≠ Tracker) l).

(** A session as the handlers leave it: the list within the cap, the two
    category counters adding up to the total, and each counter at least
    the number of listed events of its category. *)
Definition wellFormed (d : TabData) : Prop :=
  (length (urls d) ≤ MAX_STORED_PER_TAB)%nat
  ∧ adCount d + trackerCount d = totalCount d
  ∧ N.of_nat (trackersIn (urls d)) ≤ trackerCount d
  ∧ N.of_nat (adsIn (urls d)) ≤ adCount d.

(** The stored sessions; a key never set reads as [{}]. *)
Definition storedSessions (s : Storage.Storage) : gmap Z TabData :=
  default ∅ (Storage.blockedUrlsByTab s).

(** Every session, in memory and stored, is well formed. *)
Definition sane (w : World) : Prop :=
  map_Forall (λ _ d, wellFormed d) (blockedUrlsByTab w)
  ∧ map_Forall (λ _ d, wellFormed d) (storedSessions (storage w)).

(** No timer of the older revision's flush is pending. *)
Definition noBatched (w : World) : Prop :=
  Forall (λ t, action t ≠ FlushBatched) (timers (runtime w)).

(** The sessions agree up to [R]: at every tab, [R] relates the stored
    record and the record in memory. *)
Definition agree (R : option TabData → option TabData → Prop) (w : World)
  : Prop :=
  ∀ tabId, R (storedSessions (storage w) !! tabId) (blockedUrlsByTab w !! tabId).

(** The stored record is the record of memory, or the record of memory is
    one that the navigation handler created empty and did not schedule. *)
Definition sameOrFresh (stored memory : option TabData) : Prop :=
  stored = memory
  ∨ (stored = None ∧ ∃ newDomain, memory = Some (freshTab newDomain)).

(** The same, or memory has no record yet, or an empty record stands where
    a session is stored: memory before a stored session was loaded. *)
Definition sameOrUnloaded (stored memory : option TabData) : Prop :=
  memory = None
  ∨ stored = memory
  ∨ ∃ newDomain, memory = Some (freshTab newDomain).

(** The storage area holds the sessions of memory, but for records that
    the navigation handler created empty and did not schedule. *)
Definition inSync (w : World) : Prop := agree sameOrFresh w.

(** Memory holds nothing that the storage area lacks, but for such empty
    records; stored sessions may be missing from memory. *)
Definition notAhead (w : World) : Prop := agree sameOrUnloaded w.

(** Whenever no flush is pending, the sessions agree up to [R]. *)
Definition syncedBy (R : option TabData → option TabData → Prop) (w : World)
  : Prop :=
  noBatched w ∧ (storageUpdateTimer w = None → agree R w).

End WithLowering.

End Handlers.

(** ** The reads of [blockedUrlsByTab] and their callbacks

    The worker reads [blockedUrlsByTab] when its script starts and in the
    [onStartup] listener.  The storage area answers a read with what it
    holds then; the callback runs later, as a task of its own, and other
    tasks may run in between. *)

Module Async.
Import Session Background Handlers.

Section WithLowering.

Context {Low : Lowering}.

(** The worker, and the answers given to reads of [blockedUrlsByTab] so
    far, oldest first. *)
Record State := mkState {
  worker : Worker;
  answers : list Storage.Storage
}.

(** The worker when its script has run: the [Map] is empty, the initial
    read is issued and not answered. *)
Definition start (s : Storage.Storage) (now : N) : State :=
  mkState (mkWorker (Background.start s now) newTrie (LRU.new URL_CACHE_SIZE))
          [].

(** The callback of the initial read: every stored session is set in the
    [Map], which is not cleared first. *)
Definition onInitialRead (w : World) (result : Storage.Storage) : World :=
  withTabs w (storedSessions result ∪ blockedUrlsByTab w).

Section Histories.

Variable hostname : jsstring → option jsstring.

(** A task of the worker ([Handler]), the storage area answering a read
    of [blockedUrlsByTab] ([SessionsAnswered]), or the callback of the
    initial read or of the start-up read running with the answer of index
    [i].  A callback for an answer that was not given does nothing.  (The
    callback of the start-up read goes on to query the tabs; the callback
    of that query is the task [TabsQueried].) *)
Inductive Task :=
  | Handler (task : Handlers.Task)
  | SessionsAnswered
  | InitialLoaded (i : nat)
  | StartupLoaded (i : nat).

Definition stepTask (st : State) (task : Task) : State :=
  let wk := worker st in
  match task with
  | Handler t => mkState (Handlers.stepTask hostname wk t) (answers st)
  | SessionsAnswered =>
      mkState wk (answers st ++ [storage (world wk)])
  | InitialLoaded i =>
      match answers st !! i with
      | Some result =>
          mkState (withWorld wk (onInitialRead (world wk) result)) (answers st)
      | None => st
      end
  | StartupLoaded i =>
      match answers st !! i with
      | Some result =>
          mkState (withWorld wk (onStartupRead (world wk) result)) (answers st)
      | None => st
      end
  end.

Definition runTasks (st : State) (tasks : list Task) : State :=
  foldl stepTask st tasks.

(** The answer that the callback [task] runs with, if it is one. *)
Definition answerOf (st : State) (task : Task) : option Storage.Storage :=
  match task with
  | InitialLoaded i | StartupLoaded i => answers st !! i
  | _ => None
  end.

(** Every callback of the history runs with an answer that is still what
    the storage area holds for [blockedUrlsByTab]. *)
Fixpoint currentAnswers (st : State) (tasks : list Task) : Prop :=
  match tasks with
  | [] => True
  | task :: rest =>
      (∀ result, answerOf st task = Some result →
         storedSessions result = storedSessions (storage (world (worker st))))
      ∧ currentAnswers (stepTask st task) rest
  end.

(** Some callback of the history ran with an answer. *)
Fixpoint loaded (st : State) (tasks : list Task) : bool :=
  match tasks with
  | [] => false
  | task :: rest =>
      bool_decide (is_Some (answerOf st task)) || loaded (stepTask st task) rest
  end.

End Histories.

End WithLowering.

End Async.

(** ** The popup: the figures of the current tab *)

Module Popup.
Import Session Handlers.




End Popup.

(** * Properties *)

(** ** Sanity checks of the embedding *)

(** ** Facts about strings and cleaning *)

Section StringFacts.

Context {Low : Lowering}.





Lemma occurrences_removeAll_other x y s :
  x ≠ y → occurrences x (removeAll y s) = occurrences x s.
Proof.
  intros Hne. unfold occurrences, removeAll.
  induction s as [|c s IH]; [done|].
  destruct (decide (c = y)) as [->|Hcy].
  - rewrite (filter_cons_False (λ c, c ≠ y)) by tauto.
    rewrite (filter_cons_False (λ c, c = x)) by congruence. done.
  - rewrite (filter_cons_True (λ c, c ≠ y)) by done.
    destruct (decide (c = x)) as [->|Hcx].
    + rewrite !(filter_cons_True (λ c, c = x)) by done. simpl. by rewrite IH.
    + by rewrite !(filter_cons_False (λ c, c = x)) by done.
Qed.

(** Lower-casing neither creates nor removes a filter-syntax character. *)
Lemma lowerUnit_syntax c x :
  x = BAR ∨ x = STAR ∨ x = CARET → lowerUnit c = x ↔ c = x.
Proof.
  unfold lowerUnit, BAR, STAR, CARET.
  intros Hx. destruct ((65 <=? c) && (c <=? 90)) eqn:E; [|done].
  apply andb_true_iff in E as [H1 H2].
  apply N.leb_le in H1, H2. lia.
Qed.


Lemma removeAll_Forall x s : Forall (λ c, c ≠ x) (removeAll x s).
Proof.
  unfold removeAll. apply Forall_forall. intros c Hc.
  by apply list_elem_of_filter in Hc as [? _].
Qed.

Lemma stripLeadingBars_id s : head s ≠ Some BAR → stripLeadingBars s = s.
Proof.
  destruct s as [|c [|d r]]; simpl; try done.
  intros Hc. rewrite bool_decide_eq_false_2; [done|congruence].
Qed.

Lemma stripLeadingBar_id s : head s ≠ Some BAR → stripLeadingBar s = s.
Proof.
  destruct s as [|c r]; simpl; [done|].
  intros Hc. rewrite bool_decide_eq_false_2; [done|congruence].
Qed.



Lemma isAscii_Forall s : isAscii s = true ↔ Forall (λ c, c < 128) s.
Proof.
  unfold isAscii. induction s as [|c s IH]; [by split; [constructor|]|].
  cbn [forallb]. rewrite andb_true_iff, IH, N.ltb_lt, Forall_cons. done.
Qed.

Lemma Forall_strip (P : N → Prop) s :
  Forall P s →
  Forall P (removeAll CARET
              (removeAll STAR
                 (stripTrailingBar (stripLeadingBar (stripLeadingBars s))))).
Proof.
  intros Hs.
  assert (Forall P (stripLeadingBars s)) as H1.
  { destruct s as [|c [|d r]]; simpl; try done.
    destruct (_ && _); [|done].
    by apply Forall_cons in Hs as [_ [_ ?]%Forall_cons]. }
  assert (Forall P (stripLeadingBar (stripLeadingBars s))) as H2.
  { destruct (stripLeadingBars s) as [|c r]; simpl; [done|].
    destruct (bool_decide _); [|done]. by apply Forall_cons in H1 as [_ ?]. }
  assert (∀ t, Forall P t → Forall P (stripTrailingBar t)) as H3.
  { intros t. induction 1 as [|c r Hc Hr IH]; [done|].
    destruct r as [|d r'].
    - simpl. destruct (bool_decide _); by repeat constructor.
    - change (stripTrailingBar (c :: d :: r'))
        with (c :: stripTrailingBar (d :: r')). by constructor. }
  unfold removeAll. apply Forall_forall. intros c Hc.
  apply list_elem_of_filter in Hc as [_ Hc].
  apply list_elem_of_filter in Hc as [_ Hc].
  specialize (H3 _ H2). rewrite Forall_forall in H3. by apply H3.
Qed.

(** On an ASCII pattern every lowering cleans alike, and the cleaned form
    is ASCII. *)
Lemma cleanPattern_ascii p :
  isAscii p = true →
  _cleanPattern p = _cleanPattern (Low := asciiLowering) p
  ∧ isAscii (_cleanPattern p) = true.
Proof.
  intros Hp. unfold _cleanPattern.
  assert (isAscii (removeAll CARET
                     (removeAll STAR
                        (stripTrailingBar
                           (stripLeadingBar (stripLeadingBars p))))) = true)
    as Hs by (apply isAscii_Forall, Forall_strip; by apply isAscii_Forall).
  rewrite toLowerCase_ascii by done. split; [done|].
  apply isAscii_Forall. unfold asciiLower. apply Forall_fmap.
  apply isAscii_Forall in Hs. eapply Forall_impl; [exact Hs|].
  intros c Hc. simpl. unfold lowerUnit.
  destruct ((65 <=? c) && (c <=? 90)) eqn:E; [|done].
  apply andb_true_iff in E as [_ H2]. apply N.leb_le in H2. lia.
Qed.

Lemma concat_units w : concat (units w) = w.
Proof. induction w as [|c w IH]; [done|]. simpl. by rewrite IH. Qed.

Lemma concat_codePoints_bounded n s :
  (length s ≤ n)%nat → concat (codePoints s) = s.
Proof.
  revert s. induction n as [|n IH]; intros s Hn.
  - destruct s; [done|simpl in Hn; lia].
  - destruct s as [|c [|d r]]; [done..|].
    simpl in Hn.
    change (codePoints (c :: d :: r))
      with (if isHighSurrogate c && isLowSurrogate d
            then [c; d] :: codePoints r else [c] :: codePoints (d :: r)).
    destruct (isHighSurrogate c && isLowSurrogate d).
    + cbn [concat app]. rewrite IH; [done|lia].
    + cbn [concat app]. f_equal. apply (IH (d :: r)). simpl. lia.
Qed.

Lemma concat_codePoints s : concat (codePoints s) = s.
Proof. by apply (concat_codePoints_bounded (length s)). Qed.

Lemma codePoints_units s : hasSurrogatePair s = false → codePoints s = units s.
Proof.
  induction s as [|c r IH]; [done|].
  destruct r as [|d r']; [done|].
  change (hasSurrogatePair (c :: d :: r'))
    with ((isHighSurrogate c && isLowSurrogate d) || hasSurrogatePair (d :: r')).
  change (codePoints (c :: d :: r'))
    with (if isHighSurrogate c && isLowSurrogate d
          then [c; d] :: codePoints r' else [c] :: codePoints (d :: r')).
  intros H. apply orb_false_iff in H as [-> H].
  change (units (c :: d :: r')) with ([c] :: units (d :: r')).
  by rewrite IH.
Qed.

(** Only a string with no surrogate pair is stored along one-unit keys. *)
Lemma codePoints_eq_units q w : codePoints q = units w → q = w.
Proof.
  intros H. rewrite <- (concat_codePoints q), H. apply concat_units.
Qed.

End StringFacts.

(** ** What the trie stores, and what a scan finds *)

Module TrieFacts.

Section WithLowering.

Context {Low : Lowering}.

Lemma patternAt_newNode ks : patternAt ks newNode = None.
Proof. destruct ks; [done|]. simpl. by rewrite lookup_empty. Qed.

Lemma patternAt_insertFrom ks ks' c n :
  patternAt ks (insertFrom ks' c n)
  = if decide (ks = ks') then Some (Some c) else patternAt ks n.
Proof.
  revert ks n. induction ks' as [|k' r' IH]; intros ks n.
  - destruct ks as [|k r]; cbn [patternAt insertFrom isPattern category children];
      by case_decide.
  - destruct ks as [|k r]; cbn [patternAt insertFrom isPattern category children];
      [by case_decide|].
    destruct (decide (k = k')) as [->|Hk].
    + rewrite lookup_insert_eq. cbn [mbind option_bind]. rewrite IH.
      destruct (decide (r = r')) as [->|Hr].
      * by rewrite decide_True.
      * rewrite decide_False by congruence.
        destruct (children n !! k') as [child|]; [done|].
        apply patternAt_newNode.
    + rewrite lookup_insert_ne by done.
      by rewrite decide_False by congruence.
Qed.

Lemma patternAt_foldl ks ps t :
  patternAt ks (root (foldl (λ t pc, insert t pc.1 pc.2) t ps))
  = match lastCategory ks ps with
    | Some c => Some (Some c)
    | None => patternAt ks (root t)
    end.
Proof.
  revert t. induction ps as [|[p c] ps IH]; intros t; [done|].
  simpl. rewrite IH. destruct (lastCategory ks ps); [done|].
  unfold insert. cbn [root]. rewrite patternAt_insertFrom.
  destruct (decide (ks = _)) as [->|Hne].
  - by rewrite decide_True.
  - by rewrite decide_False.
Qed.

(** The store holds exactly the last category of every inserted form. *)
Lemma patternAt_build ks ps :
  patternAt ks (root (build ps)) = Some <$> lastCategory ks ps.
Proof.
  unfold build. rewrite patternAt_foldl.
  destruct (lastCategory ks ps); [done|]. apply patternAt_newNode.
Qed.

Lemma lastCategory_In ks ps c :
  lastCategory ks ps = Some c →
  ∃ p, (p, c) ∈ ps ∧ codePoints (_cleanPattern p) = ks.
Proof.
  induction ps as [|[p d] ps IH]; [done|]. simpl.
  destruct (lastCategory ks ps) as [e|].
  - intros [= ->]. destruct (IH eq_refl) as (q & Hq & Hk).
    exists q. split; [by right|done].
  - destruct (decide _) as [Hk|]; [|done]. intros [= ->].
    exists p. split; [by left|done].
Qed.

Lemma lastCategory_None ks ps p c :
  lastCategory ks ps = None → (p, c) ∈ ps → codePoints (_cleanPattern p) ≠ ks.
Proof.
  induction ps as [|[q d] ps IH]; [by intros _ ?%elem_of_nil|]. simpl.
  destruct (lastCategory ks ps) as [e|]; [done|].
  destruct (decide _) as [|Hk]; [done|]. intros _ [[= -> ->]|Hin]%elem_of_cons.
  - done.
  - by apply IH.
Qed.


Lemma searchLoop_undefined rest : searchLoop None rest = None.
Proof. by destruct rest. Qed.


(** What a scan returns is the category of a pattern end on its path, and
    no shorter prefix of the path is one. *)
Lemma searchLoop_sound n rest r :
  searchLoop (Some n) rest = Some r →
  ∃ w post, rest = w ++ post ∧ matched r = true
    ∧ patternAt (units w) n = Some (resultCategory r)
    ∧ ∀ w', w' `prefix_of` w → w' ≠ w → patternAt (units w') n = None.
Proof.
  revert n. induction rest as [|c rest IH]; intros n H.
  - simpl in H. destruct (isPattern n) eqn:Hp; [|done]. injection H as <-.
    exists [], []. simpl. rewrite Hp. repeat split; try done.
    by intros w' ->%prefix_nil_inv.
  - simpl in H. destruct (isPattern n) eqn:Hp.
    + injection H as <-. exists [], (c :: rest). simpl. rewrite Hp.
      repeat split; try done. by intros w' ->%prefix_nil_inv.
    + destruct (children n !! [c]) as [child|] eqn:Hc;
        [|by rewrite searchLoop_undefined in H].
      destruct (IH _ H) as (w & post & -> & Hm & Hat & Hmin).
      exists (c :: w), post. simpl. rewrite Hc. repeat split; try done.
      intros [|d w'] Hpre Hne; simpl; [by rewrite Hp|].
      apply prefix_cons_inv_1 in Hpre as Hd. subst d.
      apply prefix_cons_inv_2 in Hpre. rewrite Hc. simpl.
      apply Hmin; [done|congruence].
Qed.

(** A scan that returns [null] met no pattern end on its path. *)
Lemma searchLoop_null n rest w post :
  searchLoop (Some n) rest = None → rest = w ++ post →
  patternAt (units w) n = None.
Proof.
  revert n w. induction rest as [|c rest IH]; intros n w H Hrest.
  - symmetry in Hrest. apply app_eq_nil in Hrest as [-> ->].
    simpl in *. by destruct (isPattern n).
  - simpl in H. destruct (isPattern n) eqn:Hp; [done|].
    destruct w as [|d w]; simpl; [by rewrite Hp|].
    simpl in Hrest. injection Hrest as <- ->.
    destruct (children n !! [c]) as [child|] eqn:Hc; [|done].
    simpl. by apply IH.
Qed.


Lemma matchesLoop_sound t u i k r :
  matchesLoop t u i k = Some r →
  ∃ j, (i ≤ j < i + k)%nat ∧ _searchFrom t u j = Some r
    ∧ ∀ j', (i ≤ j' < j)%nat → _searchFrom t u j' = None.
Proof.
  revert i. induction k as [|k IH]; intros i H; [done|].
  simpl in H. destruct (_searchFrom t u i) as [r'|] eqn:Hs.
  - injection H as ->. exists i. split; [lia|]. split; [done|]. lia.
  - destruct (IH _ H) as (j & Hj & Hr & Hnone). exists j.
    split; [lia|]. split; [done|]. intros j' Hj'.
    destruct (decide (j' = i)) as [->|]; [done|]. apply Hnone. lia.
Qed.

Lemma matchesLoop_null t u i k j :
  matchesLoop t u i k = None → (i ≤ j < i + k)%nat → _searchFrom t u j = None.
Proof.
  revert i. induction k as [|k IH]; intros i H Hj; [lia|].
  simpl in H. destruct (_searchFrom t u i) as [r'|] eqn:Hs; [done|].
  destruct (decide (i = j)) as [->|Hne]; [done|].
  apply (IH (S i)); [done|lia].
Qed.

End WithLowering.

End TrieFacts.
Import TrieFacts.

(** ** The pattern store as a whole *)

Section StoreFacts.

Context {Low : Lowering}.

Variable ps : list (jsstring * Category).


(** A stored form with no surrogate pair is a pattern end of the store. *)
Lemma stored_patternAt P C :
  (P, C) ∈ ps → hasSurrogatePair (_cleanPattern P) = false →
  ∃ c, patternAt (units (_cleanPattern P)) (root (build ps)) = Some (Some c).
Proof.
  intros Hin Hbmp. rewrite patternAt_build.
  destruct (lastCategory _ ps) as [c|] eqn:Hl; [by exists c|].
  exfalso. apply (lastCategory_None _ _ _ _ Hl Hin). by apply codePoints_units.
Qed.

(** A pattern end of the store along one-unit keys is the cleaned form of
    an inserted pattern, with the category of one of its inserts. *)
Lemma patternAt_stored w cat :
  patternAt (units w) (root (build ps)) = Some cat →
  ∃ Q c, (Q, c) ∈ ps ∧ _cleanPattern Q = w ∧ cat = Some c.
Proof.
  rewrite patternAt_build.
  destruct (lastCategory _ ps) as [c|] eqn:Hl; [|done].
  intros [= <-]. apply lastCategory_In in Hl as (Q & Hin & Hk).
  exists Q, c. split; [done|]. split; [|done]. by apply codePoints_eq_units.
Qed.

(** Whatever [matches] returns is the category of an inserted pattern whose
    cleaned form occurs in the lower-cased URL. *)
Lemma matches_sound url r :
  matches (build ps) url = Some r →
  ∃ Q c pre post, (Q, c) ∈ ps
    ∧ toLowerCase url = pre ++ _cleanPattern Q ++ post
    ∧ r = mkResult true (Some c).
Proof.
  unfold matches. intros H.
  apply matchesLoop_sound in H as (j & Hj & Hs & _).
  apply searchLoop_sound in Hs as (w & post & Hdrop & Hm & Hat & _).
  apply patternAt_stored in Hat as (Q & c & Hin & <- & Hc).
  exists Q, c, (take j (toLowerCase url)), post.
  split; [done|]. split.
  - by rewrite <- Hdrop, take_drop.
  - destruct r as [m rc]. simpl in *. by subst.
Qed.

(** An inserted pattern that starts a non-empty suffix of the lower-cased
    URL makes [matches] return a result. *)
Lemma matches_complete P C url pre post :
  (P, C) ∈ ps → hasSurrogatePair (_cleanPattern P) = false →
  toLowerCase url = pre ++ _cleanPattern P ++ post →
  _cleanPattern P ++ post ≠ [] →
  matches (build ps) url ≠ None.
Proof.
  intros Hin Hbmp Hu Hne Hnone. unfold matches in Hnone.
  destruct (stored_patternAt P C Hin Hbmp) as [c Hat].
  assert (length pre < length (toLowerCase url))%nat as Hlt.
  { rewrite Hu, length_app. destruct (_cleanPattern P ++ post); [done|].
    simpl. lia. }
  apply (matchesLoop_null _ _ _ _ (length pre)) in Hnone; [|lia].
  unfold _searchFrom in Hnone. rewrite Hu, drop_app_length in Hnone.
  by rewrite (searchLoop_null _ _ _ post Hnone eq_refl) in Hat.
Qed.

End StoreFacts.

(** ** C1: an inserted pattern that occurs in the URL *)

(** C1 (amended).  For every pattern [P] inserted with category [C] whose
    cleaned form holds no surrogate pair, and every URL whose lower-cased
    form has a non-empty suffix that starts with the cleaned form of [P],
    [matches] returns [{matched: true, category: c}] where [c] is the
    category of an inserted pattern whose cleaned form occurs in the
    lower-cased URL; and [c] is [C] whenever every inserted pattern whose
    cleaned form occurs in the lower-cased URL has category [C]. *)
Theorem matches_inserted_pattern {Low : Lowering} ps P C url pre post :
  (P, C) ∈ ps →
  hasSurrogatePair (_cleanPattern P) = false →
  toLowerCase url = pre ++ _cleanPattern P ++ post →
  _cleanPattern P ++ post ≠ [] →
  (∃ Q c pre' post',
     (Q, c) ∈ ps ∧ toLowerCase url = pre' ++ _cleanPattern Q ++ post'
     ∧ matches (build ps) url = Some (mkResult true (Some c)))
  ∧ ((∀ Q D pre' post', (Q, D) ∈ ps →
        toLowerCase url = pre' ++ _cleanPattern Q ++ post' → D = C) →
     matches (build ps) url = Some (mkResult true (Some C))).
Proof.
  intros Hin Hbmp Hu Hne.
  destruct (matches (build ps) url) as [r|] eqn:Hm;
    [|by destruct (matches_complete ps P C url pre post)].
  destruct (matches_sound ps url r Hm) as (Q & c & pre' & post' & HQ & HuQ & ->).
  split; [by exists Q, c, pre', post'|].
  intros Hall. by rewrite (Hall Q c pre' post' HQ HuQ).
Qed.

(** ** C2: leftmost offset first, shortest pattern first *)

Section ScanOrder.

Context {Low : Lowering}.

Variable ps : list (jsstring * Category).



End ScanOrder.


(** ** C6: cleaning twice *)


(** ** C9: a rule that cleans to the empty string *)

Section EmptyPattern.

Context {Low : Lowering}.

Lemma insertFrom_keeps_pattern ks c n :
  isPattern n = true → isPattern (insertFrom ks c n) = true.
Proof. by destruct ks. Qed.

Lemma loadLine_keeps_root_pattern t line :
  isPattern (root t) = true → isPattern (root (loadLine t line)) = true.
Proof.
  intros H. unfold loadLine.
  destruct (skipped line); [done|].
  destruct (bool_decide _); [done|].
  by apply insertFrom_keeps_pattern.
Qed.

Lemma loadLines_keeps_root_pattern t lines :
  isPattern (root t) = true → isPattern (root (loadLines t lines)) = true.
Proof.
  revert t. induction lines as [|line lines IH]; intros t H; [done|].
  apply IH. by apply loadLine_keeps_root_pattern.
Qed.

(** With the root flagged, the scan from offset 0 returns at once. *)
Lemma matches_root_pattern t url :
  isPattern (root t) = true → url ≠ [] →
  matches t url = Some (mkResult true (category (root t))).
Proof.
  intros H Hne. unfold matches.
  destruct (toLowerCase url) as [|c u] eqn:Hu;
    [by apply toLowerCase_empty in Hu|].
  cbn [length matchesLoop].
  unfold _searchFrom. rewrite drop_0. simpl. by rewrite H.
Qed.

Lemma matches_empty_url t : matches t [] = None.
Proof.
  unfold matches. by rewrite (toLowerCase_ascii []).
Qed.

End EmptyPattern.

(** C9.  A line that passes the loader's skip checks, whose filter text is
    not empty and cleans to the empty string, flags the trie root as a
    pattern end.  From then on, whatever lines are loaded after it,
    [matches] returns [{matched: true}] for every non-empty URL, and still
    [null] for the empty URL. *)
Theorem empty_pattern_matches_everything {Low : Lowering}
    t0 earlier line later :
  skipped line = false →
  filterOf line ≠ [] →
  _cleanPattern (filterOf line) = [] →
  let t := loadLines t0 (earlier ++ line :: later) in
  isPattern (root t) = true
  ∧ (∀ url, url ≠ [] → ∃ c, matches t url = Some (mkResult true c))
  ∧ matches t [] = None.
Proof.
  intros Hskip Hfilter Hclean t.
  assert (isPattern (root t) = true) as Hroot.
  { unfold t, loadLines. rewrite foldl_app. cbn [foldl].
    apply loadLines_keeps_root_pattern.
    unfold loadLine. rewrite Hskip.
    rewrite bool_decide_eq_false_2 by done.
    unfold insert. by rewrite Hclean. }
  split; [done|]. split; [|apply matches_empty_url].
  intros url Hne. exists (category (root t)). by apply matches_root_pattern.
Qed.

(** ** The Map behind the cache *)

Module LRUFacts.
Import LRU.

Section MapFacts.

Context {K V : Type} `{EqDecision K}.
Implicit Types (m : list (K * V)) (c : LRUCache K V).

Lemma mapDelete_keys key m : (mapDelete key m).*1 = filter (λ k, k ≠ key) m.*1.
Proof.
  unfold mapDelete. induction m as [|[k v] m IH]; [done|].
  rewrite fmap_cons. cbn [fst].
  destruct (decide (k = key)) as [->|Hne].
  - rewrite !filter_cons_False by (simpl; tauto). done.
  - rewrite !filter_cons_True by done. rewrite fmap_cons. by rewrite IH.
Qed.

Lemma mapDelete_absent key m : key ∉ m.*1 → mapDelete key m = m.
Proof.
  unfold mapDelete. induction m as [|[k v] m IH]; [done|].
  rewrite fmap_cons, not_elem_of_cons. intros [Hne Hm].
  rewrite filter_cons_True by (simpl in *; congruence). by rewrite IH.
Qed.

Lemma mapDelete_not_elem key m : key ∉ (mapDelete key m).*1.
Proof. rewrite mapDelete_keys. by intros [Hk _]%list_elem_of_filter. Qed.

Lemma mapDelete_length key m : (length (mapDelete key m) ≤ length m)%nat.
Proof. apply length_filter. Qed.

Lemma mapDelete_present_length key m :
  key ∈ m.*1 → (length (mapDelete key m) < length m)%nat.
Proof.
  unfold mapDelete. induction m as [|[k v] m IH]; [by intros ?%elem_of_nil|].
  rewrite fmap_cons. cbn [fst]. destruct (decide (k = key)) as [->|Hne].
  - intros _. rewrite filter_cons_False by (simpl; tauto).
    pose proof (mapDelete_length key m). unfold mapDelete in *. simpl. lia.
  - intros [?|Hin]%elem_of_cons; [done|].
    rewrite filter_cons_True by done. simpl. specialize (IH Hin). lia.
Qed.

Lemma mapSet_absent key value m : key ∉ m.*1 → mapSet key value m = m ++ [(key, value)].
Proof.
  induction m as [|[k v] m IH]; [done|].
  rewrite fmap_cons, not_elem_of_cons. cbn [fst]. intros [Hne Hm].
  simpl. rewrite decide_False by done. by rewrite IH.
Qed.

Lemma mapSet_present_keys key value m : key ∈ m.*1 → (mapSet key value m).*1 = m.*1.
Proof.
  induction m as [|[k v] m IH]; [by intros ?%elem_of_nil|].
  rewrite fmap_cons. cbn [fst]. simpl.
  destruct (decide (k = key)) as [->|Hne]; [done|].
  intros [?|Hin]%elem_of_cons; [done|]. rewrite fmap_cons. by rewrite IH.
Qed.

Lemma mapSet_length key value m : (length (mapSet key value m) ≤ S (length m))%nat.
Proof.
  induction m as [|[k v] m IH]; [done|]. simpl.
  destruct (decide (k = key)); simpl; lia.
Qed.

Lemma mapGet_Some_elem key value m : mapGet key m = Some value → key ∈ m.*1.
Proof.
  induction m as [|[k v] m IH]; [done|]. simpl.
  destruct (decide (k = key)) as [->|Hne]; [intros _; by left|].
  intros Hg. right. by apply IH.
Qed.

Lemma mapGet_elem_Some key m : key ∈ m.*1 → is_Some (mapGet key m).
Proof.
  induction m as [|[k v] m IH]; [by intros ?%elem_of_nil|]. simpl.
  destruct (decide (k = key)) as [->|Hne]; [by eexists|].
  intros [?|Hin]%elem_of_cons; [done|]. by apply IH.
Qed.

Lemma mapGet_mapSet key value m : mapGet key (mapSet key value m) = Some value.
Proof.
  induction m as [|[k v] m IH]; simpl; [by rewrite decide_True|].
  destruct (decide (k = key)) as [->|Hne]; simpl.
  - by rewrite decide_True.
  - by rewrite decide_False.
Qed.

(** *** The three operations *)

Lemma get_present c key value :
  mapGet key (cache c) = Some value →
  get c key = (Some value,
               mkCache (mapDelete key (cache c) ++ [(key, value)]) (maxSize c)).
Proof.
  intros Hg. unfold get, mapHas.
  rewrite bool_decide_eq_true_2 by (by eapply mapGet_Some_elem).
  cbn [negb]. rewrite Hg.
  by rewrite mapSet_absent by apply mapDelete_not_elem.
Qed.

Lemma get_absent c key : mapGet key (cache c) = None → get c key = (None, c).
Proof.
  intros Hg. unfold get, mapHas.
  destruct (bool_decide (key ∈ (cache c).*1)) eqn:Hb; [|done].
  apply bool_decide_eq_true in Hb. apply mapGet_elem_Some in Hb as [v Hv].
  congruence.
Qed.

Lemma get_maxSize c key : maxSize (get c key).2 = maxSize c.
Proof.
  unfold get. destruct (negb _); [done|]. by destruct (mapGet key (cache c)).
Qed.

Lemma get_length c key :
  (length (cache (get c key).2) ≤ length (cache c))%nat.
Proof.
  destruct (mapGet key (cache c)) as [v|] eqn:Hg.
  - rewrite (get_present _ _ _ Hg). cbn [snd cache].
    rewrite length_app. simpl.
    pose proof (mapDelete_present_length key (cache c)
                  (mapGet_Some_elem _ _ _ Hg)). lia.
  - by rewrite (get_absent _ _ Hg).
Qed.

(** On a full cache whose keys are distinct, [set] drops the first entry
    and nothing else. *)
Lemma set_full c key value first rest :
  NoDup (cache c).*1 →
  (maxSize c ≤ length (cache c))%nat →
  cache c = first :: rest →
  set c key value = mkCache (mapSet key value rest) (maxSize c).
Proof.
  intros Hnd Hfull Hc. unfold set. rewrite decide_True by done.
  rewrite Hc in *. cbn [head]. rewrite fmap_cons in Hnd.
  apply NoDup_cons in Hnd as [Hfirst _].
  unfold mapDelete. rewrite filter_cons_False by (simpl; tauto).
  fold (mapDelete first.1 rest). by rewrite mapDelete_absent.
Qed.

Lemma set_not_full c key value :
  (length (cache c) < maxSize c)%nat →
  set c key value = mkCache (mapSet key value (cache c)) (maxSize c).
Proof. intros Hlt. unfold set. by rewrite decide_False by lia. Qed.

Lemma set_length c key value :
  (1 ≤ maxSize c)%nat → (length (cache c) ≤ maxSize c)%nat →
  (length (cache (set c key value)) ≤ maxSize c)%nat.
Proof.
  intros Hpos Hle. unfold set. cbn [cache].
  pose proof (mapSet_length key value) as Hset.
  destruct (decide (maxSize c ≤ length (cache c))%nat) as [Hfull|Hroom].
  - destruct (cache c) as [|[k v] r] eqn:Hc; [simpl in *; lia|]. cbn [head fst].
    pose proof (mapDelete_present_length k ((k, v) :: r)) as Hdel.
    rewrite fmap_cons in Hdel. specialize (Hdel ltac:(by left)).
    specialize (Hset (mapDelete k ((k, v) :: r))). lia.
  - specialize (Hset (cache c)). lia.
Qed.

Lemma step_maxSize c op : maxSize (step c op) = maxSize c.
Proof. destruct op; [apply get_maxSize|done..]. Qed.

Lemma run_maxSize c ops : maxSize (run c ops) = maxSize c.
Proof.
  revert c. induction ops as [|op ops IH]; intros c; [done|].
  change (run c (op :: ops)) with (run (step c op) ops).
  rewrite IH. apply step_maxSize.
Qed.

Lemma step_length c op :
  (1 ≤ maxSize c)%nat → (length (cache c) ≤ maxSize c)%nat →
  (length (cache (step c op)) ≤ maxSize c)%nat.
Proof.
  intros Hpos Hle. destruct op as [key|key value|key]; simpl; [|by apply set_length|done].
  pose proof (get_length c key). lia.
Qed.

(** Keys stay distinct, as in a [Map]. *)
Lemma mapSet_NoDup key value m : NoDup m.*1 → NoDup (mapSet key value m).*1.
Proof.
  intros Hnd. destruct (decide (key ∈ m.*1)) as [Hin|Hout].
  - by rewrite mapSet_present_keys.
  - rewrite mapSet_absent by done. rewrite fmap_app. simpl.
    apply NoDup_app. split; [done|]. split; [|apply NoDup_singleton].
    intros k Hk ->%list_elem_of_singleton. done.
Qed.

Lemma mapDelete_NoDup key m : NoDup m.*1 → NoDup (mapDelete key m).*1.
Proof. rewrite mapDelete_keys. apply NoDup_filter. Qed.

Lemma step_NoDup c op : NoDup (cache c).*1 → NoDup (cache (step c op)).*1.
Proof.
  intros Hnd. destruct op as [key|key value|key]; simpl; [| |done].
  - unfold get. destruct (negb _); [done|].
    destruct (mapGet key (cache c)); [|done]. simpl.
    by apply mapSet_NoDup, mapDelete_NoDup.
  - apply mapSet_NoDup. destruct (decide _); [|done].
    destruct (head (cache c)); [|done]. by apply mapDelete_NoDup.
Qed.

Lemma run_NoDup c ops : NoDup (cache c).*1 → NoDup (cache (run c ops)).*1.
Proof.
  revert c. induction ops as [|op ops IH]; intros c Hnd; [done|].
  change (run c (op :: ops)) with (run (step c op) ops).
  apply IH. by apply step_NoDup.
Qed.

End MapFacts.

End LRUFacts.

(** ** The order of the Map is the order of last use *)

Module Recency.
Import LRU LRUFacts.

Section RecencyFacts.

Context {K V : Type} `{EqDecision K}.
Implicit Types (c : LRUCache K V) (ops : list (Op K V)).

Lemma run_snoc c ops op : run c (ops ++ [op]) = step (run c ops) op.
Proof. unfold run. by rewrite foldl_app. Qed.

Lemma lastUse_snoc c ops op now key :
  lastUse c (ops ++ [op]) now key
  = if uses (run c ops) op key then Some (now + length ops)%nat
    else lastUse c ops now key.
Proof.
  revert c now. induction ops as [|o ops IH]; intros c now.
  - simpl. rewrite Nat.add_0_r. by destruct (uses c op key).
  - cbn [app lastUse length]. rewrite IH.
    change (run c (o :: ops)) with (run (step c o) ops).
    destruct (uses (run (step c o) ops) op key); [f_equal; lia|done].
Qed.

Lemma lastUse_bound c ops now key t :
  lastUse c ops now key = Some t → (now ≤ t < now + length ops)%nat.
Proof.
  revert c now. induction ops as [|o ops IH]; intros c now; [done|].
  cbn [lastUse length].
  destruct (lastUse (step c o) ops (S now) key) as [t'|] eqn:Hl.
  - intros [= ->]. apply IH in Hl. lia.
  - destruct (uses c o key); [|done]. intros [= ->]. lia.
Qed.

Lemma setsAbsentKeys_snoc c ops op :
  setsAbsentKeys c (ops ++ [op]) = true →
  setsAbsentKeys c ops = true
  ∧ match op with OpSet k _ => has (run c ops) k = false | _ => True end.
Proof.
  revert c. induction ops as [|o ops IH]; intros c.
  - simpl. rewrite andb_true_r. destruct op; try done.
    by intros ->%negb_true_iff.
  - cbn [app setsAbsentKeys]. intros [Ho Hr]%andb_true_iff.
    apply IH in Hr as [Hr Hop]. rewrite Ho, Hr. done.
Qed.

(** Moving (or adding) [k] to the end, with the current time as its last
    use, keeps a list in the order of last use. *)
Lemma usedBefore_move_last lu (n : nat) k (l : list K) :
  StronglySorted (usedBefore lu) l →
  (∀ x, x ∈ l → ∃ t, lu x = Some t ∧ (t < n)%nat) →
  let lu' := λ x, if decide (k = x) then Some n else lu x in
  StronglySorted (usedBefore lu') (filter (λ x, x ≠ k) l ++ [k])
  ∧ (∀ x, x ∈ filter (λ x, x ≠ k) l ++ [k] → ∃ t, lu' x = Some t ∧ (t < S n)%nat).
Proof.
  intros Hs Hb lu'. split.
  - induction Hs as [|a l Hs IH Ha].
    + repeat constructor.
    + assert (∀ x, x ∈ l → ∃ t, lu x = Some t ∧ (t < n)%nat) as Hb'
        by (intros x Hx; apply Hb; by right).
      destruct (decide (a = k)) as [->|Hne].
      * rewrite filter_cons_False by tauto. by apply IH.
      * rewrite filter_cons_True by done. cbn [app].
        constructor; [by apply IH|].
        apply Forall_forall. intros x [Hx|Hx]%elem_of_app.
        -- apply list_elem_of_filter in Hx as [Hxk Hx].
           rewrite Forall_forall in Ha. destruct (Ha x Hx) as (ta & tb & ? & ? & ?).
           exists ta, tb. unfold lu'.
           rewrite !decide_False by done. done.
        -- apply list_elem_of_singleton in Hx as ->.
           destruct (Hb a ltac:(by left)) as (ta & Hta & Hlt).
           exists ta, n. unfold lu'.
           rewrite decide_False by done. by rewrite decide_True.
  - intros x [Hx|Hx]%elem_of_app.
    + apply list_elem_of_filter in Hx as [Hxk Hx].
      destruct (Hb x Hx) as (t & Ht & Hlt). exists t. unfold lu'.
      rewrite decide_False by done. split; [done|lia].
    + apply list_elem_of_singleton in Hx as ->. exists n. unfold lu'.
      rewrite decide_True by done. split; [done|lia].
Qed.

Lemma StronglySorted_weaken (R R' : K → K → Prop) (l : list K) :
  (∀ a b, R a b → R' a b) → StronglySorted R l → StronglySorted R' l.
Proof.
  intros HR. induction 1 as [|a l Hs IH Ha]; constructor; [done|].
  eapply Forall_impl; [exact Ha|]. intros b. apply HR.
Qed.

Lemma filter_absent (k : K) (l : list K) : k ∉ l → filter (λ x, x ≠ k) l = l.
Proof.
  induction l as [|a l IH]; [done|]. rewrite not_elem_of_cons. intros [Hne Hl].
  rewrite filter_cons_True by done. by rewrite IH.
Qed.

(** The invariant: the keys of the cache, in [Map] order, are in the order
    of their last use. *)
Lemma run_usedBefore n ops :
  setsAbsentKeys (new n) ops = true →
  let c : LRUCache K V := run (new n) ops in
  let lu := lastUse (new n) ops 0 in
  StronglySorted (usedBefore lu) (cache c).*1
  ∧ (∀ x, x ∈ (cache c).*1 → ∃ t, lu x = Some t ∧ (t < length ops)%nat).
Proof.
  induction ops as [|op ops IH] using rev_ind; intros Hd c lu.
  - split; [constructor|]. by intros x ?%elem_of_nil.
  - apply setsAbsentKeys_snoc in Hd as [Hd Hop].
    destruct (IH Hd) as [Hs Hb]. clear IH.
    pose proof (run_NoDup (new n) ops (NoDup_nil_2 : NoDup (cache (new n)).*1)) as Hnd.
    subst c lu. rewrite run_snoc, length_app. simpl.
    set (c := run (new n) ops) in *.
    set (lu := lastUse (new n) ops 0) in *.
    assert (∀ k, (∀ x, (if uses c op x then Some (0 + length ops)%nat else lu x)
                       = (if decide (k = x) then Some (length ops) else lu x)) →
                 ∀ l, StronglySorted (usedBefore lu) l →
                      (∀ x, x ∈ l → ∃ t, lu x = Some t ∧ (t < length ops)%nat) →
                      StronglySorted (usedBefore (lastUse (new n) (ops ++ [op]) 0))
                        (filter (λ x, x ≠ k) l ++ [k])
                      ∧ (∀ x, x ∈ filter (λ x, x ≠ k) l ++ [k] →
                           ∃ t, lastUse (new n) (ops ++ [op]) 0 x = Some t
                                ∧ (t < length ops + 1)%nat)) as Hmove.
    { intros k Hk l Hl Hlb.
      destruct (usedBefore_move_last lu (length ops) k l Hl Hlb) as [H1 H2].
      assert (∀ x, lastUse (new n) (ops ++ [op]) 0 x
                   = (if decide (k = x) then Some (length ops) else lu x)) as Heq
        by (intros x; rewrite lastUse_snoc; apply Hk).
      split.
      - eapply StronglySorted_weaken; [|exact H1].
        intros a b (ta & tb & Ha & Hb' & Hlt). exists ta, tb.
        by rewrite !Heq.
      - intros x Hx. destruct (H2 x Hx) as (t & Ht & Hlt).
        exists t. rewrite Heq. split; [done|lia]. }
    destruct op as [key|key value|key]; cbn [step].
    + (* get *)
      destruct (mapGet key (cache c)) as [v|] eqn:Hg.
      * rewrite (get_present _ _ _ Hg). cbn [snd cache].
        rewrite fmap_app, mapDelete_keys. simpl.
        apply Hmove; [|done..].
        intros x. simpl. unfold has, mapHas.
        rewrite (bool_decide_eq_true_2 (key ∈ _)) by (by eapply mapGet_Some_elem).
        rewrite andb_true_r. by destruct (decide (key = x)) as [->|];
          [rewrite bool_decide_eq_true_2|rewrite bool_decide_eq_false_2].
      * rewrite (get_absent _ _ Hg). cbn [snd].
        assert (key ∉ (cache c).*1) as Hout.
        { intros Hin%mapGet_elem_Some. rewrite Hg in Hin. by destruct Hin. }
        assert (∀ x, lastUse (new n) (ops ++ [OpGet key]) 0 x = lu x) as Heq.
        { intros x. rewrite lastUse_snoc. fold c. simpl. unfold has, mapHas.
          rewrite (bool_decide_eq_false_2 _ Hout). by rewrite andb_false_r. }
        split.
        -- eapply StronglySorted_weaken; [|exact Hs].
           intros a b (ta & tb & Ha & Hb' & Hlt). exists ta, tb. by rewrite !Heq.
        -- intros x Hx. destruct (Hb x Hx) as (t & Ht & Hlt).
           exists t. rewrite Heq. split; [done|lia].
    + (* set of an absent key *)
      unfold has, mapHas in Hop. apply bool_decide_eq_false in Hop.
      assert (∀ x, (if uses c (OpSet key value) x then Some (0 + length ops)%nat else lu x)
                   = (if decide (key = x) then Some (length ops) else lu x)) as Hk.
      { intros x. simpl. by destruct (decide (key = x)) as [->|];
          [rewrite bool_decide_eq_true_2|rewrite bool_decide_eq_false_2]. }
      unfold set. cbn [cache].
      destruct (decide (maxSize c ≤ length (cache c))%nat) as [Hfull|Hroom].
      * destruct (cache c) as [|[k0 v0] rest] eqn:Hc; cbn [head].
        -- simpl. apply (Hmove key Hk []); [constructor|by intros x ?%elem_of_nil].
        -- cbn [fst]. rewrite fmap_cons in Hnd, Hs, Hb, Hop. cbn [fst] in *.
           apply NoDup_cons in Hnd as [Hk0 Hnd].
           apply not_elem_of_cons in Hop as [Hne Hop].
           unfold mapDelete. rewrite filter_cons_False by (simpl; tauto).
           fold (mapDelete k0 rest). rewrite mapDelete_absent by done.
           rewrite mapSet_absent by done. rewrite fmap_app. simpl.
           rewrite <- (filter_absent key rest.*1) by done.
           apply (Hmove key Hk).
           ++ by apply StronglySorted_inv in Hs as [? _].
           ++ intros x Hx. apply Hb. by right.
      * rewrite mapSet_absent by done. rewrite fmap_app. simpl.
        rewrite <- (filter_absent key (cache c).*1) by done.
        by apply (Hmove key Hk).
    + (* has *)
      assert (∀ x, lastUse (new n) (ops ++ [OpHas key]) 0 x = lu x) as Heq
        by (intros x; by rewrite lastUse_snoc).
      split.
      * eapply StronglySorted_weaken; [|exact Hs].
        intros a b (ta & tb & Ha & Hb' & Hlt). exists ta, tb. by rewrite !Heq.
      * intros x Hx. destruct (Hb x Hx) as (t & Ht & Hlt).
        exists t. rewrite Heq. split; [done|lia].
Qed.

End RecencyFacts.

End Recency.

(** ** C3 and C10: the cache as an LRU of bounded size *)

Section CacheClaims.
Import LRU LRUFacts Recency.

Context {K V : Type} `{EqDecision K}.

Lemma run_length (c : LRUCache K V) ops :
  (1 ≤ maxSize c)%nat → (length (cache c) ≤ maxSize c)%nat →
  (length (cache (run c ops)) ≤ maxSize c)%nat.
Proof.
  revert c. induction ops as [|op ops IH]; intros c Hpos Hle; [done|].
  change (run c (op :: ops)) with (run (step c op) ops).
  rewrite <- (step_maxSize c op).
  apply IH; rewrite step_maxSize; [done|]. by apply step_length.
Qed.

(** The example of the claim, for any three distinct keys. *)
Lemma run_example (a b c : K) (v1 v2 v3 : V) :
  a ≠ b → b ≠ c → a ≠ c →
  run (new 2) [OpSet a v1; OpSet b v2; OpGet a; OpSet c v3]
  = mkCache [(a, v1); (c, v3)] 2.
Proof.
  intros Hab Hbc Hac. unfold run, new, foldl, step.
  rewrite (set_not_full (mkCache [] 2) a v1) by (simpl; lia).
  cbn [cache maxSize mapSet].
  rewrite (set_not_full (mkCache [(a, v1)] 2) b v2) by (simpl; lia).
  cbn [cache maxSize mapSet fst].
  rewrite decide_False by done.
  rewrite (get_present _ a v1) by (simpl; by rewrite decide_True).
  cbn [snd cache maxSize]. unfold mapDelete.
  rewrite filter_cons_False by (simpl; tauto).
  rewrite filter_cons_True by (simpl; congruence).
  rewrite filter_nil. cbn [app].
  rewrite (set_full _ c v3 (b, v2) [(a, v1)]);
    [| |simpl; lia|done].
  2:{ simpl. apply NoDup_cons. split; [|apply NoDup_singleton].
      intros Hin%list_elem_of_singleton. congruence. }
  cbn [mapSet fst maxSize]. by rewrite decide_False by done.
Qed.

End CacheClaims.

(** C3 (amended).  In every state the cache reaches from
    [new LRUCache(n)]: [get] of a present key returns its value and moves
    the key to the most-recently-used end of the [Map], the other entries
    keeping their order; [set] on a cache at capacity drops exactly the
    first entry of the [Map] before it stores the new one, and a key that
    is still present then keeps its place; [has] answers membership and
    changes nothing.  The first entry is the least recently used one when
    [set] is called for absent keys only, as [checkUrlBlocked] does: then
    every other key of the cache was used (found by [get] or stored by
    [set]) after the first was last used.  And with capacity 2, [set(a,1);
    set(b,2); get(a); set(c,3)] leaves exactly [a] and [c]. *)
Theorem lru_cache_strict {K V : Type} `{EqDecision K} (n : nat)
    (ops : list (LRU.Op K V)) :
  let c := LRU.run (LRU.new n) ops in
  (∀ key value,
     LRU.mapGet key (LRU.cache c) = Some value →
     LRU.get c key
     = (Some value,
        LRU.mkCache (LRU.mapDelete key (LRU.cache c) ++ [(key, value)]) n))
  ∧ (∀ key value first rest,
       (n ≤ length (LRU.cache c))%nat → LRU.cache c = first :: rest →
       LRU.set c key value = LRU.mkCache (LRU.mapSet key value rest) n
       ∧ (key ∉ rest.*1 →
          LRU.set c key value = LRU.mkCache (rest ++ [(key, value)]) n))
  ∧ (∀ key,
       (LRU.has c key = true ↔ key ∈ (LRU.cache c).*1)
       ∧ LRU.step c (LRU.OpHas key) = c)
  ∧ (LRU.setsAbsentKeys (LRU.new n) ops = true →
     ∀ first rest k,
       (LRU.cache c).*1 = first :: rest → k ∈ rest →
       LRU.usedBefore (LRU.lastUse (LRU.new n) ops 0) first k)
  ∧ (∀ (a b d : K) (v1 v2 v3 : V),
       a ≠ b → b ≠ d → a ≠ d →
       LRU.run (LRU.new 2)
         [LRU.OpSet a v1; LRU.OpSet b v2; LRU.OpGet a; LRU.OpSet d v3]
       = LRU.mkCache [(a, v1); (d, v3)] 2).
Proof.
  intros c.
  assert (LRU.maxSize c = n) as Hn by apply LRUFacts.run_maxSize.
  assert (NoDup (LRU.cache c).*1) as Hnd
    by (apply LRUFacts.run_NoDup; constructor).
  split; [|split; [|split; [|split]]].
  - intros key value Hg. rewrite <- Hn. by apply LRUFacts.get_present.
  - intros key value first rest Hfull Hc.
    rewrite (LRUFacts.set_full c key value first rest), Hn by (done || lia).
    split; [done|]. intros Hout. by rewrite LRUFacts.mapSet_absent.
  - intros key. split; [apply bool_decide_eq_true|done].
  - intros Hd first rest k Hc Hk.
    destruct (Recency.run_usedBefore n ops Hd) as [Hs _].
    fold c in Hs. rewrite Hc in Hs.
    apply StronglySorted_inv in Hs as [_ Hall].
    rewrite Forall_forall in Hall. by apply Hall.
  - intros a b d v1 v2 v3. apply run_example.
Qed.

(** C3 on a history that sets absent keys only: after [set(1); set(2);
    get(1); set(3)] the [Map] holds the keys in the order 2, 1, 3, and
    key 2 was last used before key 1 and before key 3. *)
Lemma lru_cache_strict_witness :
  let ops := [LRU.OpSet 1%nat 10%nat; LRU.OpSet 2%nat 20%nat;
              LRU.OpGet 1%nat; LRU.OpSet 3%nat 30%nat] in
  LRU.setsAbsentKeys (LRU.new 3) ops = true
  ∧ (LRU.cache (LRU.run (LRU.new 3) ops)).*1 = [2%nat; 1%nat; 3%nat]
  ∧ LRU.usedBefore (LRU.lastUse (LRU.new 3) ops 0) 2%nat 1%nat
  ∧ LRU.usedBefore (LRU.lastUse (LRU.new 3) ops 0) 2%nat 3%nat.
Proof.
  cbv zeta.
  destruct (lru_cache_strict (K := nat) (V := nat) 3
              [LRU.OpSet 1%nat 10%nat; LRU.OpSet 2%nat 20%nat;
               LRU.OpGet 1%nat; LRU.OpSet 3%nat 30%nat])
    as (_ & _ & _ & Hlru & _).
  split; [by vm_compute|]. split; [by vm_compute|].
  split; apply (Hlru eq_refl 2%nat [1%nat; 3%nat]);
    first [by vm_compute | set_solver].
Defined.

(** C3 (counterexample).  [set] of a key that is present and not the first
    of the [Map] replaces the value where it stands: the key is used, and
    keeps its place.  With capacity 3, after [set(1); set(2); set(1);
    set(3)] the cache is full and key 2 is the least recently used (time
    1; key 1 was set again at time 2), yet [set(4)] evicts key 1. *)
Lemma lru_evicts_recent_key_counterexample :
  let ops := [LRU.OpSet 1%nat 10%nat; LRU.OpSet 2%nat 20%nat;
              LRU.OpSet 1%nat 11%nat; LRU.OpSet 3%nat 30%nat] in
  let c := LRU.run (LRU.new 3) ops in
  LRU.cache c = [(1%nat, 11%nat); (2%nat, 20%nat); (3%nat, 30%nat)]
  ∧ length (LRU.cache c) = LRU.maxSize c
  ∧ LRU.lastUse (LRU.new 3) ops 0 1%nat = Some 2%nat
  ∧ LRU.lastUse (LRU.new 3) ops 0 2%nat = Some 1%nat
  ∧ LRU.lastUse (LRU.new 3) ops 0 3%nat = Some 3%nat
  ∧ LRU.usedBefore (LRU.lastUse (LRU.new 3) ops 0) 2%nat 1%nat
  ∧ LRU.cache (LRU.set c 4%nat 40%nat)
    = [(2%nat, 20%nat); (3%nat, 30%nat); (4%nat, 40%nat)]
  ∧ LRU.has (LRU.set c 4%nat 40%nat) 1%nat = false
  ∧ LRU.has (LRU.set c 4%nat 40%nat) 2%nat = true.
Proof.
  cbv zeta. repeat (split; [by vm_compute|]).
  split; [|repeat (split; [by vm_compute|]); by vm_compute].
  exists 1%nat, 2%nat. repeat split; [by vm_compute..|lia].
Qed.

(** C10.  For every capacity [maxSize >= 1], whatever sequence of [get],
    [set] and [has] calls is made on [new LRUCache(maxSize)], the number of
    entries never exceeds [maxSize]. *)
Theorem cache_size_bounded {K V : Type} `{EqDecision K} (maxSize : nat)
    (ops : list (LRU.Op K V)) :
  (1 ≤ maxSize)%nat →
  (length (LRU.cache (LRU.run (LRU.new maxSize) ops)) ≤ maxSize)%nat.
Proof.
  intros Hpos.
  apply (run_length (LRU.new maxSize) ops); simpl; [done|lia].
Qed.

(** C10 at capacity 2, with a [set] of a present key among the calls. *)
Lemma cache_size_bounded_witness :
  (length (LRU.cache (LRU.run (LRU.new 2)
     [LRU.OpSet (lit "a") 1%nat; LRU.OpSet (lit "b") 2%nat;
      LRU.OpSet (lit "b") 5%nat; LRU.OpGet (lit "a"); LRU.OpHas (lit "b");
      LRU.OpSet (lit "c") 3%nat; LRU.OpSet (lit "d") 4%nat])) ≤ 2)%nat.
Proof. apply (cache_size_bounded (K := jsstring) (V := nat) 2). lia. Defined.

(** ** C4: the bounded list of recent events and the counters *)

Section SessionFacts.
Import Session.

Variable cap : nat.

Lemma recordBlocked_lookup tabs tabId u time cat :
  recordBlocked cap tabs tabId u time cat !! tabId
  = Some (recordMatch cap (default (freshTab []) (tabs !! tabId)) u time cat).
Proof.
  unfold recordBlocked. destruct (tabs !! tabId) as [d|] eqn:Hd.
  - rewrite Hd. by rewrite lookup_insert_eq.
  - rewrite lookup_insert_eq. by rewrite lookup_insert_eq.
Qed.

Lemma recordBlocked_other tabs tabId u time cat other :
  other ≠ tabId →
  recordBlocked cap tabs tabId u time cat !! other = tabs !! other.
Proof.
  intros Hne. unfold recordBlocked. destruct (tabs !! tabId) as [d|] eqn:Hd.
  - rewrite Hd. by rewrite lookup_insert_ne.
  - rewrite lookup_insert_eq. by rewrite !lookup_insert_ne.
Qed.

Lemma recordAll_lookup tabs tabId b requests :
  recordAll cap tabs tabId (b :: requests) !! tabId
  = Some (sessionAfter cap (default (freshTab []) (tabs !! tabId)) (b :: requests)).
Proof.
  unfold recordAll, sessionAfter. cbn [foldl].
  pose proof (recordBlocked_lookup tabs tabId (requestUrl b) (requestTime b)
                (requestCategory b)) as Hfirst.
  revert Hfirst.
  generalize (recordBlocked cap tabs tabId (requestUrl b) (requestTime b)
                (requestCategory b)).
  generalize (recordMatch cap (default (freshTab []) (tabs !! tabId))
                (requestUrl b) (requestTime b) (requestCategory b)).
  induction requests as [|b' requests IH]; intros d tabs' Hd; [done|].
  cbn [foldl]. apply IH. rewrite recordBlocked_lookup. by rewrite Hd.
Qed.

Lemma sessionAfter_snoc d requests b :
  sessionAfter cap d (requests ++ [b])
  = recordMatch cap (sessionAfter cap d requests) (requestUrl b) (requestTime b)
      (requestCategory b).
Proof. unfold sessionAfter. by rewrite foldl_app. Qed.

(** From a record with no events and zero counters. *)
Lemma sessionAfter_fresh d requests :
  urls d = [] → totalCount d = 0 → adCount d = 0 → trackerCount d = 0 →
  let d' := sessionAfter cap d requests in
  urls d' = reverse (entryOf <$> take cap requests)
  ∧ totalCount d' = N.of_nat (length requests)
  ∧ adCount d' + trackerCount d' = N.of_nat (length requests)
  ∧ domain d' = domain d.
Proof.
  intros Hu Ht Ha Htr.
  induction requests as [|b requests IH] using rev_ind.
  - simpl. rewrite Hu, Ht, Ha, Htr, take_nil. done.
  - cbn zeta in *. rewrite sessionAfter_snoc.
    destruct IH as (IHu & IHt & IHa & IHd).
    set (d' := sessionAfter cap d requests) in *.
    unfold recordMatch. cbn [urls totalCount adCount trackerCount domain].
    rewrite length_app. cbn [length].
    split; [|split; [|split]]; [| lia | destruct (decide _); lia | done].
    rewrite IHu, length_reverse, length_fmap, length_take.
    destruct (decide (length requests < cap)%nat) as [Hlt|Hge].
    + rewrite decide_True by lia.
      rewrite (take_ge (requests ++ [b])) by (rewrite length_app; simpl; lia).
      rewrite (take_ge requests) by lia.
      by rewrite fmap_app, reverse_app.
    + rewrite decide_False by lia.
      by rewrite take_app_le by lia.
Qed.

End SessionFacts.

(** C4 (amended).  For a session with no record yet, or with a record
    holding no events and zero counters (as the request and navigation
    handlers create it), and a cap [K] on the list: after [N] matched
    requests the list holds [min N K] events, namely the first [min N K]
    requests that matched, the newest of them first (at the cap nothing
    more is put in front, so later matches are not listed), while
    [totalCount] is [N] and [adCount + trackerCount] is [N]. *)
Theorem session_after_matches (K : nat) (tabs : gmap Z Session.TabData)
    (tabId : Z) (requests : list Session.Blocked) :
  match tabs !! tabId with
  | Some d =>
      Session.urls d = [] ∧ Session.totalCount d = 0
      ∧ Session.adCount d = 0 ∧ Session.trackerCount d = 0
  | None => True
  end →
  match Session.recordAll K tabs tabId requests !! tabId with
  | Some d =>
      Session.urls d = reverse (Session.entryOf <$> take K requests)
      ∧ length (Session.urls d) = (length requests `min` K)%nat
      ∧ Session.totalCount d = N.of_nat (length requests)
      ∧ Session.adCount d + Session.trackerCount d = N.of_nat (length requests)
  | None => requests = [] ∧ tabs !! tabId = None
  end.
Proof.
  intros Hfresh. destruct requests as [|b requests].
  - simpl. destruct (tabs !! tabId) as [d|]; [|done].
    destruct Hfresh as (-> & -> & -> & ->). by rewrite take_nil.
  - rewrite recordAll_lookup.
    destruct (sessionAfter_fresh K (default (Session.freshTab []) (tabs !! tabId))
                (b :: requests)) as (Hu & Ht & Ha & _).
    1-4: destruct (tabs !! tabId) as [d|]; [by destruct Hfresh as (? & ? & ? & ?)|done].
    split; [done|]. split; [|done].
    rewrite Hu, length_reverse, length_fmap, length_take. lia.
Qed.

(** C4 at the specification's example: cap 3, five matches. *)
Lemma session_after_matches_witness :
  let requests :=
    [Session.mkBlocked (lit "https://ads.example.com/1") 10 Ad;
     Session.mkBlocked (lit "https://ads.example.com/2") 20 Tracker;
     Session.mkBlocked (lit "https://ads.example.com/3") 30 Ad;
     Session.mkBlocked (lit "https://ads.example.com/4") 40 Ad;
     Session.mkBlocked (lit "https://ads.example.com/5") 50 Tracker] in
  match Session.recordAll 3 ∅ 7%Z requests !! 7%Z with
  | Some d =>
      Session.urls d = reverse (Session.entryOf <$> take 3 requests)
      ∧ length (Session.urls d) = (length requests `min` 3)%nat
      ∧ Session.totalCount d = N.of_nat (length requests)
      ∧ Session.adCount d + Session.trackerCount d = N.of_nat (length requests)
  | None => requests = [] ∧ (∅ : gmap Z Session.TabData) !! 7%Z = None
  end.
Proof.
  apply (session_after_matches 3 ∅ 7%Z). by rewrite lookup_empty.
Defined.

(** C4 (counterexample).  Cap 3, five matches stamped 10 to 50: the list
    holds the events stamped 30, 20 and 10, the first three; the two most
    recent matches, stamped 40 and 50, are counted and not listed. *)
Lemma session_keeps_first_matches_counterexample :
  let requests :=
    [Session.mkBlocked (lit "https://ads.example.com/1") 10 Ad;
     Session.mkBlocked (lit "https://ads.example.com/2") 20 Tracker;
     Session.mkBlocked (lit "https://ads.example.com/3") 30 Ad;
     Session.mkBlocked (lit "https://ads.example.com/4") 40 Ad;
     Session.mkBlocked (lit "https://ads.example.com/5") 50 Tracker] in
  match Session.recordAll 3 ∅ 7%Z requests !! 7%Z with
  | Some d =>
      Session.timestamp <$> Session.urls d = [30; 20; 10]
      ∧ Session.totalCount d = 5
      ∧ Session.urls d ≠ reverse (Session.entryOf <$> drop 2 requests)
  | None => False
  end.
Proof.
  cbv zeta.
  destruct (Session.recordAll _ _ _ _ !! _) as [d|] eqn:Hd;
    vm_compute in Hd; [|discriminate].
  injection Hd as <-. split; [by vm_compute|]. split; [by vm_compute|].
  vm_compute. discriminate.
Qed.

(** ** Timers: the table of the runtime *)

Module TimerFacts.
Import Background.

Lemma pendingFlushes_length w :
  length (pendingFlushes w) = length (flushIds (runtime w)).
Proof. unfold pendingFlushes, flushIds. by rewrite !length_fmap. Qed.

Lemma flushIds_clearTimeout rt id :
  flushIds (clearTimeout rt id) = filter (λ i, i ≠ id) (flushIds rt).
Proof.
  unfold flushIds, clearTimeout. cbn [timers].
  induction (timers rt) as [|t l IH]; [done|].
  destruct (decide (timerId t = id)) as [Hid|Hid];
    destruct (decide (isFlush t)) as [Hf|Hf].
  - rewrite (filter_cons_False _ t l) by tauto.
    rewrite (filter_cons_True isFlush) by done. rewrite fmap_cons.
    rewrite filter_cons_False by tauto. done.
  - rewrite (filter_cons_False _ t l) by tauto.
    by rewrite (filter_cons_False isFlush) by done.
  - rewrite (filter_cons_True _ t l) by done.
    rewrite !(filter_cons_True isFlush) by done. rewrite !fmap_cons.
    rewrite filter_cons_True by done. by rewrite IH.
  - rewrite (filter_cons_True _ t l) by done.
    by rewrite !(filter_cons_False isFlush) by done.
Qed.

Lemma flushIds_setTimeout rt a delay :
  flushIds (setTimeout rt a delay).2
  = flushIds rt
    ++ (if decide (a = FlushStorage ∨ a = FlushBatched)
        then [nextTimerId rt] else []).
Proof.
  unfold flushIds, setTimeout. cbn [snd timers].
  rewrite filter_app, fmap_app. f_equal.
  destruct (decide (a = FlushStorage ∨ a = FlushBatched)) as [Ha|Ha].
  - by rewrite filter_cons_True by done.
  - by rewrite filter_cons_False by done.
Qed.

Lemma dues_setTimeout w a delay :
  a = FlushStorage ∨ a = FlushBatched →
  due <$> filter isFlush (timers (setTimeout (runtime w) a delay).2)
  = (due <$> filter isFlush (timers (runtime w))) ++ [now (runtime w) + delay].
Proof.
  intros Ha. unfold setTimeout. cbn [snd timers].
  rewrite filter_app, fmap_app. f_equal. by rewrite filter_cons_True by done.
Qed.

(** At most one timer has a given handle. *)
Lemma timer_by_id (l : list Timer) t t' :
  NoDup (timerId <$> l) → t ∈ l → t' ∈ l → timerId t = timerId t' → t = t'.
Proof.
  induction l as [|x l IH]; [by intros _ ?%elem_of_nil|].
  rewrite fmap_cons. intros [Hx Hnd]%NoDup_cons.
  intros [->|Ht]%elem_of_cons [->|Ht']%elem_of_cons Hid; [done| | |by apply IH].
  - exfalso. apply Hx. rewrite Hid. by apply list_elem_of_fmap_2.
  - exfalso. apply Hx. rewrite <- Hid. by apply list_elem_of_fmap_2.
Qed.

Lemma Inv_start s t0 : Inv (start s t0).
Proof.
  split; simpl; [constructor|constructor|done|].
  intros tabId id. by rewrite lookup_empty.
Qed.

Lemma fresh_setTimeout rt a delay :
  Forall (λ t, (timerId t < nextTimerId rt)%positive) (timers rt) →
  Forall (λ t, (timerId t < nextTimerId (setTimeout rt a delay).2)%positive)
         (timers (setTimeout rt a delay).2).
Proof.
  intros Hf. unfold setTimeout. cbn [snd timers nextTimerId].
  apply Forall_app. split.
  - eapply Forall_impl; [exact Hf|]. intros t Ht. simpl in *. lia.
  - repeat constructor. simpl. lia.
Qed.

Lemma distinct_setTimeout rt a delay :
  Forall (λ t, (timerId t < nextTimerId rt)%positive) (timers rt) →
  NoDup (timerId <$> timers rt) →
  NoDup (timerId <$> timers (setTimeout rt a delay).2).
Proof.
  intros Hf Hnd. unfold setTimeout. cbn [snd timers].
  rewrite fmap_app. apply NoDup_app. split; [done|].
  split; [|apply NoDup_singleton].
  intros i Hi ->%list_elem_of_singleton.
  apply list_elem_of_fmap in Hi as (t & Hid & Ht).
  rewrite Forall_forall in Hf. specialize (Hf t Ht). simpl in *. lia.
Qed.

Lemma fresh_clearTimeout rt id :
  Forall (λ t, (timerId t < nextTimerId rt)%positive) (timers rt) →
  Forall (λ t, (timerId t < nextTimerId (clearTimeout rt id))%positive)
         (timers (clearTimeout rt id)).
Proof.
  intros Hf. unfold clearTimeout. cbn [timers nextTimerId].
  rewrite Forall_forall in Hf. apply Forall_forall.
  intros t [_ Ht]%list_elem_of_filter. by apply Hf.
Qed.

Lemma distinct_clearTimeout rt id :
  NoDup (timerId <$> timers rt) → NoDup (timerId <$> timers (clearTimeout rt id)).
Proof.
  unfold clearTimeout. cbn [timers]. intros Hnd.
  eapply sublist_NoDup; [exact Hnd|apply fmap_sublist, sublist_filter].
Qed.

Lemma flushIds_fresh rt i :
  Forall (λ t, (timerId t < nextTimerId rt)%positive) (timers rt) →
  i ∈ flushIds rt → (i < nextTimerId rt)%positive.
Proof.
  intros Hf (t & -> & Ht)%list_elem_of_fmap.
  apply list_elem_of_filter in Ht as [_ Ht].
  rewrite Forall_forall in Hf. by apply Hf.
Qed.

(** Clearing the handle of a timer that is no flush timer, or of no
    timer at all, keeps the flush timers. *)
Lemma flushIds_clear_other rt id :
  id ∉ flushIds rt → flushIds (clearTimeout rt id) = flushIds rt.
Proof.
  intros Hid. rewrite flushIds_clearTimeout.
  induction (flushIds rt) as [|i l IH]; [done|].
  apply not_elem_of_cons in Hid as [Hne Hid].
  rewrite filter_cons_True by done. by rewrite IH.
Qed.

Lemma Inv_scheduleStorageUpdate w : Inv w → Inv (scheduleStorageUpdate w).
Proof.
  intros [Hf Hd Hfl Hb]. unfold scheduleStorageUpdate.
  set (rt1 := match storageUpdateTimer w with
              | Some id => clearTimeout (runtime w) id
              | None => runtime w
              end).
  assert (Forall (λ t, (timerId t < nextTimerId rt1)%positive) (timers rt1)) as Hf1.
  { unfold rt1. destruct (storageUpdateTimer w); [by apply fresh_clearTimeout|done]. }
  assert (NoDup (timerId <$> timers rt1)) as Hd1.
  { unfold rt1. destruct (storageUpdateTimer w); [by apply distinct_clearTimeout|done]. }
  assert (flushIds rt1 = []) as Hfl1.
  { unfold rt1. destruct (storageUpdateTimer w) as [id|]; [|done].
    rewrite flushIds_clearTimeout, Hfl. simpl.
    by rewrite filter_cons_False by tauto. }
  assert (nextTimerId rt1 = nextTimerId (runtime w)) as Hn1.
  { unfold rt1. by destruct (storageUpdateTimer w). }
  destruct (setTimeout rt1 FlushStorage STORAGE_BATCH_DELAY) as [id rt2] eqn:Hset.
  assert (rt2 = (setTimeout rt1 FlushStorage STORAGE_BATCH_DELAY).2) as ->
    by (by rewrite Hset).
  assert (id = nextTimerId rt1) as -> by (by injection Hset).
  split; cbn [runtime storageUpdateTimer badgeUpdateTimers withStorageTimer].
  - by apply fresh_setTimeout.
  - by apply distinct_setTimeout.
  - rewrite flushIds_setTimeout, Hfl1. by rewrite decide_True by tauto.
  - intros tabId i Hi. destruct (Hb tabId i Hi) as [Hlt Hout].
    rewrite flushIds_setTimeout, Hfl1, decide_True by tauto.
    cbn [setTimeout snd nextTimerId app]. rewrite Hn1. split; [lia|].
    intros ->%list_elem_of_singleton. lia.
Qed.

Lemma Inv_scheduleBatchedStorageUpdate w tabId :
  Inv w → Inv (scheduleBatchedStorageUpdate w tabId).
Proof.
  intros [Hf Hd Hfl Hb]. unfold scheduleBatchedStorageUpdate.
  cbn [storageUpdateTimer withPending runtime].
  destruct (storageUpdateTimer w) as [id|] eqn:Hst.
  - split; cbn [runtime storageUpdateTimer badgeUpdateTimers withPending];
      try done. by rewrite Hst.
  - destruct (setTimeout (runtime w) FlushBatched STORAGE_BATCH_DELAY)
      as [id rt2] eqn:Hset.
    assert (rt2 = (setTimeout (runtime w) FlushBatched STORAGE_BATCH_DELAY).2)
      as -> by (by rewrite Hset).
    assert (id = nextTimerId (runtime w)) as -> by (by injection Hset).
    split; cbn [runtime storageUpdateTimer badgeUpdateTimers withStorageTimer
                withPending].
    + by apply fresh_setTimeout.
    + by apply distinct_setTimeout.
    + rewrite flushIds_setTimeout, Hfl. by rewrite decide_True by tauto.
    + intros tab i Hi. destruct (Hb tab i Hi) as [Hlt Hout].
      rewrite flushIds_setTimeout, Hfl, decide_True by tauto.
      cbn [setTimeout snd nextTimerId app option_list]. split; [lia|].
      intros ->%list_elem_of_singleton. lia.
Qed.

Lemma Inv_updateBadgeForTab w tabId : Inv w → Inv (updateBadgeForTab w tabId).
Proof.
  intros [Hf Hd Hfl Hb]. unfold updateBadgeForTab.
  set (rt1 := match badgeUpdateTimers w !! tabId with
              | Some id => clearTimeout (runtime w) id
              | None => runtime w
              end).
  assert (Forall (λ t, (timerId t < nextTimerId rt1)%positive) (timers rt1)) as Hf1.
  { unfold rt1. destruct (_ !! tabId); [by apply fresh_clearTimeout|done]. }
  assert (NoDup (timerId <$> timers rt1)) as Hd1.
  { unfold rt1. destruct (_ !! tabId); [by apply distinct_clearTimeout|done]. }
  assert (flushIds rt1 = flushIds (runtime w)) as Hfl1.
  { unfold rt1. destruct (_ !! tabId) as [id|] eqn:Hid; [|done].
    apply flushIds_clear_other. by destruct (Hb tabId id Hid). }
  assert (nextTimerId rt1 = nextTimerId (runtime w)) as Hn1.
  { unfold rt1. by destruct (_ !! tabId). }
  destruct (setTimeout rt1 (UpdateBadge tabId) BADGE_UPDATE_DELAY)
    as [id rt2] eqn:Hset.
  assert (rt2 = (setTimeout rt1 (UpdateBadge tabId) BADGE_UPDATE_DELAY).2) as ->
    by (by rewrite Hset).
  assert (id = nextTimerId rt1) as -> by (by injection Hset).
  assert (flushIds (setTimeout rt1 (UpdateBadge tabId) BADGE_UPDATE_DELAY).2
          = flushIds (runtime w)) as Hfl2.
  { rewrite flushIds_setTimeout, Hfl1.
    rewrite decide_False by (intros [?|?]; done). by rewrite app_nil_r. }
  split; cbn [runtime storageUpdateTimer badgeUpdateTimers withBadgeTimers].
  - by apply fresh_setTimeout.
  - by apply distinct_setTimeout.
  - by rewrite Hfl2.
  - intros tab i. rewrite Hfl2. cbn [setTimeout snd nextTimerId]. rewrite Hn1.
    destruct (decide (tab = tabId)) as [->|Hne].
    + rewrite lookup_insert_eq. intros [= <-]. split; [lia|].
      intros Hin. apply (flushIds_fresh _ _ Hf) in Hin. lia.
    + rewrite lookup_insert_ne by done. intros Hi.
      destruct (Hb tab i Hi). split; [lia|done].
Qed.

Lemma Inv_awardXPAndCoins w : Inv w → Inv (awardXPAndCoins w).
Proof.
  intros [Hf Hd Hfl Hb]. unfold awardXPAndCoins.
  destruct (xpCoinsUpdateTimer w) as [id|]; [by split|].
  destruct (setTimeout (runtime w) AwardXPCoins 1000) as [id rt2] eqn:Hset.
  assert (rt2 = (setTimeout (runtime w) AwardXPCoins 1000).2) as ->
    by (by rewrite Hset).
  assert (flushIds (setTimeout (runtime w) AwardXPCoins 1000).2
          = flushIds (runtime w)) as Hfl2.
  { rewrite flushIds_setTimeout.
    rewrite decide_False by (intros [?|?]; done). by rewrite app_nil_r. }
  split; cbn [runtime storageUpdateTimer badgeUpdateTimers withXP].
  - by apply fresh_setTimeout.
  - by apply distinct_setTimeout.
  - by rewrite Hfl2.
  - intros tab i Hi. rewrite Hfl2. destruct (Hb tab i Hi).
    cbn [setTimeout snd nextTimerId]. split; [lia|done].
Qed.

Lemma Inv_advance w dt : Inv w → Inv (advance w dt).
Proof. intros [Hf Hd Hfl Hb]. by split. Qed.

Lemma Inv_fireTimer w id : Inv w → Inv (fireTimer w id).
Proof.
  intros HI. pose proof HI as [Hf Hd Hfl Hb]. unfold fireTimer.
  destruct (list_find _ _) as [[k t]|] eqn:Hfind; [|done].
  apply list_find_Some in Hfind as (Hk & Hid & _).
  apply list_elem_of_lookup_2 in Hk.
  destruct (decide (due t ≤ now (runtime w))); [|done].
  set (rt1 := clearTimeout (runtime w) id).
  pose proof (fresh_clearTimeout _ id Hf) as Hf1.
  pose proof (distinct_clearTimeout _ id Hd) as Hd1.
  fold rt1 in Hf1, Hd1.
  destruct (decide (isFlush t)) as [Hflush|Hother].
  - (* the flush timer fires *)
    assert (id ∈ flushIds (runtime w)) as Hin.
    { unfold flushIds. apply list_elem_of_fmap. exists t.
      split; [done|]. by apply list_elem_of_filter. }
    rewrite Hfl in Hin.
    destruct (storageUpdateTimer w) as [id'|] eqn:Hst;
      [|by apply elem_of_nil in Hin].
    apply list_elem_of_singleton in Hin as ->.
    assert (flushIds rt1 = []) as Hfl1.
    { unfold rt1. rewrite flushIds_clearTimeout, Hfl. simpl.
      by rewrite filter_cons_False by tauto. }
    assert (∀ tab i, badgeUpdateTimers w !! tab = Some i →
                     (i < nextTimerId rt1)%positive ∧ i ∉ flushIds rt1) as Hb1.
    { intros tab i Hi. destruct (Hb tab i Hi). rewrite Hfl1.
      split; [done|]. by intros ?%elem_of_nil. }
    destruct Hflush as [Ha|Ha]; rewrite Ha; cbn [callback].
    + by split.
    + unfold flushStorageUpdates. cbn [pendingStorageUpdates withRuntime].
      destruct (decide _); by split.
  - (* another timer fires *)
    assert (id ∉ flushIds (runtime w)) as Hout.
    { intros (t' & Hid' & Ht')%list_elem_of_fmap.
      apply list_elem_of_filter in Ht' as [Hfl' Ht'].
      apply Hother. rewrite (timer_by_id _ t t' Hd Hk Ht'); [done|congruence]. }
    assert (flushIds rt1 = flushIds (runtime w)) as Hfl1
      by (by apply flushIds_clear_other).
    assert (∀ tab i, badgeUpdateTimers w !! tab = Some i →
                     (i < nextTimerId rt1)%positive ∧ i ∉ flushIds rt1) as Hb1.
    { intros tab i Hi. rewrite Hfl1. by apply (Hb tab). }
    destruct (action t) as [| |tab|] eqn:Ha; cbn [callback].
    + exfalso. apply Hother. by left.
    + exfalso. apply Hother. by right.
    + split; cbn [runtime storageUpdateTimer badgeUpdateTimers withBadgeTimers
                  withRuntime]; try done; [by rewrite Hfl1|].
      intros tab' i Hi. apply lookup_delete_Some in Hi as [_ Hi].
      by apply (Hb1 tab').
    + destruct (pendingXPCoins _) as [xp coins].
      split; cbn [runtime storageUpdateTimer badgeUpdateTimers withXP
                  withStorage withRuntime]; try done. by rewrite Hfl1.
Qed.

Lemma Inv_runEvents w events : Inv w → Inv (runEvents w events).
Proof.
  revert w. induction events as [|e events IH]; intros w HI; [done|].
  change (runEvents w (e :: events)) with (runEvents (stepEvent w e) events).
  apply IH. destruct e; simpl.
  - by apply Inv_scheduleStorageUpdate.
  - by apply Inv_scheduleBatchedStorageUpdate.
  - by apply Inv_updateBadgeForTab.
  - by apply Inv_awardXPAndCoins.
  - by apply Inv_fireTimer.
  - by apply Inv_advance.
Qed.

End TimerFacts.

(** ** C7: one flush timer, and what a mark does to its delay *)

Section FlushTimer.
Import Background TimerFacts.

Lemma no_flush_pending rt :
  flushIds rt = [] → filter isFlush (timers rt) = [].
Proof. unfold flushIds. by intros ?%fmap_nil_inv. Qed.

(** V1.8: after [scheduleStorageUpdate] the one pending flush is due a full
    delay from now. *)
Lemma scheduleStorageUpdate_due w :
  Inv w →
  pendingFlushes (scheduleStorageUpdate w)
  = [now (runtime w) + STORAGE_BATCH_DELAY].
Proof.
  intros [Hf Hd Hfl Hb]. unfold scheduleStorageUpdate, pendingFlushes.
  set (rt1 := match storageUpdateTimer w with
              | Some id => clearTimeout (runtime w) id
              | None => runtime w
              end).
  assert (flushIds rt1 = []) as Hfl1.
  { unfold rt1. destruct (storageUpdateTimer w) as [id|]; [|done].
    rewrite flushIds_clearTimeout, Hfl. simpl.
    by rewrite filter_cons_False by tauto. }
  assert (now rt1 = now (runtime w)) as Hnow
    by (unfold rt1; by destruct (storageUpdateTimer w)).
  unfold setTimeout. cbn [withStorageTimer runtime timers].
  rewrite filter_app, (no_flush_pending _ Hfl1).
  rewrite filter_cons_True by (by left). simpl. by rewrite Hnow.
Qed.

(** The older revision: a first mark arms the timer. *)
Lemma scheduleBatched_first w tabId :
  Inv w → storageUpdateTimer w = None →
  let w' := scheduleBatchedStorageUpdate w tabId in
  pendingFlushes w' = [now (runtime w) + STORAGE_BATCH_DELAY]
  ∧ is_Some (storageUpdateTimer w').
Proof.
  intros [Hf Hd Hfl Hb] Hst. unfold scheduleBatchedStorageUpdate, pendingFlushes.
  cbn [withPending storageUpdateTimer runtime]. rewrite Hst.
  rewrite Hst in Hfl. unfold setTimeout.
  cbn [withStorageTimer runtime timers storageUpdateTimer].
  rewrite filter_app, (no_flush_pending _ Hfl).
  rewrite filter_cons_True by (by right). done.
Qed.

(** The older revision: a mark while the timer is pending touches neither
    the timer table nor the timer variable; it only adds to the dirty set. *)
Lemma scheduleBatched_pending w tabId id :
  storageUpdateTimer w = Some id →
  scheduleBatchedStorageUpdate w tabId
  = withPending w ({[tabId]} ∪ pendingStorageUpdates w).
Proof.
  intros Hst. unfold scheduleBatchedStorageUpdate.
  cbn [withPending storageUpdateTimer]. by rewrite Hst.
Qed.

Lemma markAll_pending w marks :
  is_Some (storageUpdateTimer w) →
  pendingFlushes (markAll w marks) = pendingFlushes w
  ∧ (∀ m, m ∈ marks → m.2 ∈ pendingStorageUpdates (markAll w marks))
  ∧ pendingStorageUpdates w ⊆ pendingStorageUpdates (markAll w marks).
Proof.
  revert w. induction marks as [|[dt tab] marks IH]; intros w Hst.
  - split; [done|]. split; [by intros m ?%elem_of_nil|done].
  - change (markAll w ((dt, tab) :: marks))
      with (markAll (scheduleBatchedStorageUpdate (advance w dt) tab) marks).
    destruct Hst as [id Hst].
    rewrite (scheduleBatched_pending (advance w dt) tab id) by done.
    set (w1 := withPending (advance w dt)
                 ({[tab]} ∪ pendingStorageUpdates (advance w dt))).
    destruct (IH w1) as (Hp & Hin & Hsub); [by exists id|].
    split; [by rewrite Hp|]. split.
    + intros m [->|Hm]%elem_of_cons; [|by apply Hin].
      apply Hsub. simpl. apply elem_of_union. left. by apply elem_of_singleton.
    + etrans; [|exact Hsub]. simpl. apply union_subseteq_r.
Qed.

End FlushTimer.

(** C7 (counterexample).  In the V1.8 file a mark while the timer is
    pending resets the delay: marked at time 0 the flush is due at 1000;
    marked again at time 500 the one pending flush is due at 1500. *)
Lemma rearm_resets_delay_counterexample :
  let w1 := Background.scheduleStorageUpdate (Background.start Storage.empty 0) in
  let w2 := Background.scheduleStorageUpdate (Background.advance w1 500) in
  Background.pendingFlushes w1 = [1000]
  ∧ Background.pendingFlushes w2 = [1500]
  ∧ Background.pendingFlushes w2 ≠ Background.pendingFlushes w1.
Proof. cbv zeta. split; [|split]; vm_compute; done. Qed.

(** C7 (amended).  In every history of the service worker at most one
    flush timer is pending, whichever scheduler is used.  With
    [scheduleBatchedStorageUpdate] (the older revision) a mark while the
    timer is pending only adds the session to the dirty set: the flush
    stays due [STORAGE_BATCH_DELAY] after the first mark.  With
    [scheduleStorageUpdate] (V1.8) every mark clears the pending timer and
    arms a new one, so the flush is due [STORAGE_BATCH_DELAY] after the
    latest mark. *)
Theorem flush_timer_single (s : Storage.Storage) (t0 : N)
    (events : list Background.Event) :
  let w := Background.runEvents (Background.start s t0) events in
  (length (Background.pendingFlushes w) ≤ 1)%nat
  ∧ (Background.storageUpdateTimer w = None →
     ∀ tabId marks,
       let w' := Background.markAll
                   (Background.scheduleBatchedStorageUpdate w tabId) marks in
       Background.pendingFlushes w'
       = [Background.now (Background.runtime w) + Background.STORAGE_BATCH_DELAY]
       ∧ tabId ∈ Background.pendingStorageUpdates w'
       ∧ ∀ m, m ∈ marks → m.2 ∈ Background.pendingStorageUpdates w')
  ∧ Background.pendingFlushes (Background.scheduleStorageUpdate w)
    = [Background.now (Background.runtime w) + Background.STORAGE_BATCH_DELAY].
Proof.
  intros w.
  assert (Background.Inv w) as HI
    by apply TimerFacts.Inv_runEvents, TimerFacts.Inv_start.
  split; [|split].
  - rewrite TimerFacts.pendingFlushes_length, (Background.inv_flush w HI).
    destruct (Background.storageUpdateTimer w); simpl; lia.
  - intros Hst tabId marks w'.
    destruct (scheduleBatched_first w tabId HI Hst) as [Hdue Hsome].
    destruct (markAll_pending _ marks Hsome) as (Hp & Hin & Hsub).
    split; [by rewrite <- Hdue|]. split; [|done].
    apply Hsub. unfold Background.scheduleBatchedStorageUpdate.
    cbn [Background.withPending Background.storageUpdateTimer]. rewrite Hst.
    simpl. apply elem_of_union. left. by apply elem_of_singleton.
  - by apply scheduleStorageUpdate_due.
Qed.

(** The batched part of the amended C7: first mark at 40 ms, two more
    marks within the delay, flush due at 1040 ms. *)
Lemma flush_timer_single_witness :
  Background.pendingFlushes
    (Background.markAll
       (Background.scheduleBatchedStorageUpdate
          (Background.runEvents (Background.start Storage.empty 0)
             [Background.EvAdvance 40]) 7%Z)
       [(300, 8%Z); (600, 7%Z)])
  = [1040].
Proof.
  pose proof (flush_timer_single Storage.empty 0 [Background.EvAdvance 40])
    as (_ & Hbatched & _).
  apply (Hbatched eq_refl 7%Z [(300, 8%Z); (600, 7%Z)]).
Defined.

(** ** C5: navigation to another hostname *)

Section Navigation.
Import Background Session.

Lemma timers_setTimeout rt a delay t :
  t ∈ timers (setTimeout rt a delay).2 →
  t ∈ timers rt ∨ action t = a.
Proof.
  unfold setTimeout. cbn [snd timers].
  intros [Ht|Ht%list_elem_of_singleton]%elem_of_app; [by left|right; by subst].

Qed.

Lemma timers_clearTimeout rt id t :
  t ∈ timers (clearTimeout rt id) → t ∈ timers rt.
Proof. unfold clearTimeout. cbn [timers]. by intros [_ ?]%list_elem_of_filter. Qed.

Lemma scheduleStorageUpdate_timers w t :
  t ∈ timers (runtime (scheduleStorageUpdate w)) →
  t ∈ timers (runtime w) ∨ action t = FlushStorage.
Proof.
  unfold scheduleStorageUpdate. cbn [setTimeout withStorageTimer runtime].
  intros [Ht|Ht]%(timers_setTimeout _ FlushStorage STORAGE_BATCH_DELAY);
    [left|by right].
  destruct (storageUpdateTimer w); [by eapply timers_clearTimeout|done].
Qed.

Lemma updateBadgeForTab_timers w tabId t :
  t ∈ timers (runtime (updateBadgeForTab w tabId)) →
  t ∈ timers (runtime w) ∨ action t = UpdateBadge tabId.
Proof.
  unfold updateBadgeForTab. cbn [setTimeout withBadgeTimers runtime].
  intros [Ht|Ht]%(timers_setTimeout _ (UpdateBadge tabId) BADGE_UPDATE_DELAY);
    [left|by right].
  destruct (badgeUpdateTimers w !! tabId); [by eapply timers_clearTimeout|done].
Qed.

(** The flush and badge callbacks write no global counter. *)
Lemma callback_flush_counters w :
  Storage.globalCounters (storage (callback w FlushStorage))
  = Storage.globalCounters (storage w).
Proof. done. Qed.

Lemma callback_badge_counters w tabId :
  Storage.globalCounters (storage (callback w (UpdateBadge tabId)))
  = Storage.globalCounters (storage w).
Proof. done. Qed.

End Navigation.

(** C5.  When the tab of a session navigates to a URL whose hostname is
    not the session's [domain], the session record is replaced by a fresh
    one: [domain] is the new hostname, the events are empty and
    [totalCount], [adCount] and [trackerCount] are zero.  No other session
    changes, the storage area is left as it is, and the timers the handler
    arms (the storage flush and the badge repaint) run callbacks that
    leave the global counters as they are. *)
Theorem navigation_resets_session (hostname : jsstring → option jsstring)
    (w : Background.World) (tabId : Z) (u newDomain : jsstring)
    (tabData : Session.TabData) :
  u ≠ [] →
  hostname u = Some newDomain →
  Background.blockedUrlsByTab w !! tabId = Some tabData →
  Session.domain tabData ≠ newDomain →
  let w' := Background.onUpdated hostname w tabId (Some u) in
  Background.blockedUrlsByTab w' !! tabId
    = Some (Session.mkTabData newDomain [] 0 0 0)
  ∧ (∀ other, other ≠ tabId →
       Background.blockedUrlsByTab w' !! other
       = Background.blockedUrlsByTab w !! other)
  ∧ Background.storage w' = Background.storage w
  ∧ Storage.globalCounters (Background.storage w')
    = Storage.globalCounters (Background.storage w)
  ∧ (∀ t, t ∈ Background.timers (Background.runtime w') →
          t ∉ Background.timers (Background.runtime w) →
          ∀ w0, Storage.globalCounters
                  (Background.storage (Background.callback w0 (Background.action t)))
                = Storage.globalCounters (Background.storage w0)).
Proof.
  intros Hu Hhost Htab Hdom w'.
  assert (w' = Background.updateBadgeForTab
                 (Background.scheduleStorageUpdate
                    (Background.withTabs w
                       (<[tabId := Session.freshTab newDomain]>
                          (Background.blockedUrlsByTab w)))) tabId) as Hw'.
  { unfold w', Background.onUpdated. destruct u as [|c u]; [done|].
    rewrite Hhost, Htab. by rewrite decide_True. }
  assert (Background.blockedUrlsByTab w'
          = <[tabId := Session.freshTab newDomain]> (Background.blockedUrlsByTab w))
    as Htabs.
  { rewrite Hw'. unfold Background.updateBadgeForTab,
      Background.scheduleStorageUpdate. by repeat case_match. }
  assert (Background.storage w' = Background.storage w) as Hst.
  { rewrite Hw'. unfold Background.updateBadgeForTab,
      Background.scheduleStorageUpdate. by repeat case_match. }
  split; [by rewrite Htabs, lookup_insert_eq|].
  split; [intros other Hne; by rewrite Htabs, lookup_insert_ne|].
  split; [done|]. split; [by rewrite Hst|].
  intros t Ht Hnew w0. rewrite Hw' in Ht.
  apply updateBadgeForTab_timers in Ht as [Ht| ->];
    [|apply callback_badge_counters].
  apply scheduleStorageUpdate_timers in Ht as [Ht| ->];
    [done|apply callback_flush_counters].
Qed.

(** C5 at the specification's example: a session with [totalCount = 5]
    on [a.example] navigating to [b.example]. *)
Lemma navigation_resets_session_witness :
  let hostname := λ u : jsstring, Some (drop 8 u) in
  let w := Background.withTabs
             (Background.start
                (Storage.mkStorage (Some true) None (Some 5) (Some 60)
                   (Some 250) (Some 15) (Some 5) None) 0)
             {[ 7%Z := Session.mkTabData (lit "a.example")
                         [Session.mkBlockedUrl (lit "u") (lit "u") 1 Ad] 5 4 1 ]} in
  let w' := Background.onUpdated hostname w 7%Z (Some (lit "https://b.example")) in
  Background.blockedUrlsByTab w' !! 7%Z
    = Some (Session.mkTabData (lit "b.example") [] 0 0 0)
  ∧ Storage.globalCounters (Background.storage w')
    = (Some 5, Some 60, Some 250, Some 15, Some 5).
Proof.
  cbv zeta.
  pose proof (navigation_resets_session (λ u : jsstring, Some (drop 8 u))
    (Background.withTabs
       (Background.start
          (Storage.mkStorage (Some true) None (Some 5) (Some 60)
             (Some 250) (Some 15) (Some 5) None) 0)
       {[ 7%Z := Session.mkTabData (lit "a.example")
                   [Session.mkBlockedUrl (lit "u") (lit "u") 1 Ad] 5 4 1 ]})
    7%Z (lit "https://b.example") (lit "b.example")
    (Session.mkTabData (lit "a.example")
       [Session.mkBlockedUrl (lit "u") (lit "u") 1 Ad] 5 4 1))
    as Hnav.
  destruct Hnav as (Htab & _ & _ & Hcounters & _).
  - vm_compute. discriminate.
  - reflexivity.
  - apply lookup_singleton_eq.
  - vm_compute. discriminate.
  - split; [exact Htab|exact Hcounters].
Defined.

(** ** C8: two overlapping updates of the all-time total *)

(** C8.  The update of [totalBlockedAllTime] is a [get] whose callback,
    run after a suspension, writes the total that was read plus one.  When
    the updates of two matched requests overlap (both reads are answered
    before either callback runs) both callbacks hold the same stale
    result and both write the same total: the stored total grows by 1 for
    2 matches.  When they do not overlap it grows by
    2. *)
Theorem overlapping_updates_lose_one (s : Storage.Storage) :
  let total := default 0 (Storage.totalBlockedAllTime s) in
  (∀ result s', Storage.totalBlockedAllTime (Counters.onTotalsRead result s')
                = Some (default 0 (Storage.totalBlockedAllTime result) + 1))
  ∧ Counters.runSchedule s [Counters.Reading; Counters.Reading] [0; 1]%nat
    = (s, [Counters.Resumed s; Counters.Resumed s])
  ∧ (let '(s', phases) :=
       Counters.runSchedule s [Counters.Reading; Counters.Reading]
         [0; 1; 0; 1]%nat in
     phases = [Counters.Finished; Counters.Finished]
     ∧ Storage.totalBlockedAllTime s' = Some (total + 1))
  ∧ (let '(s', phases) :=
       Counters.runSchedule s [Counters.Reading; Counters.Reading]
         [0; 0; 1; 1]%nat in
     phases = [Counters.Finished; Counters.Finished]
     ∧ Storage.totalBlockedAllTime s' = Some (total + 2)).
Proof.
  intros total. split; [done|]. split; [done|]. split.
  - done.
  - simpl. split; [done|]. f_equal. unfold total. lia.
Qed.

(** ** Further properties of the matching pipeline *)

Section Pipeline.
Import LRU LRUFacts Interceptor.

Context {Low : Lowering}.

Lemma searchLoop_newNode rest : searchLoop (Some newNode) rest = None.
Proof. destruct rest as [|c rest]; [done|]. simpl. by destruct rest. Qed.

Lemma matchesLoop_newTrie u i k : matchesLoop newTrie u i k = None.
Proof.
  revert i. induction k as [|k IH]; intros i; [done|].
  simpl. unfold _searchFrom. by rewrite searchLoop_newNode.
Qed.

Lemma mapDelete_last {K V : Type} `{EqDecision K} (m : list (K * V)) key value :
  key ∉ m.*1 → mapDelete key (m ++ [(key, value)]) = m.
Proof.
  intros Hout. unfold mapDelete. rewrite filter_app.
  rewrite filter_cons_False by (simpl; tauto). rewrite filter_nil, app_nil_r.
  by apply mapDelete_absent.
Qed.

Lemma mapGet_last {K V : Type} `{EqDecision K} (m : list (K * V)) key value :
  key ∉ m.*1 → mapGet key (m ++ [(key, value)]) = Some value.
Proof.
  induction m as [|[k v] m IH]; [simpl; by rewrite decide_True|].
  rewrite fmap_cons, not_elem_of_cons. cbn [fst]. intros [Hne Hm].
  simpl. rewrite decide_False by done. by apply IH.
Qed.

(** A [get] of the key that stands last in the [Map] changes nothing. *)
Lemma get_last {K V : Type} `{EqDecision K} (m : list (K * V)) n key value :
  key ∉ m.*1 →
  get (mkCache (m ++ [(key, value)]) n) key
  = (Some value, mkCache (m ++ [(key, value)]) n).
Proof.
  intros Hout. rewrite (get_present _ key value) by (by apply mapGet_last).
  cbn [cache maxSize]. by rewrite mapDelete_last.
Qed.

End Pipeline.

(** With no rule loaded (the state after a failed fetch), [matches] returns
    [null] for every URL. *)
Theorem empty_store_matches_nothing {Low : Lowering} (url : jsstring) :
  patternCount newTrie = 0%nat ∧ matches newTrie url = None.
Proof. split; [done|]. apply matchesLoop_newTrie. Qed.

(** [set(k, v)] then [get(k)] returns [v]. *)
Theorem get_after_set {K V : Type} `{EqDecision K} (c : LRU.LRUCache K V)
    (key : K) (value : V) :
  (LRU.get (LRU.set c key value) key).1 = Some value.
Proof.
  rewrite (LRUFacts.get_present _ key value); [done|].
  unfold LRU.set. cbn [LRU.cache]. apply LRUFacts.mapGet_mapSet.
Qed.

(** A lookup that follows a lookup of the same URL never consults the
    rules: it returns what the first call returned and leaves the cache as
    the first call left it, even when the rules have changed in between.
    So the [null] cached for a URL requested before the filter list has
    loaded is still the answer once the list is there. *)
Theorem checkUrlBlocked_cached {Low : Lowering}
    (t t' : FilterTrie) (c : Interceptor.UrlCache)
    (u : jsstring) :
  Interceptor.checkUrlBlocked t' (Interceptor.checkUrlBlocked t c u).2 u
  = Interceptor.checkUrlBlocked t c u.
Proof.
  assert (∃ m value,
            Interceptor.checkUrlBlocked t c u
            = (value, LRU.mkCache (m ++ [(u, value)]) (LRU.maxSize c))
            ∧ u ∉ m.*1) as (m & value & Hfirst & Hout).
  { unfold Interceptor.checkUrlBlocked, LRU.has, LRU.mapHas.
    destruct (bool_decide (u ∈ (LRU.cache c).*1)) eqn:Hhas.
    - apply bool_decide_eq_true in Hhas.
      destruct (LRUFacts.mapGet_elem_Some _ _ Hhas) as [v Hv].
      rewrite (LRUFacts.get_present _ _ _ Hv).
      exists (LRU.mapDelete u (LRU.cache c)), v.
      split; [done|]. apply LRUFacts.mapDelete_not_elem.
    - apply bool_decide_eq_false in Hhas.
      unfold LRU.set. cbn [LRU.cache LRU.maxSize].
      set (cache1 := if decide _ then _ else _).
      assert (u ∉ cache1.*1) as Hout.
      { unfold cache1. destruct (decide _); [|done].
        destruct (head (LRU.cache c)); [|done].
        rewrite LRUFacts.mapDelete_keys.
        by intros [_ ?]%list_elem_of_filter. }
      exists cache1, (matches t u).
      split; [|done]. by rewrite LRUFacts.mapSet_absent. }
  rewrite Hfirst. cbn [snd].
  unfold Interceptor.checkUrlBlocked at 1, LRU.has, LRU.mapHas. cbn [LRU.cache].
  rewrite bool_decide_eq_true_2
    by (rewrite fmap_app; apply elem_of_app; right; by left).
  by rewrite get_last.
Qed.

(** ** Cleaning twice: the bars that remain *)

Section CleanAgain.

Context {Low : Lowering}.

Lemma occurrences_cons x c s :
  occurrences x (c :: s)
  = ((if decide (c = x) then 1 else 0) + occurrences x s)%nat.
Proof.
  unfold occurrences. destruct (decide (c = x)).
  - by rewrite filter_cons_True by done.
  - by rewrite filter_cons_False by done.
Qed.

Lemma bars_stripLeadingBar s :
  (occurrences BAR (stripLeadingBar s) ≤ occurrences BAR s)%nat.
Proof.
  destruct s as [|c r]; simpl; [lia|].
  destruct (bool_decide _); rewrite ?occurrences_cons; lia.
Qed.

Lemma bars_stripTrailingBar s :
  (occurrences BAR (stripTrailingBar s) ≤ occurrences BAR s)%nat.
Proof.
  induction s as [|c r IH]; [done|]. destruct r as [|d r'].
  - simpl. destruct (bool_decide _); rewrite ?occurrences_cons; simpl; lia.
  - change (stripTrailingBar (c :: d :: r')) with (c :: stripTrailingBar (d :: r')).
    rewrite !(occurrences_cons BAR c). lia.
Qed.

Lemma bars_stripTrailingBar_last s :
  last s = Some BAR →
  (occurrences BAR (stripTrailingBar s) < occurrences BAR s)%nat.
Proof.
  induction s as [|c r IH]; [done|]. destruct r as [|d r'].
  - cbn [last stripTrailingBar]. intros [= Hc].
    rewrite bool_decide_eq_true_2 by done.
    rewrite occurrences_cons, decide_True by done. simpl. lia.
  - change (stripTrailingBar (c :: d :: r')) with (c :: stripTrailingBar (d :: r')).
    rewrite last_cons_cons. intros Hl. specialize (IH Hl).
    rewrite !(occurrences_cons BAR c). lia.
Qed.

Lemma bars_stripLeading_head s :
  head s = Some BAR →
  (occurrences BAR (stripLeadingBar (stripLeadingBars s))
   < occurrences BAR s)%nat.
Proof.
  destruct s as [|c r]; [done|]. intros [= Hc].
  destruct r as [|d r'].
  - cbn [stripLeadingBars stripLeadingBar].
    rewrite bool_decide_eq_true_2 by done.
    rewrite occurrences_cons, decide_True by done. simpl. lia.
  - cbn [stripLeadingBars]. rewrite (bool_decide_eq_true_2 (c = BAR)) by done.
    destruct (bool_decide (d = BAR)) eqn:Hd; cbn [andb].
    + pose proof (bars_stripLeadingBar r').
      rewrite !occurrences_cons, (decide_True (P := c = BAR)) by done.
      destruct (decide (d = BAR)); lia.
    + cbn [stripLeadingBar]. rewrite (bool_decide_eq_true_2 (c = BAR)) by done.
      rewrite (occurrences_cons BAR c), decide_True by done. lia.
Qed.

(** Cleaning removes the bars that the anchors strip and no others. *)
Lemma bars_cleanPattern p :
  occurrences BAR (_cleanPattern p)
  = occurrences BAR (stripTrailingBar (stripLeadingBar (stripLeadingBars p))).
Proof.
  unfold _cleanPattern. rewrite toLowerCase_syntax by tauto.
  by rewrite !occurrences_removeAll_other by done.
Qed.

End CleanAgain.

(** A cleaned pattern that still begins or ends with a bar is changed by
    cleaning it again: the second cleaning strips a bar, and lowering
    brings none back.  The condition of the amended C6 is also
    necessary. *)
Theorem cleanPattern_again_strips_bar {Low : Lowering} (p : jsstring) :
  head (_cleanPattern p) = Some BAR ∨ last (_cleanPattern p) = Some BAR →
  _cleanPattern (_cleanPattern p) ≠ _cleanPattern p.
Proof.
  set (q := _cleanPattern p). intros Hbar Heq.
  assert (occurrences BAR (_cleanPattern q) < occurrences BAR q)%nat as Hlt;
    [|rewrite Heq in Hlt; lia].
  rewrite bars_cleanPattern.
  destruct Hbar as [Hhead|Hlast].
  - pose proof (bars_stripTrailingBar (stripLeadingBar (stripLeadingBars q))).
    pose proof (bars_stripLeading_head q Hhead). lia.
  - destruct (decide (head q = Some BAR)) as [Hhead|Hhead].
    + pose proof (bars_stripTrailingBar (stripLeadingBar (stripLeadingBars q))).
      pose proof (bars_stripLeading_head q Hhead). lia.
    + rewrite stripLeadingBars_id, stripLeadingBar_id by done.
      by apply bars_stripTrailingBar_last.
Qed.

(** ** The store as a function of its rules *)

Section StoreShape.

Context {Low : Lowering}.

Lemma insertFrom_again ks c1 c2 n :
  insertFrom ks c2 (insertFrom ks c1 n) = insertFrom ks c2 n.
Proof.
  revert n. induction ks as [|k r IH]; intros n; [done|].
  cbn [insertFrom children isPattern category].
  rewrite lookup_insert_eq. cbn [default from_option id].
  by rewrite insert_insert_eq, IH.
Qed.

Lemma insertFrom_commute ks1 ks2 c1 c2 n :
  ks1 ≠ ks2 →
  insertFrom ks1 c1 (insertFrom ks2 c2 n)
  = insertFrom ks2 c2 (insertFrom ks1 c1 n).
Proof.
  revert ks2 n. induction ks1 as [|k1 r1 IH]; intros [|k2 r2] n Hne; try done.
  cbn [insertFrom children isPattern category].
  destruct (decide (k1 = k2)) as [->|Hk].
  - rewrite !lookup_insert_eq. cbn [default from_option id].
    rewrite !insert_insert_eq. rewrite IH by congruence. done.
  - rewrite (lookup_insert_ne _ k2 k1) by done.
    rewrite (lookup_insert_ne _ k1 k2) by done.
    by rewrite insert_insert_ne by done.
Qed.

Lemma codePoints_inj p q : codePoints p = codePoints q → p = q.
Proof.
  intros H. by rewrite <- (concat_codePoints p), H, concat_codePoints.
Qed.

Lemma insert_commute_rules t P c P' c' :
  _cleanPattern P ≠ _cleanPattern P' →
  insert (insert t P c) P' c' = insert (insert t P' c') P c.
Proof.
  intros Hne. unfold insert. cbn [root patternCount]. f_equal.
  apply insertFrom_commute. by intros ?%codePoints_inj.
Qed.

Lemma foldl_insert_permutation (ps ps' : list (jsstring * Category)) :
  ps ≡ₚ ps' →
  NoDup ((λ pc, _cleanPattern pc.1) <$> ps) →
  ∀ t, foldl (λ t pc, insert t pc.1 pc.2) t ps
       = foldl (λ t pc, insert t pc.1 pc.2) t ps'.
Proof.
  induction 1 as [|x l l' Hp IH|x y l|l1 l2 l3 Hp1 IH1 Hp2 IH2]; intros Hnd t.
  - done.
  - simpl. apply IH. rewrite fmap_cons in Hnd. by apply NoDup_cons in Hnd as [_ ?].
  - simpl. rewrite !fmap_cons in Hnd.
    apply NoDup_cons in Hnd as [Hy _]. apply not_elem_of_cons in Hy as [Hy _].
    by rewrite (insert_commute_rules t x.1 x.2 y.1 y.2).
  - rewrite IH1 by done. apply IH2. by rewrite <- Hp1.
Qed.

Lemma units_codePoints w : codePoints w = units w → hasSurrogatePair w = false.
Proof.
  induction w as [|c r IH]; [done|]. destruct r as [|d r']; [done|].
  change (hasSurrogatePair (c :: d :: r'))
    with ((isHighSurrogate c && isLowSurrogate d) || hasSurrogatePair (d :: r')).
  change (codePoints (c :: d :: r'))
    with (if isHighSurrogate c && isLowSurrogate d
          then [c; d] :: codePoints r' else [c] :: codePoints (d :: r')).
  change (units (c :: d :: r')) with ([c] :: units (d :: r')).
  destruct (isHighSurrogate c && isLowSurrogate d); [done|].
  intros [= H]. by rewrite IH.
Qed.

Lemma lastCategory_split ks ps c :
  lastCategory ks ps = Some c →
  ∃ before Q after,
    ps = before ++ (Q, c) :: after ∧ codePoints (_cleanPattern Q) = ks
    ∧ Forall (λ qd, codePoints (_cleanPattern qd.1) ≠ ks) after.
Proof.
  induction ps as [|[p d] ps IH]; [done|]. simpl.
  destruct (lastCategory ks ps) as [e|] eqn:Hl.
  - intros [= ->]. destruct (IH eq_refl) as (before & Q & after & -> & Hk & Hafter).
    by exists ((p, d) :: before), Q, after.
  - destruct (decide _) as [Hk|]; [|done]. intros [= ->].
    exists [], p, ps. split; [done|]. split; [done|].
    apply Forall_forall. intros [q e] Hq.
    by apply (lastCategory_None _ _ _ _ Hl Hq).
Qed.

Lemma loadLines_rules t lines :
  loadLines t lines = foldl (λ t pc, insert t pc.1 pc.2) t (rulesOf lines).
Proof.
  revert t. induction lines as [|line lines IH]; intros t; [done|].
  change (loadLines t (line :: lines)) with (loadLines (loadLine t line) lines).
  rewrite IH. unfold rulesOf. cbn [omap list_omap]. fold (omap ruleOf lines).
  unfold loadLine, ruleOf. destruct (skipped line); [done|].
  cbv zeta. by destruct (bool_decide (filterOf line = [])).
Qed.

Lemma elem_of_rulesOf lines P C :
  (P, C) ∈ rulesOf lines ↔
  ∃ line, line ∈ lines ∧ skipped line = false ∧ filterOf line ≠ []
    ∧ P = filterOf line ∧ C = categorize categorizers P.
Proof.
  unfold rulesOf. rewrite list_elem_of_omap. split.
  - intros (line & Hin & Hrule). exists line. unfold ruleOf in Hrule.
    destruct (skipped line); [done|]. cbv zeta in Hrule.
    destruct (bool_decide (filterOf line = [])) eqn:Hf; [done|].
    apply bool_decide_eq_false in Hf. by injection Hrule as <- <-.
  - intros (line & Hin & Hs & Hf & -> & ->). exists line. split; [done|].
    unfold ruleOf. rewrite Hs. cbv zeta. by rewrite bool_decide_eq_false_2.
Qed.

(** What a result of [matches] tells. *)
Lemma matches_some_occurs (ps : list (jsstring * Category)) url r :
  matches (build ps) url = Some r →
  ∃ before Q c after,
    ps = before ++ (Q, c) :: after
    ∧ Forall (λ qd, _cleanPattern qd.1 ≠ _cleanPattern Q) after
    ∧ hasSurrogatePair (_cleanPattern Q) = false
    ∧ occursIn (_cleanPattern Q) (toLowerCase url)
    ∧ r = mkResult true (Some c).
Proof.
  intros Hm. unfold matches in Hm.
  apply matchesLoop_sound in Hm as (j & Hj & Hs & _).
  apply searchLoop_sound in Hs as (w & post & Hdrop & Hmt & Hat & _).
  rewrite patternAt_build in Hat.
  destruct (lastCategory (units w) ps) as [c|] eqn:Hl; [|done].
  injection Hat as Hc.
  apply lastCategory_split in Hl as (before & Q & after & -> & Hk & Hafter).
  pose proof (codePoints_eq_units _ _ Hk) as HQ.
  exists before, Q, c, after. split; [done|]. split.
  { eapply Forall_impl; [exact Hafter|]. intros [q e] Hq Heq. simpl in *.
    apply Hq. by rewrite Heq. }
  split; [apply units_codePoints; by rewrite Hk, HQ|].
  split.
  - exists (take j (toLowerCase url)), post. rewrite HQ, <- Hdrop, take_drop.
    split; [done|]. intros Hnil. apply (f_equal length) in Hnil.
    rewrite length_drop in Hnil. simpl in Hnil. lia.
  - destruct r as [m rc]. simpl in *. by subst.
Qed.

End StoreShape.

(** The store depends on its rules only through the last category of each
    cleaned pattern.  Inserting a rule whose cleaned form is already stored
    replaces the category and leaves the nodes as they are (only
    [patternCount] counts the rule again); rules with different cleaned
    forms can be inserted in either order; a list of rules with pairwise
    different cleaned forms builds the same store in any order. *)
Theorem store_ignores_rule_order {Low : Lowering} (t : FilterTrie) :
  (∀ P c P' c', _cleanPattern P = _cleanPattern P' →
     root (insert (insert t P c) P' c') = root (insert t P' c')
     ∧ patternCount (insert (insert t P c) P' c') = S (S (patternCount t)))
  ∧ (∀ P c P' c', _cleanPattern P ≠ _cleanPattern P' →
       insert (insert t P c) P' c' = insert (insert t P' c') P c)
  ∧ (∀ ps ps', ps ≡ₚ ps' → NoDup ((λ pc, _cleanPattern pc.1) <$> ps) →
       build ps = build ps').
Proof.
  split; [|split].
  - intros P c P' c' Heq. unfold insert. cbn [root patternCount].
    rewrite Heq. by rewrite insertFrom_again.
  - intros P c P' c'. apply insert_commute_rules.
  - intros ps ps' Hp Hnd. by apply foldl_insert_permutation.
Qed.

(** [matches] has no false positive and no false negative: it returns a
    result exactly when the cleaned form of some inserted pattern (free of
    surrogate pairs) occurs in the lower-cased URL at a place where text
    remains; and the result then carries [matched = true] and the category
    of the last insert of a pattern that occurs so. *)
Theorem matches_iff_pattern_occurs {Low : Lowering}
    (ps : list (jsstring * Category))
    (url : jsstring) :
  (is_Some (matches (build ps) url) ↔
   ∃ Q c, (Q, c) ∈ ps ∧ hasSurrogatePair (_cleanPattern Q) = false
     ∧ occursIn (_cleanPattern Q) (toLowerCase url))
  ∧ (∀ r, matches (build ps) url = Some r →
       ∃ before Q c after,
         ps = before ++ (Q, c) :: after
         ∧ Forall (λ qd, _cleanPattern qd.1 ≠ _cleanPattern Q) after
         ∧ hasSurrogatePair (_cleanPattern Q) = false
         ∧ occursIn (_cleanPattern Q) (toLowerCase url)
         ∧ r = mkResult true (Some c)).
Proof.
  split; [|apply matches_some_occurs]. split.
  - intros [r Hm].
    destruct (matches_some_occurs ps url r Hm)
      as (before & Q & c & after & -> & _ & Hb & Ho & _).
    exists Q, c. split; [|done]. apply elem_of_app. right. by left.
  - intros (Q & c & Hin & Hbmp & pre & post & Hu & Hne).
    destruct (matches (build ps) url) eqn:Hm; [done|].
    by destruct (matches_complete ps Q c url pre post).
Qed.

(** The same for a loaded filter list: a URL matches exactly when a line
    that survives the skip checks (so no comment, no cosmetic rule, no
    allowlist rule) has a non-empty filter text whose cleaned form is free
    of surrogate pairs and occurs in the lower-cased URL at a place where
    text remains. *)
Theorem loaded_list_matches_iff {Low : Lowering}
    (lines : list jsstring) (url : jsstring) :
  is_Some (matches (loadLines newTrie lines) url) ↔
  ∃ line, line ∈ lines ∧ skipped line = false ∧ filterOf line ≠ []
    ∧ hasSurrogatePair (_cleanPattern (filterOf line)) = false
    ∧ occursIn (_cleanPattern (filterOf line)) (toLowerCase url).
Proof.
  rewrite loadLines_rules. fold (build (rulesOf lines)). split.
  - intros [r Hm].
    destruct (matches_some_occurs _ url r Hm)
      as (before & Q & c & after & Hps & _ & Hb & Ho & _).
    assert ((Q, c) ∈ rulesOf lines) as Hin
      by (rewrite Hps; apply elem_of_app; right; by left).
    apply elem_of_rulesOf in Hin as (line & Hl & Hs & Hf & -> & _).
    by exists line.
  - intros (line & Hl & Hs & Hf & Hb & pre & post & Hu & Hne).
    destruct (matches (build (rulesOf lines)) url) eqn:Hm; [done|].
    destruct (matches_complete (rulesOf lines) (filterOf line)
                (categorize categorizers (filterOf line)) url pre post);
      try done.
    apply elem_of_rulesOf. by exists line.
Qed.

(** Only the tracker regex decides a category: a rule is [Tracker] when it
    matches, and [Ad] otherwise, whether or not the ad regex matches. *)
Theorem categorize_ignores_ad_regex (filter : jsstring) :
  categorize categorizers filter
  = if regexTest trackerKeywords filter then Tracker else Ad.
Proof.
  unfold categorizers. cbn [categorize fst snd].
  destruct (regexTest trackerKeywords filter); [done|].
  by destruct (regexTest adKeywords filter).
Qed.

(** ** Shortened URLs *)

Section ShortenerFacts.
Import LRU LRUFacts.

Lemma mapGet_Some_pair {K V : Type} `{EqDecision K} (m : list (K * V)) key value :
  mapGet key m = Some value → (key, value) ∈ m.
Proof.
  induction m as [|[k v] m IH]; [done|]. simpl.
  destruct (decide (k = key)) as [->|Hne].
  - intros [= ->]. by left.
  - intros Hg. right. by apply IH.
Qed.

Lemma Forall_mapSet {K V : Type} `{EqDecision K} (P : K * V → Prop)
    (m : list (K * V)) key value :
  P (key, value) → Forall P m → Forall P (mapSet key value m).
Proof.
  intros Hnew. induction 1 as [|[k v] m Hkv Hm IH]; simpl.
  - by constructor.
  - destruct (decide (k = key)); by constructor.
Qed.

Lemma Forall_mapDelete {K V : Type} `{EqDecision K} (P : K * V → Prop)
    (m : list (K * V)) key :
  Forall P m → Forall P (mapDelete key m).
Proof.
  rewrite !Forall_forall. intros Hm kv [_ Hin]%list_elem_of_filter. by apply Hm.
Qed.

Lemma urlShortener_memoOk cache u :
  memoOk cache →
  (Shortener.urlShortener cache u 100).1 = Session.urlShortener u 100
  ∧ memoOk (Shortener.urlShortener cache u 100).2.
Proof.
  intros [Hall Hlen]. unfold Shortener.urlShortener.
  destruct (mapGet u cache) as [s|] eqn:Hg.
  - split; [|done]. apply mapGet_Some_pair in Hg.
    rewrite Forall_forall in Hall. apply (Hall _ Hg).
  - split; [done|]. cbn [snd]. split.
    + apply Forall_mapSet; [done|]. destruct (decide _); [|done].
      destruct (head cache); [|done]. by apply Forall_mapDelete.
    + destruct (decide _) as [Hfull|Hroom].
      * destruct cache as [|[k v] rest]; [unfold Shortener.MAX_CACHE in *; simpl in *; lia|].
        cbn [head fst].
        pose proof (mapSet_length u (Session.urlShortener u 100)
                      (mapDelete k ((k, v) :: rest))) as Hs.
        pose proof (mapDelete_present_length k ((k, v) :: rest)) as Hd.
        specialize (Hd ltac:(rewrite fmap_cons; by left)). lia.
      * pose proof (mapSet_length u (Session.urlShortener u 100) cache). lia.
Qed.

Lemma shortenAll_snoc cache urls u :
  Shortener.shortenAll cache (urls ++ [u])
  = let acc := Shortener.shortenAll cache urls in
    let '(s, cache') := Shortener.urlShortener acc.2 u 100 in
    (acc.1 ++ [s], cache').
Proof. unfold Shortener.shortenAll. by rewrite foldl_app. Qed.

End ShortenerFacts.

(** The table of [urlShortener] is invisible to the request handler, which
    always asks for length 100: from the empty table, every call returns
    what the computation without a table returns, and the table never holds
    more than 500 entries. *)
Theorem urlShortener_memo_transparent (urls : list jsstring) :
  (Shortener.shortenAll [] urls).1
  = (λ u, Session.urlShortener u 100) <$> urls
  ∧ (length (Shortener.shortenAll [] urls).2 ≤ Shortener.MAX_CACHE)%nat.
Proof.
  assert ((Shortener.shortenAll [] urls).1
          = (λ u, Session.urlShortener u 100) <$> urls
          ∧ memoOk (Shortener.shortenAll [] urls).2) as [Hres [_ Hlen]];
    [|done].
  induction urls as [|u urls IH] using rev_ind.
  - split; [done|]. split; [constructor|]. unfold Shortener.MAX_CACHE. simpl. lia.
  - destruct IH as [IHres IHok]. rewrite shortenAll_snoc. cbv zeta.
    destruct (urlShortener_memoOk _ u IHok) as [Hs Hok].
    destruct (Shortener.urlShortener _ u 100) as [s cache'].
    cbn [fst snd] in *. rewrite IHres, fmap_app. by subst.
Qed.

(** The table is keyed by the URL alone: a second call for the same URL
    returns the first call's text, whatever length it asks for. *)
Theorem urlShortener_memo_ignores_maxLength (cache : Shortener.Memo)
    (url : jsstring) (m1 m2 : nat) :
  Shortener.urlShortener (Shortener.urlShortener cache url m1).2 url m2
  = Shortener.urlShortener cache url m1.
Proof.
  assert (LRU.mapGet url (Shortener.urlShortener cache url m1).2
          = Some (Shortener.urlShortener cache url m1).1) as Hstored.
  { unfold Shortener.urlShortener.
    destruct (LRU.mapGet url cache) as [s|] eqn:Hg; [done|].
    cbn [fst snd]. apply LRUFacts.mapGet_mapSet. }
  destruct (Shortener.urlShortener cache url m1) as [s cache'].
  cbn [fst snd] in *. unfold Shortener.urlShortener. by rewrite Hstored.
Qed.

(** [urlShortener(url, maxLength)] for a URL that its table does not hold:
    the result fits the length asked for (from 3 on), a URL within the
    length is kept, a longer one becomes its first and its last
    [floor((maxLength - 3) / 2)] units around three dots; and the result
    is in the table afterwards, under the URL. *)
Theorem urlShortener_fits (cache : Shortener.Memo) (u : jsstring)
    (maxLength : nat) :
  (3 ≤ maxLength)%nat →
  LRU.mapGet u cache = None →
  let h := ((maxLength - 3) / 2)%nat in
  let s := (Shortener.urlShortener cache u maxLength).1 in
  (length s ≤ maxLength)%nat
  ∧ ((length u ≤ maxLength)%nat → s = u)
  ∧ ((maxLength < length u)%nat →
       length s = (2 * h + 3)%nat
       ∧ take h s = take h u
       ∧ take 3 (drop h s) = lit "..."
       ∧ drop (h + 3) s = drop (length u - h) u)
  ∧ LRU.mapGet u (Shortener.urlShortener cache u maxLength).2 = Some s.
Proof.
  intros Hmax Hmiss h s.
  assert (2 * h ≤ maxLength - 3)%nat as Hh.
  { unfold h. pose proof (Nat.Div0.mul_div_le (maxLength - 3) 2). lia. }
  assert (s = Session.urlShortener u maxLength) as Hs
    by (unfold s, Shortener.urlShortener; by rewrite Hmiss).
  assert (LRU.mapGet u (Shortener.urlShortener cache u maxLength).2 = Some s)
    as Hstored.
  { unfold s, Shortener.urlShortener. rewrite Hmiss. cbn [fst snd].
    apply LRUFacts.mapGet_mapSet. }
  rewrite Hs in *. clear Hs s.
  unfold Session.urlShortener in *. fold h in Hstored |- *.
  destruct (decide (length u ≤ maxLength)%nat) as [Hshort|Hlong].
  - split; [done|]. split; [done|]. split; [lia|done].
  - assert (length (take h u) = h) as Htake by (rewrite length_take; lia).
    assert (length (drop (length u - h) u) = h) as Hdrop
      by (rewrite length_drop; lia).
    split; [|split; [lia|split; [intros _; split; [|split; [|split]]|done]]].
    + rewrite !length_app, Htake, Hdrop. simpl. lia.
    + rewrite !length_app, Htake, Hdrop. simpl. lia.
    + rewrite take_app_le by lia. rewrite take_ge by lia. done.
    + rewrite drop_app_length' by done. done.
    + rewrite (app_assoc (take h u)).
      rewrite drop_app_length'; [done|].
      rewrite length_app, Htake. simpl. lia.
Qed.

(** A URL of 120 units at the handler's length 100, the table holding
    another URL: it becomes 99 units. *)
Lemma urlShortener_fits_witness :
  let cache := [(lit "https://other.example.com/", lit "https://other.example.com/")] in
  let u := lit "https://ads.example.com/banner/" ++ replicate 89 (97 : N) in
  let s := (Shortener.urlShortener cache u 100).1 in
  (length s ≤ 100)%nat
  ∧ ((length u ≤ 100)%nat → s = u)
  ∧ ((100 < length u)%nat →
       length s = (2 * 48 + 3)%nat
       ∧ take 48 s = take 48 u
       ∧ take 3 (drop 48 s) = lit "..."
       ∧ drop (48 + 3) s = drop (length u - 48) u)
  ∧ LRU.mapGet u (Shortener.urlShortener cache u 100).2 = Some s.
Proof.
  apply (urlShortener_fits
           [(lit "https://other.example.com/", lit "https://other.example.com/")]
           (lit "https://ads.example.com/banner/" ++ replicate 89 (97 : N)) 100).
  - lia.
  - by vm_compute.
Defined.

(** The list of a session only grows at the front and only while it is
    below the cap: after any matched requests on any record, the events it
    held are still there in their places, the new entries in front of them
    are the first requests that found room, and each counter has moved by
    the number of requests of its kind. *)
Theorem session_keeps_old_events (K : nat) (d : Session.TabData)
    (requests : list Session.Blocked) :
  let d' := Session.sessionAfter K d requests in
  Session.urls d'
  = reverse (Session.entryOf
               <$> take (K - length (Session.urls d)) requests)
    ++ Session.urls d
  ∧ Session.totalCount d'
    = Session.totalCount d + N.of_nat (length requests)
  ∧ Session.trackerCount d'
    = Session.trackerCount d
      + N.of_nat (length (filter (λ b, Session.requestCategory b = Tracker)
                                 requests))
  ∧ Session.adCount d'
    = Session.adCount d
      + N.of_nat (length (filter (λ b, Session.requestCategory b ≠ Tracker)
                                 requests))
  ∧ Session.domain d' = Session.domain d.
Proof.
  cbv zeta. induction requests as [|b requests IH] using rev_ind.
  - simpl. rewrite take_nil. simpl. repeat split; lia.
  - rewrite sessionAfter_snoc. destruct IH as (IHu & IHt & IHtr & IHa & IHd).
    set (d' := Session.sessionAfter K d requests) in *.
    unfold Session.recordMatch.
    cbn [Session.urls Session.totalCount Session.adCount Session.trackerCount
         Session.domain].
    rewrite !filter_app, !length_app.
    split; [|split; [|split; [|split]]].
    + rewrite IHu, length_app, length_reverse, length_fmap, length_take.
      destruct (decide (length requests < K - length (Session.urls d))%nat)
        as [Hlt|Hge].
      * rewrite decide_True by lia.
        rewrite (take_ge (requests ++ [b])) by (rewrite length_app; simpl; lia).
        rewrite (take_ge requests) by lia.
        by rewrite fmap_app, reverse_app.
      * rewrite decide_False by lia. by rewrite take_app_le by lia.
    + simpl. lia.
    + destruct (decide (Session.requestCategory b = Tracker)) as [Hc|Hc].
      * rewrite (filter_cons_True _ b []) by done. simpl. lia.
      * rewrite (filter_cons_False _ b []) by done. simpl. lia.
    + destruct (decide (Session.requestCategory b = Tracker)) as [Hc|Hc].
      * rewrite (filter_cons_False _ b []) by (intros ?; done). simpl. lia.
      * rewrite (filter_cons_True _ b []) by done. simpl. lia.
    + done.
Qed.

(** ** The all-time total under any interleaving *)

Section TotalsFacts.
Import Counters Tally.

Lemma insert_middle {A : Type} (l1 l2 : list A) (x y : A) :
  <[length l1 := y]> (l1 ++ x :: l2) = l1 ++ y :: l2.
Proof. rewrite insert_app_r_alt by lia. by rewrite Nat.sub_diag. Qed.

Lemma finishedCount_insert phases i p p' :
  phases !! i = Some p →
  (finishedCount (<[i := p']> phases) + (if isFinished p then 1 else 0)
   = finishedCount phases + (if isFinished p' then 1 else 0))%nat.
Proof.
  intros Hi. apply list_elem_of_split_length in Hi as (l1 & l2 & -> & ->).
  rewrite insert_middle. unfold finishedCount. rewrite !filter_app, !length_app.
  destruct (isFinished p) eqn:Hp; destruct (isFinished p') eqn:Hp'.
  - rewrite !filter_cons_True by done. simpl. lia.
  - rewrite filter_cons_False by congruence.
    rewrite filter_cons_True by done. simpl. lia.
  - rewrite filter_cons_True by done.
    rewrite (filter_cons_False _ p) by congruence. simpl. lia.
  - rewrite !filter_cons_False by congruence. lia.
Qed.

Lemma bounded_stepRequest total0 st i :
  bounded total0 st → bounded total0 (stepRequest st i).
Proof.
  destruct st as [s phases]. intros (Hlo & Hhi & Hres).
  unfold stepRequest. cbn [fst snd] in *.
  destruct (phases !! i) as [p|] eqn:Hi; [|done].
  pose proof (finishedCount_insert phases i p) as Hcount.
  destruct p as [|result|]; cbn [stepUpdate].
  - specialize (Hcount (Resumed s) Hi). simpl in Hcount.
    unfold bounded. cbn [fst snd].
    replace (finishedCount (<[i:=Resumed s]> phases))
      with (finishedCount phases) by lia.
    split; [done|]. split; [done|].
    intros r Hr. apply list_elem_of_lookup in Hr as [j Hj].
    destruct (decide (j = i)) as [->|Hne].
    + rewrite list_lookup_insert_eq in Hj by (by eapply lookup_lt_Some).
      injection Hj as <-. split; [|done].
      destruct (decide _); lia.
    + rewrite list_lookup_insert_ne in Hj by done.
      apply Hres. by eapply list_elem_of_lookup_2.
  - specialize (Hcount Finished Hi). simpl in Hcount.
    destruct (Hres result) as [Hr1 Hr2]; [by eapply list_elem_of_lookup_2|].
    unfold bounded. cbn [fst snd].
    replace (finishedCount (<[i:=Finished]> phases))
      with (S (finishedCount phases)) by lia.
    unfold totalOf in *. cbn [onTotalsRead Storage.setTotals
                              Storage.totalBlockedAllTime default from_option id].
    rewrite decide_False by done.
    split; [lia|]. split; [lia|].
    intros r Hr. apply list_elem_of_lookup in Hr as [j Hj].
    destruct (decide (j = i)) as [->|Hne].
    + by rewrite list_lookup_insert_eq in Hj by (by eapply lookup_lt_Some).
    + rewrite list_lookup_insert_ne in Hj by done.
      destruct (Hres r) as [? ?]; [by eapply list_elem_of_lookup_2|]. lia.
  - rewrite list_insert_id by done. done.
Qed.

Lemma bounded_start s n : bounded (totalOf s) (s, replicate n Reading).
Proof.
  assert (finishedCount (replicate n Reading) = 0%nat) as Hk.
  { unfold finishedCount. induction n as [|n IH]; [done|].
    simpl. by rewrite filter_cons_False by done. }
  unfold bounded. cbn [fst snd]. rewrite Hk. simpl.
  split; [lia|]. split; [lia|].
  by intros r [? _]%elem_of_replicate.
Qed.

Lemma onTotalsRead_again result s :
  onTotalsRead result (onTotalsRead result s) = onTotalsRead result s.
Proof. done. Qed.

(** All reads are answered first... *)
Lemma reads_first s pre m :
  foldl stepRequest (s, pre ++ replicate m Reading) (seq (length pre) m)
  = (s, pre ++ replicate m (Resumed s)).
Proof.
  revert pre. induction m as [|m IH]; intros pre; [done|].
  cbn [seq foldl replicate]. unfold stepRequest at 2. cbn [fst snd].
  rewrite list_lookup_middle by done. cbn [stepUpdate].
  rewrite insert_middle.
  rewrite (cons_middle (Resumed s)), app_assoc.
  replace (S (length pre)) with (length (pre ++ [Resumed s]))
    by (rewrite length_app; simpl; lia).
  rewrite IH. by rewrite <- app_assoc.
Qed.

(** ... and then every callback writes the same totals. *)
Lemma writes_after result s pre m :
  foldl stepRequest (onTotalsRead result s, pre ++ replicate m (Resumed result))
        (seq (length pre) m)
  = (onTotalsRead result s, pre ++ replicate m Finished).
Proof.
  revert pre. induction m as [|m IH]; intros pre; [done|].
  cbn [seq foldl replicate]. unfold stepRequest at 2. cbn [fst snd].
  rewrite list_lookup_middle by done. cbn [stepUpdate].
  rewrite insert_middle.
  rewrite (cons_middle Finished), app_assoc.
  replace (S (length pre)) with (length (pre ++ [Finished]))
    by (rewrite length_app; simpl; lia).
  rewrite onTotalsRead_again.
  rewrite IH. by rewrite <- app_assoc.
Qed.

End TotalsFacts.

(** Whatever the interleaving of the reads and the callbacks of [n]
    matched requests, the stored all-time total never counts a request
    twice and never misses all of them: once [k ≥ 1] callbacks have run it
    lies between the first total plus 1 and the first total plus [k]; while
    none has run it is what it was. *)
Theorem total_between_one_and_finished (s : Storage.Storage) (n : nat)
    (schedule : list nat) :
  let '(s', phases) :=
    Counters.runSchedule s (replicate n Counters.Reading) schedule in
  let k := Tally.finishedCount phases in
  length phases = n
  ∧ (k ≤ n)%nat
  ∧ (k = 0%nat →
       Storage.totalBlockedAllTime s' = Storage.totalBlockedAllTime s)
  ∧ ((1 ≤ k)%nat →
       ∃ total, Storage.totalBlockedAllTime s' = Some total
         ∧ Tally.totalOf s + 1 ≤ total ≤ Tally.totalOf s + N.of_nat k).
Proof.
  unfold Counters.runSchedule.
  assert (∀ st,
            (let k := Tally.finishedCount st.2 in
             length st.2 = n
             ∧ (k = 0%nat → Storage.totalBlockedAllTime st.1
                            = Storage.totalBlockedAllTime s)
             ∧ (k ≠ 0%nat → is_Some (Storage.totalBlockedAllTime st.1))
             ∧ ∀ r, Counters.Resumed r ∈ st.2 →
                 Storage.totalBlockedAllTime r = Storage.totalBlockedAllTime s
                 ∨ is_Some (Storage.totalBlockedAllTime r)) →
            bounded (Tally.totalOf s) st →
            let st' := foldl Counters.stepRequest st schedule in
            let k := Tally.finishedCount st'.2 in
            length st'.2 = n
            ∧ (k = 0%nat → Storage.totalBlockedAllTime st'.1
                           = Storage.totalBlockedAllTime s)
            ∧ (k ≠ 0%nat → is_Some (Storage.totalBlockedAllTime st'.1))
            ∧ bounded (Tally.totalOf s) st') as Hrun.
  { induction schedule as [|i schedule IH]; intros st Hst Hb.
    - cbn [foldl]. cbv zeta in *. by destruct Hst as (? & ? & ? & ?).
    - cbn [foldl]. apply IH; [|by apply bounded_stepRequest].
      cbv zeta in *. destruct Hst as (Hlen & Hzero & Hsome & Hres).
      destruct st as [s1 phases]. unfold Counters.stepRequest. cbn [fst snd] in *.
      destruct (phases !! i) as [p|] eqn:Hi; [|done].
      pose proof (finishedCount_insert phases i p) as Hcount.
      destruct p as [|result|]; cbn [Counters.stepUpdate fst snd].
      + specialize (Hcount (Counters.Resumed s1) Hi). simpl in Hcount.
        replace (Tally.finishedCount (<[i:=Counters.Resumed s1]> phases))
          with (Tally.finishedCount phases) by lia.
        rewrite length_insert. split; [done|]. split; [done|]. split; [done|].
        intros r Hr. apply list_elem_of_lookup in Hr as [j Hj].
        destruct (decide (j = i)) as [->|Hne].
        * rewrite list_lookup_insert_eq in Hj by (by eapply lookup_lt_Some).
          injection Hj as <-.
          destruct (decide (Tally.finishedCount phases = 0%nat));
            [left; auto|right; auto].
        * rewrite list_lookup_insert_ne in Hj by done.
          apply Hres. by eapply list_elem_of_lookup_2.
      + specialize (Hcount Counters.Finished Hi). simpl in Hcount.
        rewrite length_insert. split; [done|].
        split; [intros; lia|]. split; [by eexists|].
        intros r Hr. apply list_elem_of_lookup in Hr as [j Hj].
        destruct (decide (j = i)) as [->|Hne].
        * by rewrite list_lookup_insert_eq in Hj by (by eapply lookup_lt_Some).
        * rewrite list_lookup_insert_ne in Hj by done.
          apply Hres. by eapply list_elem_of_lookup_2.
      + rewrite list_insert_id by done. done. }
  specialize (Hrun (s, replicate n Counters.Reading)).
  destruct Hrun as (Hlen & Hzero & Hsome & Hb).
  { cbv zeta. cbn [fst snd]. rewrite length_replicate. split; [done|].
    split; [done|]. split.
    - intros Hk. exfalso. apply Hk. clear. unfold Tally.finishedCount.
      induction n as [|n IH]; [done|]. simpl. by rewrite filter_cons_False by done.
    - by intros r [? _]%elem_of_replicate. }
  { apply bounded_start. }
  destruct (foldl Counters.stepRequest _ schedule) as [s' phases].
  cbn [fst snd] in *. split; [done|]. split.
  { rewrite <- Hlen. unfold Tally.finishedCount. apply length_filter. }
  split; [done|]. intros Hk.
  destruct Hsome as [total Htotal]; [lia|]. exists total. split; [done|].
  destruct Hb as (Hlo & Hhi & _). cbn [fst snd] in *.
  unfold Tally.totalOf in Hlo, Hhi at 1. rewrite Htotal in Hlo, Hhi. simpl in *.
  rewrite decide_False in Hlo by lia. fold (Tally.totalOf s) in *. lia.
Qed.

(** The lower bound is met for every number of requests: when all the
    reads of [n + 1] matched requests are answered before the first
    callback runs, the total, the time saved and the data saved each move
    as for a single request. *)
Theorem overlapping_updates_count_once (s : Storage.Storage) (n : nat) :
  Counters.runSchedule s (replicate (S n) Counters.Reading)
    (seq 0 (S n) ++ seq 0 (S n))
  = (Counters.onTotalsRead s s, replicate (S n) Counters.Finished)
  ∧ Storage.totalBlockedAllTime (Counters.onTotalsRead s s)
    = Some (Tally.totalOf s + 1).
Proof.
  split; [|done]. unfold Counters.runSchedule. rewrite foldl_app.
  rewrite (reads_first s [] (S n)
           : foldl Counters.stepRequest
               (s, replicate (S n) Counters.Reading) (seq 0 (S n))
             = (s, replicate (S n) (Counters.Resumed s))).
  exact (writes_after s s [Counters.Finished] n).
Qed.

(** The stored total can go down: a callback that was suspended across two
    complete updates writes its stale total over theirs. *)
Theorem stored_total_can_decrease (s : Storage.Storage) :
  let phases := replicate 3 Counters.Reading in
  let before := Counters.runSchedule s phases [0; 1; 1; 2; 2]%nat in
  let after := Counters.runSchedule s phases [0; 1; 1; 2; 2; 0]%nat in
  Storage.totalBlockedAllTime before.1 = Some (Tally.totalOf s + 2)
  ∧ Storage.totalBlockedAllTime after.1 = Some (Tally.totalOf s + 1)
  ∧ after.2 = replicate 3 Counters.Finished.
Proof.
  cbv zeta. simpl. unfold Tally.totalOf. split; [|done]. f_equal. lia.
Qed.

(** ** Loading the list again, and the cache while the rules stay *)

Section Reload.

Context {Low : Lowering}.

Lemma root_foldl_congr (ps : list (jsstring * Category)) t t' :
  root t = root t' →
  root (foldl (λ t pc, insert t pc.1 pc.2) t ps)
  = root (foldl (λ t pc, insert t pc.1 pc.2) t' ps).
Proof.
  revert t t'. induction ps as [|pc ps IH]; intros t t' Hr; [done|].
  simpl. apply IH. unfold insert. cbn [root]. by rewrite Hr.
Qed.

Lemma patternCount_foldl (ps : list (jsstring * Category)) t :
  patternCount (foldl (λ t pc, insert t pc.1 pc.2) t ps)
  = (patternCount t + length ps)%nat.
Proof.
  revert t. induction ps as [|pc ps IH]; intros t; simpl; [lia|].
  rewrite IH. unfold insert. cbn [patternCount]. lia.
Qed.

(** An insert is absorbed by a later insert of the same cleaned form. *)
Lemma insert_absorbed (ps : list (jsstring * Category)) t P c :
  (∃ pc, pc ∈ ps ∧ _cleanPattern pc.1 = _cleanPattern P) →
  root (foldl (λ t pc, insert t pc.1 pc.2) (insert t P c) ps)
  = root (foldl (λ t pc, insert t pc.1 pc.2) t ps).
Proof.
  revert t. induction ps as [|y ps IH]; intros t (pc & Hin & Hpc).
  - by apply elem_of_nil in Hin.
  - simpl. destruct (decide (_cleanPattern P = _cleanPattern y.1)) as [Heq|Hne].
    + apply root_foldl_congr. unfold insert. cbn [root].
      by rewrite Heq, insertFrom_again.
    + rewrite <- (insert_commute_rules t y.1 y.2 P c) by congruence.
      apply IH. apply elem_of_cons in Hin as [->|Hin]; [congruence|].
      by exists pc.
Qed.

Lemma reload_root (ps1 ps : list (jsstring * Category)) t :
  (∀ pc, pc ∈ ps1 → ∃ pc', pc' ∈ ps ∧ _cleanPattern pc'.1 = _cleanPattern pc.1) →
  root (foldl (λ t pc, insert t pc.1 pc.2)
          (foldl (λ t pc, insert t pc.1 pc.2) t ps1) ps)
  = root (foldl (λ t pc, insert t pc.1 pc.2) t ps).
Proof.
  induction ps1 as [|x ps1 IH] using rev_ind; intros Hsub; [done|].
  rewrite foldl_app. cbn [foldl]. rewrite insert_absorbed.
  - apply IH. intros pc Hpc. apply Hsub, elem_of_app. by left.
  - apply Hsub, elem_of_app. right. by left.
Qed.

Lemma matches_root t t' url : root t = root t' → matches t url = matches t' url.
Proof.
  intros Hr. unfold matches. generalize 0%nat.
  induction (length (toLowerCase url)) as [|k IH]; intros i; [done|].
  simpl. unfold _searchFrom. rewrite Hr.
  destruct (searchLoop _ _); [done|]. apply IH.
Qed.

End Reload.

(** [loadFilterList] runs at the first load and again on start-up and on
    installation, on the same trie.  Loading a list a second time leaves
    every node as it is, so [matches] answers as before; only
    [patternCount] counts each rule once more. *)
Theorem reload_keeps_matcher {Low : Lowering}
    (t : FilterTrie) (content : jsstring) :
  let once := loadFilterList t content in
  let twice := loadFilterList once content in
  root twice = root once
  ∧ (∀ url, matches twice url = matches once url)
  ∧ patternCount twice
    = (patternCount t + 2 * length (rulesOf (splitLines content)))%nat.
Proof.
  cbv zeta. unfold loadFilterList. rewrite !loadLines_rules.
  assert (root (foldl (λ t pc, insert t pc.1 pc.2)
                  (foldl (λ t pc, insert t pc.1 pc.2) t
                     (rulesOf (splitLines content)))
                  (rulesOf (splitLines content)))
          = root (foldl (λ t pc, insert t pc.1 pc.2) t
                    (rulesOf (splitLines content)))) as Hroot.
  { apply reload_root. intros pc Hpc. by exists pc. }
  split; [done|]. split.
  - intros url. by apply matches_root.
  - rewrite !patternCount_foldl. lia.
Qed.

Section CacheCoherence.
Import LRU LRUFacts Interceptor Lookups.

Context {Low : Lowering}.

Lemma checkUrlBlocked_coherent t c u :
  coherent t c →
  (checkUrlBlocked t c u).1 = matches t u
  ∧ coherent t (checkUrlBlocked t c u).2.
Proof.
  intros Hc. unfold checkUrlBlocked, has, mapHas.
  destruct (bool_decide (u ∈ (cache c).*1)) eqn:Hhas.
  - apply bool_decide_eq_true in Hhas.
    destruct (mapGet_elem_Some _ _ Hhas) as [v Hv].
    rewrite (get_present _ _ _ Hv). cbn [fst snd default from_option id].
    pose proof (mapGet_Some_pair _ _ _ Hv) as Hin.
    unfold coherent in Hc. rewrite Forall_forall in Hc.
    pose proof (Hc _ Hin) as Hval. cbn [fst snd] in Hval.
    split; [done|]. unfold coherent. cbn [cache].
    apply Forall_app. split.
    + apply Forall_mapDelete. by apply Forall_forall.
    + by repeat constructor.
  - cbn [fst snd]. split; [done|]. unfold coherent, set. cbn [cache].
    apply Forall_mapSet; [done|].
    destruct (decide _); [|done]. destruct (head (cache c)); [|done].
    by apply Forall_mapDelete.
Qed.

Lemma lookups_snoc t c urls u :
  lookups t c (urls ++ [u])
  = let acc := lookups t c urls in
    let '(result, c') := checkUrlBlocked t acc.2 u in
    (acc.1 ++ [result], c').
Proof. unfold lookups. by rewrite foldl_app. Qed.

End CacheCoherence.

(** While the rules stay the same the cache cannot be observed: from an
    empty cache of any capacity, every [checkUrlBlocked(url)] of a sequence
    of requests returns what [matches] returns for that URL, hits,
    evictions and cached [null]s included. *)
Theorem urlCache_transparent {Low : Lowering} (t : FilterTrie) (maxSize : nat)
    (urls : list jsstring) :
  (Lookups.lookups t (LRU.new maxSize) urls).1 = matches t <$> urls.
Proof.
  assert ((Lookups.lookups t (LRU.new maxSize) urls).1 = matches t <$> urls
          ∧ coherent t (Lookups.lookups t (LRU.new maxSize) urls).2)
    as [Hres _]; [|done].
  induction urls as [|u urls IH] using rev_ind.
  - split; [done|]. constructor.
  - destruct IH as [IHres IHc]. rewrite lookups_snoc. cbv zeta.
    destruct (checkUrlBlocked_coherent t _ u IHc) as [Hr Hc].
    destruct (Interceptor.checkUrlBlocked t _ u) as [r c'].
    cbn [fst snd] in *. rewrite IHres, fmap_app. by subst.
Qed.

(** ** Sessions over the histories of the worker *)

Module HandlerFacts.
Import Session Background Handlers.

Section WithLowering.

Context {Low : Lowering}.

(** What the schedulers leave alone. *)
Lemma scheduleStorageUpdate_frame w :
  blockedUrlsByTab (scheduleStorageUpdate w) = blockedUrlsByTab w
  ∧ storage (scheduleStorageUpdate w) = storage w
  ∧ is_Some (storageUpdateTimer (scheduleStorageUpdate w))
  ∧ badgeUpdateTimers (scheduleStorageUpdate w) = badgeUpdateTimers w
  ∧ xpCoinsUpdateTimer (scheduleStorageUpdate w) = xpCoinsUpdateTimer w.
Proof. unfold scheduleStorageUpdate. simpl. by repeat split. Qed.

Lemma updateBadgeForTab_frame w tabId :
  blockedUrlsByTab (updateBadgeForTab w tabId) = blockedUrlsByTab w
  ∧ storage (updateBadgeForTab w tabId) = storage w
  ∧ storageUpdateTimer (updateBadgeForTab w tabId) = storageUpdateTimer w
  ∧ xpCoinsUpdateTimer (updateBadgeForTab w tabId) = xpCoinsUpdateTimer w.
Proof. unfold updateBadgeForTab. simpl. by repeat split. Qed.

Lemma awardXPAndCoins_frame w :
  blockedUrlsByTab (awardXPAndCoins w) = blockedUrlsByTab w
  ∧ storage (awardXPAndCoins w) = storage w
  ∧ storageUpdateTimer (awardXPAndCoins w) = storageUpdateTimer w
  ∧ badgeUpdateTimers (awardXPAndCoins w) = badgeUpdateTimers w.
Proof. unfold awardXPAndCoins. by destruct (xpCoinsUpdateTimer w). Qed.

Lemma awardXPAndCoins_timers w t :
  t ∈ timers (runtime (awardXPAndCoins w)) →
  t ∈ timers (runtime w) ∨ action t = AwardXPCoins.
Proof.
  unfold awardXPAndCoins. destruct (xpCoinsUpdateTimer w); [by left|].
  cbn [setTimeout withXP runtime].
  apply (timers_setTimeout _ AwardXPCoins 1000).
Qed.

Lemma updateBadgeForTabs_frame w tabs :
  blockedUrlsByTab (updateBadgeForTabs w tabs) = blockedUrlsByTab w
  ∧ storage (updateBadgeForTabs w tabs) = storage w
  ∧ storageUpdateTimer (updateBadgeForTabs w tabs) = storageUpdateTimer w
  ∧ xpCoinsUpdateTimer (updateBadgeForTabs w tabs) = xpCoinsUpdateTimer w.
Proof.
  revert w. induction tabs as [|tab tabs IH]; intros w; [done|].
  change (updateBadgeForTabs w (tab :: tabs))
    with (updateBadgeForTabs (updateBadgeForTab w tab) tabs).
  destruct (IH (updateBadgeForTab w tab)) as (-> & -> & -> & ->).
  apply updateBadgeForTab_frame.
Qed.

Lemma updateBadgeForTabs_timers w tabs t :
  t ∈ timers (runtime (updateBadgeForTabs w tabs)) →
  t ∈ timers (runtime w) ∨ ∃ tabId, action t = UpdateBadge tabId.
Proof.
  revert w. induction tabs as [|tab tabs IH]; intros w; [by left|].
  change (updateBadgeForTabs w (tab :: tabs))
    with (updateBadgeForTabs (updateBadgeForTab w tab) tabs).
  intros [Ht|Ht]%IH; [|by right].
  apply updateBadgeForTab_timers in Ht as [Ht|Ht]; [by left|right; by eexists].
Qed.

Lemma onBlockedRequest_frame w tabId u time cat :
  blockedUrlsByTab (onBlockedRequest w tabId u time cat)
  = recordBlocked MAX_STORED_PER_TAB (blockedUrlsByTab w) tabId u time
      (categoryOrAd cat)
  ∧ storage (onBlockedRequest w tabId u time cat) = storage w
  ∧ is_Some (storageUpdateTimer (onBlockedRequest w tabId u time cat)).
Proof.
  unfold onBlockedRequest.
  set (w1 := withTabs w _).
  destruct (updateBadgeForTab_frame
              (awardXPAndCoins (scheduleStorageUpdate w1)) tabId)
    as (-> & -> & -> & _).
  destruct (awardXPAndCoins_frame (scheduleStorageUpdate w1))
    as (-> & -> & -> & _).
  destruct (scheduleStorageUpdate_frame w1) as (-> & -> & Hsome & _).
  done.
Qed.

Lemma onBlockedRequest_timers w tabId u time cat t :
  t ∈ timers (runtime (onBlockedRequest w tabId u time cat)) →
  t ∈ timers (runtime w) ∨ action t ≠ FlushBatched.
Proof.
  unfold onBlockedRequest.
  intros [Ht|Ht]%updateBadgeForTab_timers; [|right; by rewrite Ht].
  apply awardXPAndCoins_timers in Ht as [Ht|Ht]; [|right; by rewrite Ht].
  apply scheduleStorageUpdate_timers in Ht as [Ht|Ht]; [by left|].
  right. by rewrite Ht.
Qed.

Lemma onRemoved_frame w tabId :
  blockedUrlsByTab (onRemoved w tabId) = delete tabId (blockedUrlsByTab w)
  ∧ storage (onRemoved w tabId) = storage w
  ∧ is_Some (storageUpdateTimer (onRemoved w tabId)).
Proof.
  unfold onRemoved. set (w0 := withTabs w _).
  destruct (scheduleStorageUpdate_frame w0) as (Ht & Hs & Hsome & _).
  destruct (badgeUpdateTimers (scheduleStorageUpdate w0) !! tabId);
    cbn [withBadgeTimers blockedUrlsByTab storage storageUpdateTimer];
    by rewrite ?Ht, ?Hs.
Qed.

Lemma onRemoved_timers w tabId t :
  t ∈ timers (runtime (onRemoved w tabId)) →
  t ∈ timers (runtime w) ∨ action t = FlushStorage.
Proof.
  unfold onRemoved. set (w0 := withTabs w _).
  destruct (badgeUpdateTimers (scheduleStorageUpdate w0) !! tabId).
  - cbn [withBadgeTimers runtime]. intros Ht%timers_clearTimeout.
    exact (scheduleStorageUpdate_timers w0 t Ht).
  - exact (scheduleStorageUpdate_timers w0 t).
Qed.

(** The callbacks: the sessions in memory stay; the stored sessions stay,
    or become those of memory, or (batched flush) the dirty ones. *)
Lemma callback_sessions w a :
  blockedUrlsByTab (callback w a) = blockedUrlsByTab w
  ∧ timers (runtime (callback w a)) = timers (runtime w)
  ∧ match a with
    | FlushStorage =>
        storedSessions (storage (callback w a)) = blockedUrlsByTab w
        ∧ storageUpdateTimer (callback w a) = None
    | FlushBatched =>
        storageUpdateTimer (callback w a) = None
        ∧ (storedSessions (storage (callback w a)) = storedSessions (storage w)
           ∨ storedSessions (storage (callback w a))
             = filter (λ kv, kv.1 ∈ pendingStorageUpdates w)
                      (blockedUrlsByTab w))
    | _ =>
        storedSessions (storage (callback w a)) = storedSessions (storage w)
        ∧ storageUpdateTimer (callback w a) = storageUpdateTimer w
    end.
Proof.
  destruct a as [| |tabId|]; cbn [callback].
  - done.
  - unfold flushStorageUpdates. destruct (decide _); simpl; auto.
  - done.
  - by destruct (pendingXPCoins w).
Qed.

Lemma fireTimer_cases w id :
  fireTimer w id = w
  ∨ ∃ t, t ∈ timers (runtime w) ∧ timerId t = id
      ∧ fireTimer w id
        = callback (withRuntime w (clearTimeout (runtime w) id)) (action t).
Proof.
  unfold fireTimer. destruct (list_find _ _) as [[k t]|] eqn:Hfind; [|by left].
  apply list_find_Some in Hfind as (Hk & Hid & _).
  destruct (decide _); [|by left]. right. exists t.
  split; [by eapply list_elem_of_lookup_2|done].
Qed.

(** *** Well-formed sessions *)

Lemma wellFormed_freshTab d : wellFormed (freshTab d).
Proof.
  unfold wellFormed, freshTab, MAX_STORED_PER_TAB, trackersIn, adsIn.
  cbn [urls adCount trackerCount totalCount]. rewrite !filter_nil. simpl. lia.
Qed.


Lemma wellFormed_recordMatch d u time cat :
  wellFormed d → wellFormed (recordMatch MAX_STORED_PER_TAB d u time cat).
Proof.
  unfold wellFormed, recordMatch, trackersIn, adsIn.
  intros (Hlen & Hsum & Htr & Had).
  cbn [urls totalCount adCount trackerCount].
  destruct (decide (length (urls d) < MAX_STORED_PER_TAB)%nat);
    destruct (decide (cat = Tracker)) as [->|Hcat].
  - rewrite filter_cons_True by done.
    rewrite (filter_cons_False (λ e, blockedCategory e ≠ Tracker))
      by (simpl; tauto).
    simpl. lia.
  - rewrite filter_cons_False by done.
    rewrite (filter_cons_True (λ e, blockedCategory e ≠ Tracker)) by done.
    simpl. lia.
  - lia.
  - lia.
Qed.

Lemma wellFormed_recordBlocked tabs tabId u time cat :
  map_Forall (λ _ d, wellFormed d) tabs →
  map_Forall (λ _ d, wellFormed d)
    (recordBlocked MAX_STORED_PER_TAB tabs tabId u time cat).
Proof.
  intros Hall tab d. destruct (decide (tab = tabId)) as [->|Hne].
  - rewrite recordBlocked_lookup. intros [= <-].
    apply wellFormed_recordMatch.
    destruct (tabs !! tabId) as [d0|] eqn:Hd; simpl.
    + by apply (Hall tabId).
    + apply wellFormed_freshTab.
  - rewrite recordBlocked_other by done. apply Hall.
Qed.

End WithLowering.

End HandlerFacts.

Section HistoryFacts.
Import Session Background Handlers HandlerFacts.

Context {Low : Lowering}.

Variable hostname : jsstring → option jsstring.

Lemma sane_same w w' :
  blockedUrlsByTab w' = blockedUrlsByTab w →
  storedSessions (storage w') = storedSessions (storage w) →
  sane w → sane w'.
Proof. unfold sane. by intros -> ->. Qed.

Lemma sane_onBlockedRequest w tabId u time cat :
  sane w → sane (onBlockedRequest w tabId u time cat).
Proof.
  intros [Hm Hs]. destruct (onBlockedRequest_frame w tabId u time cat)
    as (Ht & Hst & _).
  unfold sane. rewrite Ht, Hst. split; [|done].
  by apply wellFormed_recordBlocked.
Qed.

Lemma sane_onUpdated w tabId changeInfoUrl :
  sane w → sane (onUpdated hostname w tabId changeInfoUrl).
Proof.
  intros [Hm Hs]. unfold onUpdated.
  destruct changeInfoUrl as [[|c u]|]; [done| |done].
  destruct (hostname (c :: u)) as [newDomain|]; [|done].
  destruct (blockedUrlsByTab w !! tabId) as [tabData|] eqn:Hd.
  - destruct (decide _); [|done].
    set (w1 := withTabs w _).
    destruct (updateBadgeForTab_frame (scheduleStorageUpdate w1) tabId)
      as (Ht & Hst & _).
    destruct (scheduleStorageUpdate_frame w1) as (Ht1 & Hst1 & _).
    unfold sane. rewrite Ht, Hst, Ht1, Hst1. split; [|done].
    apply map_Forall_insert_2; [apply wellFormed_freshTab|done].
  - split; [|done]. cbn [withTabs blockedUrlsByTab].
    apply map_Forall_insert_2; [apply wellFormed_freshTab|done].
Qed.

Lemma sane_clearBlockedUrlsForTab w tabId :
  sane w → sane (clearBlockedUrlsForTab w tabId).
Proof.
  intros [Hm Hs]. unfold clearBlockedUrlsForTab.
  destruct (blockedUrlsByTab w !! tabId) as [d|] eqn:Hd; [|done].
  set (w1 := withTabs w _).
  destruct (scheduleStorageUpdate_frame w1) as (Ht1 & Hst1 & _).
  unfold sane. rewrite Ht1, Hst1. split; [|done].
  apply map_Forall_insert_2; [|done].
  destruct (Hm tabId d Hd) as (Hlen & Hsum & Htr & Had).
  unfold wellFormed, trackersIn, adsIn. simpl. repeat split; [lia|done|lia|lia].
Qed.

Lemma sane_fireTimer w id : sane w → sane (fireTimer w id).
Proof.
  intros [Hm Hs]. destruct (fireTimer_cases w id) as [->|(t & _ & _ & ->)];
    [done|].
  set (w1 := withRuntime w _).
  destruct (callback_sessions w1 (action t)) as (Ht & _ & Hcases).
  unfold sane. rewrite Ht. split; [done|].
  destruct (action t).
  - destruct Hcases as [-> _]. done.
  - destruct Hcases as [_ [->| ->]]; [done|].
    intros tab d [Hd _]%map_lookup_filter_Some. by apply (Hm tab).
  - destruct Hcases as [-> _]. done.
  - destruct Hcases as [-> _]. done.
Qed.

Lemma sane_stepTask wk task :
  sane (world wk) → sane (world (stepTask hostname wk task)).
Proof.
  intros Hsane. pose proof Hsane as [Hm Hs].
  destruct task; cbn [stepTask withWorld world].
  - unfold onBeforeRequest. repeat case_decide; try done.
    destruct (Interceptor.checkUrlBlocked _ _ _) as [[r|] c']; [|done].
    destruct (matched r); [|done]. cbn [world].
    by apply sane_onBlockedRequest.
  - apply (sane_same (world wk)); [done|by rewrite ?Hst|done].
  - apply (sane_same (world wk)); [done|by rewrite ?Hst|done].
  - done.
  - destruct (onRemoved_frame (world wk) tabId) as (Ht & Hst & _).
    unfold sane. rewrite Ht, Hst. split; [|done]. by apply map_Forall_delete.
  - by apply sane_onUpdated.
  - destruct (updateBadgeForTab_frame (world wk) tabId) as (Ht & Hst & _).
    apply (sane_same (world wk)); [done|by rewrite ?Hst|done].
  - destruct (updateBadgeForTabs_frame (world wk) tabs) as (Ht & Hst & _).
    apply (sane_same (world wk)); [done|by rewrite ?Hst|done].
  - done.
  - by apply sane_clearBlockedUrlsForTab.
  - unfold resetAllData. cbn [world].
    split;
      change (map_Forall (λ _ d, wellFormed d) (∅ : gmap Z TabData));
      intros tab d Hd; by rewrite lookup_empty in Hd.
  - apply (sane_same (world wk)); [done|by rewrite ?Hst|done].
  - unfold onUpdateBadge. destruct tabId as [t|]; [|done].
    destruct (decide _); [done|].
    destruct (updateBadgeForTab_frame (world wk) t) as (Ht & Hst & _).
    apply (sane_same (world wk)); [done|by rewrite Hst|done].
  - split; simpl; done.
  - by apply sane_fireTimer.
  - done.
Qed.

Lemma sane_runTasks wk tasks :
  sane (world wk) → sane (world (runTasks hostname wk tasks)).
Proof.
  revert wk. induction tasks as [|task tasks IH]; intros wk Hs; [done|].
  apply IH. by apply sane_stepTask.
Qed.

End HistoryFacts.

(** Over every history of tasks of the worker (requests, navigation,
    closed tabs, messages of the popup, start-up, timers firing), every
    session in memory and in the storage area keeps its list within
    [MAX_STORED_PER_TAB], its ad and tracker counters add up to
    [totalCount], and each counter is at least the number of listed events
    of its category (so the list is never longer than [totalCount]), given
    that the sessions found in the storage area at the start are so. *)
Theorem sessions_stay_well_formed {Low : Lowering}
    (hostname : jsstring → option jsstring)
    (s : Storage.Storage) (now : N) (tasks : list Handlers.Task) :
  map_Forall (λ _ d, Handlers.wellFormed d) (Handlers.storedSessions s) →
  let w := Handlers.world
             (Handlers.runTasks hostname (Handlers.boot s now) tasks) in
  (∀ tabId d, Background.blockedUrlsByTab w !! tabId = Some d →
     (length (Session.urls d) ≤ 300)%nat
     ∧ Session.adCount d + Session.trackerCount d = Session.totalCount d
     ∧ N.of_nat (Handlers.trackersIn (Session.urls d)) ≤ Session.trackerCount d
     ∧ N.of_nat (Handlers.adsIn (Session.urls d)) ≤ Session.adCount d)
  ∧ (∀ tabId d,
       Handlers.storedSessions (Background.storage w) !! tabId = Some d →
       (length (Session.urls d) ≤ 300)%nat
       ∧ Session.adCount d + Session.trackerCount d = Session.totalCount d
       ∧ N.of_nat (Handlers.trackersIn (Session.urls d)) ≤ Session.trackerCount d
       ∧ N.of_nat (Handlers.adsIn (Session.urls d)) ≤ Session.adCount d).
Proof.
  intros Hstored w.
  assert (Handlers.sane w) as [Hm Hs].
  { apply sane_runTasks. by split. }
  split; intros tabId d Hd; [apply (Hm tabId d Hd)|apply (Hs tabId d Hd)].
Qed.

(** ** The storage area follows the sessions *)

Section SyncFacts.
Import Session Background Handlers HandlerFacts.

Context {Low : Lowering}.

Variable hostname : jsstring → option jsstring.

Section Relation.

Variable R : option TabData → option TabData → Prop.

Hypothesis R_same : ∀ x, R x x.

Hypothesis R_fresh : ∀ x newDomain, R x None → R x (Some (freshTab newDomain)).

(** A step that arms no batched flush, keeps the flush handle and keeps
    the sessions on both sides. *)
Lemma synced_frame w w' :
  (∀ t, t ∈ timers (runtime w') →
        t ∈ timers (runtime w) ∨ action t ≠ FlushBatched) →
  storageUpdateTimer w' = storageUpdateTimer w →
  blockedUrlsByTab w' = blockedUrlsByTab w →
  storedSessions (storage w') = storedSessions (storage w) →
  syncedBy R w → syncedBy R w'.
Proof.
  intros Htimers Htimer Htabs Hstored [Hnb Hsync]. split.
  - apply Forall_forall. intros t [Ht|Ht]%Htimers; [|done].
    unfold noBatched in Hnb. rewrite Forall_forall in Hnb. by apply Hnb.
  - rewrite Htimer. intros Hnone tabId. specialize (Hsync Hnone tabId).
    by rewrite Hstored, Htabs.
Qed.

(** A step that leaves a flush pending. *)
Lemma synced_scheduled w w' :
  (∀ t, t ∈ timers (runtime w') →
        t ∈ timers (runtime w) ∨ action t ≠ FlushBatched) →
  is_Some (storageUpdateTimer w') →
  syncedBy R w → syncedBy R w'.
Proof.
  intros Htimers [id Hid] [Hnb _]. split.
  - apply Forall_forall. intros t [Ht|Ht]%Htimers; [|done].
    unfold noBatched in Hnb. rewrite Forall_forall in Hnb. by apply Hnb.
  - by rewrite Hid.
Qed.

(** A step that arms nothing and leaves memory and the storage area with
    the same sessions. *)
Lemma synced_same w w' :
  timers (runtime w') = timers (runtime w) →
  storedSessions (storage w') = blockedUrlsByTab w' →
  syncedBy R w → syncedBy R w'.
Proof using R_same.
  intros Htimers Hsame [Hnb _]. split.
  - unfold noBatched. by rewrite Htimers.
  - intros _ tab. rewrite Hsame. apply R_same.
Qed.

Lemma synced_onUpdated w tabId changeInfoUrl :
  syncedBy R w → syncedBy R (onUpdated hostname w tabId changeInfoUrl).
Proof using R_fresh.
  intros Hs. unfold onUpdated.
  destruct changeInfoUrl as [[|c u]|]; [done| |done].
  destruct (hostname (c :: u)) as [newDomain|]; [|done].
  destruct (blockedUrlsByTab w !! tabId) as [tabData|] eqn:Hd.
  - destruct (decide _); [|done].
    set (w1 := withTabs w _).
    apply (synced_scheduled w); [| |done].
    + intros t [Ht|Ht]%updateBadgeForTab_timers; [|right; by rewrite Ht].
      apply (scheduleStorageUpdate_timers w1) in Ht as [Ht|Ht];
        [by left|right; by rewrite Ht].
    + destruct (updateBadgeForTab_frame (scheduleStorageUpdate w1) tabId)
        as (_ & _ & -> & _).
      by destruct (scheduleStorageUpdate_frame w1) as (_ & _ & ? & _).
  - destruct Hs as [Hnb Hsync]. split; [done|]. unfold agree in *.
    cbn [withTabs storageUpdateTimer storage blockedUrlsByTab].
    intros Hnone tab. specialize (Hsync Hnone).
    destruct (decide (tab = tabId)) as [->|Hne].
    + rewrite lookup_insert_eq. apply R_fresh.
      specialize (Hsync tabId). by rewrite Hd in Hsync.
    + rewrite lookup_insert_ne by done. apply Hsync.
Qed.

Lemma synced_fireTimer w id : syncedBy R w → syncedBy R (fireTimer w id).
Proof using R_same.
  intros Hs. destruct (fireTimer_cases w id) as [->|(t & Ht & _ & ->)];
    [done|].
  pose proof Hs as [Hnb Hsync].
  assert (action t ≠ FlushBatched) as Hact.
  { unfold noBatched in Hnb. rewrite Forall_forall in Hnb. by apply Hnb. }
  set (w1 := withRuntime w _).
  destruct (callback_sessions w1 (action t)) as (Htabs & Htimers & Hcases).
  assert (noBatched (callback w1 (action t))) as Hnb'.
  { unfold noBatched. rewrite Htimers. apply Forall_forall.
    intros t' Ht'%timers_clearTimeout.
    unfold noBatched in Hnb. rewrite Forall_forall in Hnb. by apply Hnb. }
  split; [done|]. intros Hnone tab. rewrite Htabs.
  destruct (action t); [| done | |].
  - destruct Hcases as [-> _]. apply R_same.
  - destruct Hcases as [-> Htimer]. rewrite Htimer in Hnone.
    apply (Hsync Hnone).
  - destruct Hcases as [-> Htimer]. rewrite Htimer in Hnone.
    apply (Hsync Hnone).
Qed.

Lemma synced_stepTask wk task :
  syncedBy R (world wk) → syncedBy R (world (Handlers.stepTask hostname wk task)).
Proof using R_same R_fresh.
  intros Hs. destruct task; cbn [Handlers.stepTask withWorld world].
  - unfold onBeforeRequest. repeat case_decide; try done.
    destruct (Interceptor.checkUrlBlocked _ _ _) as [[r|] c']; [|done].
    destruct (matched r); [|done]. cbn [world].
    apply (synced_scheduled (world wk)); [|apply onBlockedRequest_frame|done].
    apply onBlockedRequest_timers.
  - apply (synced_frame (world wk)); try done. by left.
  - apply (synced_frame (world wk)); try done. by left.
  - done.
  - apply (synced_scheduled (world wk)); [|apply onRemoved_frame|done].
    intros t [Ht|Ht]%onRemoved_timers; [by left|right; by rewrite Ht].
  - by apply synced_onUpdated.
  - destruct (updateBadgeForTab_frame (world wk) tabId) as (Ht & Hst & Htm & _).
    apply (synced_frame (world wk)); [|done|done|by rewrite Hst|done].
    intros t [?|Ha]%updateBadgeForTab_timers; [by left|right; by rewrite Ha].
  - destruct (updateBadgeForTabs_frame (world wk) tabs) as (Ht & Hst & Htm & _).
    apply (synced_frame (world wk)); [|done|done|by rewrite Hst|done].
    intros t [?|[tab Ha]]%updateBadgeForTabs_timers;
      [by left|right; by rewrite Ha].
  - done.
  - unfold clearBlockedUrlsForTab.
    destruct (blockedUrlsByTab (world wk) !! tabId) as [d|]; [|done].
    set (w1 := withTabs (world wk) _).
    apply (synced_scheduled (world wk)); [| |done].
    + intros t [Ht|Ht]%(scheduleStorageUpdate_timers w1);
        [by left|right; by rewrite Ht].
    + by destruct (scheduleStorageUpdate_frame w1) as (_ & _ & ? & _).
  - unfold resetAllData. cbn [world].
    by apply (synced_same (world wk)).
  - apply (synced_frame (world wk)); try done. by left.
  - unfold onUpdateBadge. destruct tabId as [t|]; [|done].
    destruct (decide _); [done|].
    destruct (updateBadgeForTab_frame (world wk) t) as (Ht & Hst & Htm & _).
    apply (synced_frame (world wk)); [|done|done|by rewrite Hst|done].
    intros t' [?|Ha]%updateBadgeForTab_timers; [by left|right; by rewrite Ha].
  - by apply (synced_same (world wk)).
  - by apply synced_fireTimer.
  - apply (synced_frame (world wk)); try done. by left.
Qed.

End Relation.

Lemma sameOrFresh_same x : sameOrFresh x x.
Proof. by left. Qed.

Lemma sameOrFresh_fresh x newDomain :
  sameOrFresh x None → sameOrFresh x (Some (freshTab newDomain)).
Proof.
  intros [->|[_ [d [=]]]]. right. split; [done|]. by exists newDomain.
Qed.

Lemma sameOrUnloaded_same x : sameOrUnloaded x x.
Proof. right. by left. Qed.

Lemma sameOrUnloaded_fresh x newDomain :
  sameOrUnloaded x None → sameOrUnloaded x (Some (freshTab newDomain)).
Proof. intros _. right. right. by exists newDomain. Qed.

Lemma sameOrFresh_unloaded x y : sameOrFresh x y → sameOrUnloaded x y.
Proof.
  intros [->|[_ [d ->]]]; [apply sameOrUnloaded_same|].
  right. right. by exists d.
Qed.

(** The callback of the initial read, run with an answer that is what the
    storage area still holds: what memory lacked is loaded. *)
Lemma inSync_onInitialRead w result :
  storedSessions result = storedSessions (storage w) →
  notAhead w → inSync (Async.onInitialRead w result).
Proof.
  intros Hcurrent Hw tab. specialize (Hw tab).
  unfold Async.onInitialRead.
  cbn [withTabs storage blockedUrlsByTab]. rewrite Hcurrent.
  destruct (storedSessions (storage w) !! tab) as [d|] eqn:Hs.
  - left. symmetry. by apply lookup_union_Some_l.
  - rewrite lookup_union_r by done.
    destruct Hw as [->|[<-|[newDomain ->]]]; [by left|by left|].
    right. split; [done|]. by exists newDomain.
Qed.

(** One task of [Async] whose answer, if it is a callback, is current:
    memory stays not ahead of the storage area, and is in sync from the
    first callback that runs with an answer. *)
Lemma async_stepTask st task (isLoaded : bool) :
  (∀ result, Async.answerOf st task = Some result →
     storedSessions result
     = storedSessions (storage (world (Async.worker st)))) →
  syncedBy sameOrUnloaded (world (Async.worker st)) →
  (isLoaded = true → syncedBy sameOrFresh (world (Async.worker st))) →
  syncedBy sameOrUnloaded
    (world (Async.worker (Async.stepTask hostname st task)))
  ∧ (isLoaded || bool_decide (is_Some (Async.answerOf st task)) = true →
     syncedBy sameOrFresh
       (world (Async.worker (Async.stepTask hostname st task)))).
Proof.
  intros Hcurrent Hu Hl.
  assert (∀ w' : World,
            timers (runtime w') = timers (runtime (world (Async.worker st))) →
            (storageUpdateTimer w' = None → inSync w') →
            syncedBy sameOrUnloaded w' ∧ syncedBy sameOrFresh w') as Hload.
  { intros w' Htimers Hsync. destruct Hu as [Hnb _].
    assert (noBatched w') as Hnb' by (unfold noBatched; by rewrite Htimers).
    split; (split; [done|]); intros Hnone; [|by apply Hsync].
    intros tab. by apply sameOrFresh_unloaded, Hsync. }
  destruct task as [t| |i|i]; cbn [Async.stepTask Async.answerOf].
  - cbn [Async.worker]. split; [by apply synced_stepTask;
      [apply sameOrUnloaded_same|apply sameOrUnloaded_fresh|]|].
    rewrite bool_decide_eq_false_2 by (by intros [? ?]).
    rewrite orb_false_r. intros Hi.
    apply synced_stepTask;
      [apply sameOrFresh_same|apply sameOrFresh_fresh|by apply Hl].
  - cbn [Async.worker]. split; [done|].
    rewrite bool_decide_eq_false_2 by (by intros [? ?]).
    by rewrite orb_false_r.
  - cbn [Async.answerOf] in Hcurrent.
    destruct (Async.answers st !! i) as [result|] eqn:Hi.
    + cbn [Async.worker withWorld world].
      destruct (Hload (Async.onInitialRead (world (Async.worker st)) result))
        as [H1 H2]; [done| |by split].
      intros Hnone. apply inSync_onInitialRead; [by apply Hcurrent|].
      destruct Hu as [_ Hu]. by apply Hu.
    + split; [done|].
      rewrite bool_decide_eq_false_2 by (by intros [? ?]).
      by rewrite orb_false_r.
  - cbn [Async.answerOf] in Hcurrent.
    destruct (Async.answers st !! i) as [result|] eqn:Hi.
    + cbn [Async.worker withWorld world].
      destruct (Hload (onStartupRead (world (Async.worker st)) result))
        as [H1 H2]; [done| |by split].
      intros _ tab. left.
      unfold onStartupRead. cbn [withTabs storage blockedUrlsByTab].
      by rewrite <- (Hcurrent result eq_refl).
    + split; [done|].
      rewrite bool_decide_eq_false_2 by (by intros [? ?]).
      by rewrite orb_false_r.
Qed.

Lemma async_runTasks st tasks (isLoaded : bool) :
  Async.currentAnswers hostname st tasks →
  syncedBy sameOrUnloaded (world (Async.worker st)) →
  (isLoaded = true → syncedBy sameOrFresh (world (Async.worker st))) →
  syncedBy sameOrUnloaded
    (world (Async.worker (Async.runTasks hostname st tasks)))
  ∧ (isLoaded || Async.loaded hostname st tasks = true →
     syncedBy sameOrFresh
       (world (Async.worker (Async.runTasks hostname st tasks)))).
Proof.
  revert st isLoaded.
  induction tasks as [|task tasks IH]; intros st isLoaded Hcur Hu Hl.
  - cbn [Async.runTasks foldl Async.loaded]. rewrite orb_false_r. by split.
  - destruct Hcur as [Hcurrent Hrest].
    destruct (async_stepTask st task isLoaded Hcurrent Hu Hl) as [Hu' Hl'].
    cbn [Async.loaded]. rewrite orb_assoc.
    by apply (IH (Async.stepTask hostname st task)).
Qed.

Lemma synced_start s now :
  syncedBy sameOrUnloaded (world (Async.worker (Async.start s now))).
Proof. split; [constructor|]. intros _ tab. by left. Qed.

(** The worker of [boot] is the worker after the history in which the
    initial read is answered and its callback runs before anything else. *)
Lemma boot_loads_first s now :
  Async.worker
    (Async.runTasks hostname (Async.start s now)
       [Async.SessionsAnswered; Async.InitialLoaded 0])
  = boot s now.
Proof.
  cbn. unfold boot, Async.onInitialRead, withWorld, withTabs. cbn.
  f_equal. f_equal. apply (right_id_L ∅ (∪)).
Qed.

(** The sessions are well formed over the histories of [Async], whatever
    answers the callbacks run with. *)
Lemma sane_async_stepTask st task :
  sane (world (Async.worker st)) →
  Forall (λ result, map_Forall (λ _ d, wellFormed d) (storedSessions result))
         (Async.answers st) →
  sane (world (Async.worker (Async.stepTask hostname st task)))
  ∧ Forall (λ result, map_Forall (λ _ d, wellFormed d) (storedSessions result))
           (Async.answers (Async.stepTask hostname st task)).
Proof.
  intros Hs Ha.
  assert (∀ i result, Async.answers st !! i = Some result →
            map_Forall (λ _ d, wellFormed d) (storedSessions result)) as Hi.
  { intros i result Hi. rewrite Forall_forall in Ha. apply Ha.
    by eapply list_elem_of_lookup_2. }
  destruct task as [t| |i|i]; cbn [Async.stepTask].
  - split; [by apply sane_stepTask|done].
  - split; [done|]. cbn [Async.answers]. apply Forall_app. split; [done|].
    apply Forall_singleton. apply Hs.
  - destruct (Async.answers st !! i) as [result|] eqn:Hr; [|done].
    split; [|done]. cbn [Async.worker withWorld world].
    destruct Hs as [Hm Hst]. split; [|done].
    unfold Async.onInitialRead. cbn [withTabs blockedUrlsByTab].
    apply map_Forall_union_2; [by apply (Hi i)|done].
  - destruct (Async.answers st !! i) as [result|] eqn:Hr; [|done].
    split; [|done]. cbn [Async.worker withWorld world].
    destruct Hs as [Hm Hst]. split; [|done].
    unfold onStartupRead. cbn [withTabs blockedUrlsByTab]. by apply (Hi i).
Qed.

Lemma sane_async st tasks :
  sane (world (Async.worker st)) →
  Forall (λ result, map_Forall (λ _ d, wellFormed d) (storedSessions result))
         (Async.answers st) →
  sane (world (Async.worker (Async.runTasks hostname st tasks))).
Proof.
  revert st. induction tasks as [|task tasks IH]; intros st Hs Ha; [done|].
  destruct (sane_async_stepTask st task Hs Ha) as [Hs' Ha'].
  by apply (IH (Async.stepTask hostname st task)).
Qed.

End SyncFacts.

(** The storage area follows the sessions (V1.8).  Over every history of
    tasks in which each callback of a read of [blockedUrlsByTab] runs with
    an answer that is still what the storage area holds: whenever no flush
    timer is pending, memory is not ahead of the storage area (a record of
    memory is stored as it is, or is an empty record that the navigation
    handler created); once such a callback has run, every stored session
    is in memory as well, so that memory and the storage area hold the
    same sessions but for those empty records.  The [unload] listener
    brings the storage area to that state when a flush is pending, and
    leaves it there otherwise. *)
Theorem storage_follows_sessions {Low : Lowering}
    (hostname : jsstring → option jsstring)
    (s : Storage.Storage) (now : N) (tasks : list Async.Task) :
  Async.currentAnswers hostname (Async.start s now) tasks →
  let w := Handlers.world
             (Async.worker
                (Async.runTasks hostname (Async.start s now) tasks)) in
  (Background.storageUpdateTimer w = None → Handlers.notAhead w)
  ∧ (is_Some (Background.storageUpdateTimer w) →
     Handlers.inSync (Handlers.onUnload w))
  ∧ (Async.loaded hostname (Async.start s now) tasks = true →
     (Background.storageUpdateTimer w = None → Handlers.inSync w)
     ∧ Handlers.inSync (Handlers.onUnload w)).
Proof.
  intros Hcurrent w.
  destruct (async_runTasks hostname (Async.start s now) tasks false Hcurrent)
    as [[_ Hu] Hl]; [apply synced_start|done|].
  fold w in Hu, Hl.
  assert (is_Some (Background.storageUpdateTimer w) →
          Handlers.inSync (Handlers.onUnload w)) as Hunload.
  { intros [id Hid]. unfold Handlers.onUnload. rewrite Hid.
    intros tab. by left. }
  split; [done|]. split; [done|]. intros Hloaded.
  destruct (Hl Hloaded) as [_ Hsync]. split; [done|].
  destruct (Background.storageUpdateTimer w) as [id|] eqn:Hid;
    [by apply Hunload|].
  unfold Handlers.onUnload. rewrite Hid. by apply Hsync.
Qed.

(** A callback that runs with an answer the storage area no longer holds
    leaves memory and the storage area apart, with no flush pending.  The
    initial read is answered, the data is reset, then the callback of the
    read runs: the storage area holds no session, memory holds the old
    one.  Or: a start-up read is answered, the list of tab 7 is cleared
    and flushed a second later, then the callback runs: the storage area holds the empty
    list, memory the old one.  The [unload] listener changes nothing
    then. *)
Theorem stale_answer_breaks_sync {Low : Lowering}
    (hostname : jsstring → option jsstring) :
  let d := Session.mkTabData (lit "news.example.com")
             [Session.mkBlockedUrl (lit "https://ads.example.com/a.js")
                (lit "https://ads.example.com/a.js") 5 Ad] 1 1 0 in
  let cleared := Session.mkTabData (lit "news.example.com") [] 1 1 0 in
  let s := Storage.setBlockedUrlsByTab Storage.empty {[7%Z := d]} in
  let w1 :=
    Handlers.world
      (Async.worker
         (Async.runTasks hostname (Async.start s 0)
            [Async.SessionsAnswered;
             Async.Handler Handlers.ResetAllData;
             Async.InitialLoaded 0])) in
  let w2 :=
    Handlers.world
      (Async.worker
         (Async.runTasks hostname (Async.start s 0)
            [Async.SessionsAnswered;
             Async.InitialLoaded 0;
             Async.SessionsAnswered;
             Async.Handler (Handlers.ClearBlockedUrls 7);
             Async.Handler (Handlers.Advance 1000);
             Async.Handler (Handlers.Fire 1);
             Async.StartupLoaded 1])) in
  (Background.storageUpdateTimer w1 = None
   ∧ Handlers.storedSessions (Background.storage w1) = ∅
   ∧ Background.blockedUrlsByTab w1 = {[7%Z := d]}
   ∧ ¬ Handlers.inSync w1
   ∧ ¬ Handlers.inSync (Handlers.onUnload w1))
  ∧ (Background.storageUpdateTimer w2 = None
     ∧ Handlers.storedSessions (Background.storage w2) = {[7%Z := cleared]}
     ∧ Background.blockedUrlsByTab w2 = {[7%Z := d]}
     ∧ ¬ Handlers.inSync w2
     ∧ ¬ Handlers.inSync (Handlers.onUnload w2)).
Proof.
  cbv zeta.
  split; (split; [by vm_compute|]; split; [by vm_compute|];
          split; [by vm_compute|]).
  - split; intros Hsync; specialize (Hsync 7%Z);
      destruct Hsync as [Hsync|[_ [newDomain Hsync]]];
      vm_compute in Hsync; discriminate.
  - split; intros Hsync; specialize (Hsync 7%Z);
      destruct Hsync as [Hsync|[_ [newDomain Hsync]]];
      vm_compute in Hsync; discriminate.
Qed.

(** Over every history of tasks and callbacks, whatever answers the
    callbacks run with, every session in memory and in the storage area
    is well formed (list within the cap, counters adding up, each counter
    at least the listed events of its category), given that the sessions
    found in the storage area at the start are so. *)
Theorem async_sessions_stay_well_formed {Low : Lowering}
    (hostname : jsstring → option jsstring)
    (s : Storage.Storage) (now : N) (tasks : list Async.Task) :
  map_Forall (λ _ d, Handlers.wellFormed d) (Handlers.storedSessions s) →
  let w := Handlers.world
             (Async.worker
                (Async.runTasks hostname (Async.start s now) tasks)) in
  map_Forall (λ _ d, Handlers.wellFormed d) (Background.blockedUrlsByTab w)
  ∧ map_Forall (λ _ d, Handlers.wellFormed d)
      (Handlers.storedSessions (Background.storage w)).
Proof.
  intros Hstored w. apply (sane_async hostname); [|constructor].
  split; [|done].
  change (map_Forall (λ _ d, Handlers.wellFormed d)
            (∅ : gmap Z Session.TabData)).
  intros tab d Hd. by rewrite lookup_empty in Hd.
Qed.

(** ** One pending timer for each handle *)

Section SlotFacts.
Import Session Background Handlers HandlerFacts TimerFacts.

Context {Low : Lowering}.

Variable hostname : jsstring → option jsstring.

Lemma Slots_same w w' :
  timers (runtime w') = timers (runtime w) →
  nextTimerId (runtime w') = nextTimerId (runtime w) →
  (∀ b, slot w' b = slot w b) →
  Slots w → Slots w'.
Proof.
  intros Ht Hn Hslot [Hf Hd Htim Hsl].
  split; rewrite ?Ht, ?Hn; try done.
  - intros t Hin. rewrite Hslot. by apply Htim.
  - intros a id Ha. rewrite Hslot in Ha. by apply Hsl.
Qed.

(** A timer is armed for an action whose handle is free. *)
Lemma Slots_arm w w' a delay :
  Slots w → slot w a = None →
  runtime w' = (setTimeout (runtime w) a delay).2 →
  slot w' a = Some (nextTimerId (runtime w)) →
  (∀ b, b ≠ a → slot w' b = slot w b) →
  Slots w'.
Proof.
  intros [Hf Hd Htim Hsl] Hfree Hrt Hnew Hother. split; rewrite Hrt.
  - by apply fresh_setTimeout.
  - by apply distinct_setTimeout.
  - intros t [Hold|Ht]%elem_of_app.
    + assert (action t ≠ a) as Hne.
      { intros <-. rewrite (Htim t Hold) in Hfree. done. }
      rewrite Hother by done. by apply Htim.
    + apply list_elem_of_singleton in Ht as ->. done.
  - intros b id Hb. destruct (decide (b = a)) as [->|Hne].
    + rewrite Hnew in Hb. injection Hb as <-.
      exists (mkTimer (nextTimerId (runtime w)) (now (runtime w) + delay) a).
      split; [|done]. apply elem_of_app. right. by left.
    + rewrite Hother in Hb by done.
      destruct (Hsl b id Hb) as (t & Hin & Hid & Hact).
      exists t. split; [|done]. apply elem_of_app. by left.
Qed.

(** The timer of a handle is cleared, or has fired, and the handle is
    given up. *)
Lemma Slots_disarm w w' a id :
  Slots w → slot w a = Some id →
  timers (runtime w') = timers (clearTimeout (runtime w) id) →
  nextTimerId (runtime w') = nextTimerId (runtime w) →
  slot w' a = None →
  (∀ b, b ≠ a → slot w' b = slot w b) →
  Slots w'.
Proof.
  intros [Hf Hd Htim Hsl] Hheld Hrt Hn Hgone Hother.
  split; rewrite ?Hrt, ?Hn.
  - by apply (fresh_clearTimeout _ id).
  - by apply distinct_clearTimeout.
  - intros t [Hid Hin]%list_elem_of_filter.
    assert (action t ≠ a) as Hne.
    { intros <-. rewrite (Htim t Hin) in Hheld. congruence. }
    rewrite Hother by done. by apply Htim.
  - intros b id' Hb. destruct (decide (b = a)) as [->|Hne]; [congruence|].
    rewrite Hother in Hb by done.
    destruct (Hsl b id' Hb) as (t & Hin & Hid & Hact).
    exists t. split; [|done]. apply list_elem_of_filter. split; [|done].
    intros Heq. destruct (Hsl a id Hheld) as (t0 & Hin0 & Hid0 & Hact0).
    apply Hne. rewrite <- Hact, <- Hact0. f_equal.
    apply (timer_by_id _ t t0 Hd Hin Hin0). congruence.
Qed.

Ltac other_slots :=
  let b := fresh "b" in
  let Hb := fresh "Hb" in
  intros b Hb;
  repeat match goal with x := _ |- _ => subst x end;
  destruct b;
  cbn [slot setTimeout withBadgeTimers withStorageTimer withXP withTabs
       withStorage withRuntime badgeUpdateTimers storageUpdateTimer
       xpCoinsUpdateTimer];
  try done;
  rewrite ?lookup_insert_ne, ?lookup_delete_ne by congruence; done.

Lemma Slots_scheduleStorageUpdate w : Slots w → Slots (scheduleStorageUpdate w).
Proof.
  intros HS. unfold scheduleStorageUpdate.
  destruct (storageUpdateTimer w) as [id|] eqn:Hheld.
  - set (w1 := withStorageTimer w None (clearTimeout (runtime w) id)).
    assert (Slots w1) as HS1.
    { apply (Slots_disarm w w1 FlushStorage id); try done. other_slots. }
    apply (Slots_arm w1 _ FlushStorage STORAGE_BATCH_DELAY); try done.
    other_slots.
  - apply (Slots_arm w _ FlushStorage STORAGE_BATCH_DELAY); try done.
    other_slots.
Qed.

Lemma Slots_updateBadgeForTab w tabId : Slots w → Slots (updateBadgeForTab w tabId).
Proof.
  intros HS. unfold updateBadgeForTab.
  destruct (badgeUpdateTimers w !! tabId) as [id|] eqn:Hheld.
  - set (w1 := withBadgeTimers w (delete tabId (badgeUpdateTimers w))
                 (clearTimeout (runtime w) id)).
    assert (Slots w1) as HS1.
    { apply (Slots_disarm w w1 (UpdateBadge tabId) id); try done.
      - cbn [slot w1 withBadgeTimers badgeUpdateTimers]. apply lookup_delete_eq.
      - other_slots. }
    apply (Slots_arm w1 _ (UpdateBadge tabId) BADGE_UPDATE_DELAY); try done.
    + cbn [slot w1 withBadgeTimers badgeUpdateTimers]. apply lookup_delete_eq.
    + cbn [slot setTimeout withBadgeTimers badgeUpdateTimers].
      apply lookup_insert_eq.
    + other_slots.
  - apply (Slots_arm w _ (UpdateBadge tabId) BADGE_UPDATE_DELAY); try done.
    + cbn [slot setTimeout withBadgeTimers badgeUpdateTimers].
      apply lookup_insert_eq.
    + other_slots.
Qed.

Lemma Slots_updateBadgeForTabs w tabs : Slots w → Slots (updateBadgeForTabs w tabs).
Proof.
  revert w. induction tabs as [|tab tabs IH]; intros w HS; [done|].
  apply IH. by apply Slots_updateBadgeForTab.
Qed.

Lemma Slots_awardXPAndCoins w : Slots w → Slots (awardXPAndCoins w).
Proof.
  intros HS. unfold awardXPAndCoins.
  destruct (xpCoinsUpdateTimer w) as [id|] eqn:Hheld.
  - apply (Slots_same w); try done;
      try (intros b; by destruct b).
  - apply (Slots_arm w _ AwardXPCoins 1000); try done. other_slots.
Qed.

Lemma Slots_fireTimer w id : Slots w → Slots (fireTimer w id).
Proof.
  intros HS. destruct (fireTimer_cases w id) as [->|(t & Hin & Hid & ->)];
    [done|].
  pose proof HS as [_ _ Htim _]. specialize (Htim t Hin). rewrite Hid in Htim.
  destruct (action t) as [| |tab|]; cbn [callback].
  - apply (Slots_disarm w _ FlushStorage id); try done. other_slots.
  - done.
  - apply (Slots_disarm w _ (UpdateBadge tab) id); try done.
    + cbn [slot withBadgeTimers badgeUpdateTimers]. apply lookup_delete_eq.
    + other_slots.
  - destruct (pendingXPCoins _) as [xp coins].
    apply (Slots_disarm w _ AwardXPCoins id); try done. other_slots.
Qed.

Lemma Slots_onRemoved w tabId : Slots w → Slots (onRemoved w tabId).
Proof.
  intros HS. unfold onRemoved. set (w0 := withTabs w _).
  assert (Slots (scheduleStorageUpdate w0)) as HS1.
  { apply Slots_scheduleStorageUpdate. apply (Slots_same w); try done;
      try (intros b; by destruct b). }
  destruct (badgeUpdateTimers (scheduleStorageUpdate w0) !! tabId)
    as [id|] eqn:Hheld; [|done].
  apply (Slots_disarm (scheduleStorageUpdate w0) _ (UpdateBadge tabId) id);
    try done.
  - cbn [slot withBadgeTimers badgeUpdateTimers]. apply lookup_delete_eq.
  - other_slots.
Qed.

Lemma Slots_tabs_storage w tabs s :
  Slots w → Slots (withStorage (withTabs w tabs) s).
Proof.
  intros HS. apply (Slots_same w); try done;
      try (intros b; by destruct b).
Qed.

Lemma Slots_stepTask wk task :
  Slots (world wk) → Slots (world (stepTask hostname wk task)).
Proof.
  intros HS. destruct task; cbn [stepTask withWorld world]; try done.
  - unfold onBeforeRequest. repeat case_decide; try done.
    destruct (Interceptor.checkUrlBlocked _ _ _) as [[r|] c']; [|done].
    destruct (matched r); [|done]. cbn [world]. unfold onBlockedRequest.
    apply Slots_updateBadgeForTab, Slots_awardXPAndCoins,
      Slots_scheduleStorageUpdate.
    apply (Slots_same (world wk)); try done;
      try (intros b; by destruct b).
  - apply (Slots_same (world wk)); try done;
      try (intros b; by destruct b).
  - apply (Slots_same (world wk)); try done;
      try (intros b; by destruct b).
  - by apply Slots_onRemoved.
  - unfold onUpdated.
    destruct changeInfoUrl as [[|c u]|]; [done| |done].
    destruct (hostname (c :: u)) as [newDomain|]; [|done].
    destruct (blockedUrlsByTab (world wk) !! tabId) as [tabData|].
    + destruct (decide _); [|done].
      apply Slots_updateBadgeForTab, Slots_scheduleStorageUpdate.
      apply (Slots_same (world wk)); try done;
      try (intros b; by destruct b).
    + apply (Slots_same (world wk)); try done;
      try (intros b; by destruct b).
  - by apply Slots_updateBadgeForTab.
  - by apply Slots_updateBadgeForTabs.
  - unfold clearBlockedUrlsForTab.
    destruct (blockedUrlsByTab (world wk) !! tabId) as [d|]; [|done].
    apply Slots_scheduleStorageUpdate.
    apply (Slots_same (world wk)); try done;
      try (intros b; by destruct b).
  - unfold resetAllData. cbn [world]. by apply Slots_tabs_storage.
  - apply (Slots_same (world wk)); try done;
      try (intros b; by destruct b).
  - unfold onUpdateBadge. destruct tabId as [t|]; [|done].
    destruct (decide _); [done|]. by apply Slots_updateBadgeForTab.
  - apply (Slots_same (world wk)); try done;
      try (intros b; by destruct b).
  - by apply Slots_fireTimer.
  - apply (Slots_same (world wk)); try done;
      try (intros b; by destruct b).
Qed.

Lemma Slots_runTasks wk tasks :
  Slots (world wk) → Slots (world (runTasks hostname wk tasks)).
Proof.
  revert wk. induction tasks as [|task tasks IH]; intros wk HS; [done|].
  apply IH. by apply Slots_stepTask.
Qed.

Lemma Slots_boot s now : Slots (world (boot s now)).
Proof.
  split; simpl; [constructor|constructor|by intros t ?%elem_of_nil|].
  intros a id. destruct a; simpl; try done.
Qed.

Lemma filter_none {A : Type} (P : A → Prop) `{∀ x, Decision (P x)} (l : list A) :
  (∀ y, y ∈ l → ¬ P y) → filter P l = [].
Proof.
  induction l as [|y l IH]; intros Hno; [done|].
  rewrite filter_cons_False by (apply Hno; by left).
  apply IH. intros z Hz. apply Hno. by right.
Qed.

Lemma filter_unique {A : Type} (P : A → Prop) `{∀ x, Decision (P x)}
    (l : list A) x :
  NoDup l → x ∈ l → P x → (∀ y, y ∈ l → P y → y = x) → filter P l = [x].
Proof.
  induction l as [|y l IH]; intros Hnd Hin Hx Huniq; [by apply elem_of_nil in Hin|].
  apply NoDup_cons in Hnd as [Hy Hnd].
  destruct (decide (P y)) as [HPy|HPy].
  - assert (y = x) as -> by (apply Huniq; [by left|done]).
    rewrite filter_cons_True by done. f_equal. apply filter_none.
    intros z Hz HPz. apply Hy. rewrite <- (Huniq z); [done|by right|done].
  - rewrite filter_cons_False by done.
    apply elem_of_cons in Hin as [->|Hin]; [done|].
    apply IH; try done. intros z Hz. apply Huniq. by right.
Qed.

(** What the invariant says of the timer table, action by action. *)
Lemma Slots_pending w a :
  Slots w →
  match slot w a with
  | Some id =>
      ∃ t, filter (λ t, action t = a) (timers (runtime w)) = [t]
           ∧ timerId t = id
  | None => filter (λ t, action t = a) (timers (runtime w)) = []
  end.
Proof.
  intros [Hf Hd Htim Hsl]. destruct (slot w a) as [id|] eqn:Hslot.
  - destruct (Hsl a id Hslot) as (t & Hin & Hid & Hact). exists t.
    split; [|done]. apply filter_unique; try done.
    + by apply NoDup_fmap_1 in Hd.
    + intros y Hy Hya. apply (timer_by_id _ y t Hd Hy Hin).
      pose proof (Htim y Hy) as Hslot'. rewrite Hya, Hslot in Hslot'. congruence.
  - apply filter_none. intros y Hy Hya.
    pose proof (Htim y Hy) as Hslot'. rewrite Hya, Hslot in Hslot'. done.
Qed.

End SlotFacts.

(** Every timer of the worker is debounced through its handle (V1.8): over
    every history, the pending timers of an action are exactly the one
    its variable names (the flush timer, the reward timer, one badge timer
    for each tab, and never a timer of the older revision's flush), so a
    burst of requests leaves at most one of each.  A badge refresh asked
    again is due 500 ms after the last call, and closing a tab cancels
    its pending refresh. *)
Theorem one_timer_per_handle {Low : Lowering}
    (hostname : jsstring → option jsstring)
    (s : Storage.Storage) (now : N) (tasks : list Handlers.Task) :
  let w := Handlers.world
             (Handlers.runTasks hostname (Handlers.boot s now) tasks) in
  (∀ a, Handlers.pendingIds w a = option_list (Handlers.slot w a))
  ∧ (∀ tabId,
       Handlers.pendingDues (Background.updateBadgeForTab w tabId)
         (Background.UpdateBadge tabId)
       = [Background.now (Background.runtime w) + 500])
  ∧ (∀ tabId,
       Handlers.pendingIds (Background.onRemoved w tabId)
         (Background.UpdateBadge tabId) = []).
Proof.
  intros w.
  assert (Handlers.Slots w) as HS by apply Slots_runTasks, Slots_boot.
  split; [|split].
  - intros a. pose proof (Slots_pending w a HS) as Hp.
    unfold Handlers.pendingIds.
    destruct (Handlers.slot w a) as [id|].
    + destruct Hp as (t & -> & <-). done.
    + by rewrite Hp.
  - intros tabId.
    pose proof (Slots_updateBadgeForTab w tabId HS) as HS'.
    pose proof (Slots_pending _ (Background.UpdateBadge tabId) HS') as Hp.
    assert (Background.mkTimer
              (Background.nextTimerId (Background.runtime w))
              (Background.now (Background.runtime w) + 500)
              (Background.UpdateBadge tabId)
            ∈ Background.timers
                (Background.runtime (Background.updateBadgeForTab w tabId)))
      as Hnew.
    { unfold Background.updateBadgeForTab.
      destruct (Background.badgeUpdateTimers w !! tabId);
        cbn [Background.setTimeout Background.withBadgeTimers
             Background.runtime Background.timers Background.clearTimeout
             Background.nextTimerId Background.now];
        apply elem_of_app; right; by left. }
    unfold Handlers.pendingDues.
    destruct (Handlers.slot _ _) as [id|].
    + destruct Hp as (t & Hp & _).
      assert (Background.mkTimer
                (Background.nextTimerId (Background.runtime w))
                (Background.now (Background.runtime w) + 500)
                (Background.UpdateBadge tabId)
              ∈ filter (λ t, Background.action t = Background.UpdateBadge tabId)
                  (Background.timers
                     (Background.runtime
                        (Background.updateBadgeForTab w tabId)))) as Hin
        by (by apply list_elem_of_filter).
      rewrite Hp in *. apply list_elem_of_singleton in Hin as <-. done.
    + assert (Background.mkTimer
                (Background.nextTimerId (Background.runtime w))
                (Background.now (Background.runtime w) + 500)
                (Background.UpdateBadge tabId)
              ∈ filter (λ t, Background.action t = Background.UpdateBadge tabId)
                  (Background.timers
                     (Background.runtime
                        (Background.updateBadgeForTab w tabId)))) as Hin
        by (by apply list_elem_of_filter).
      rewrite Hp in Hin. by apply elem_of_nil in Hin.
  - intros tabId.
    pose proof (Slots_onRemoved w tabId HS) as HS'.
    pose proof (Slots_pending _ (Background.UpdateBadge tabId) HS') as Hp.
    assert (Handlers.slot (Background.onRemoved w tabId)
              (Background.UpdateBadge tabId) = None) as Hnone.
    { unfold Background.onRemoved.
      destruct (Background.badgeUpdateTimers _ !! tabId) as [id|] eqn:Hheld;
        [|done].
      cbn [Handlers.slot Background.withBadgeTimers
           Background.badgeUpdateTimers].
      apply lookup_delete_eq. }
    rewrite Hnone in Hp. unfold Handlers.pendingIds. by rewrite Hp.
Qed.

(** ** The older revision: what a batched flush stores *)

Section BatchedFlush.
Import Session Background Handlers.

Lemma list_find_fresh (l : list Timer) (t : Timer) :
  Forall (λ t', timerId t' ≠ timerId t) l →
  list_find (λ t', timerId t' = timerId t) (l ++ [t]) = Some (length l, t).
Proof.
  induction 1 as [|x l Hx Hl IH]; simpl.
  - by rewrite decide_True.
  - rewrite decide_False by done. by rewrite IH.
Qed.

End BatchedFlush.

(** In the older revision a flush writes the dirty sessions and nothing
    else: when one tab is marked dirty and the flush timer fires a second
    later, the stored object holds that tab's session alone, and the stored
    sessions of all other tabs are gone, although they are still in
    memory. *)
Theorem batched_flush_forgets_other_tabs (w : Background.World) (tabId : Z) :
  Background.Inv w →
  Background.storageUpdateTimer w = None →
  Background.pendingStorageUpdates w = ∅ →
  let scheduled := Background.scheduleBatchedStorageUpdate w tabId in
  let w' :=
    Background.fireTimer
      (Background.advance scheduled Background.STORAGE_BATCH_DELAY)
      (Background.nextTimerId (Background.runtime w)) in
  Background.storageUpdateTimer scheduled
  = Some (Background.nextTimerId (Background.runtime w))
  ∧ (∀ tab,
       Handlers.storedSessions (Background.storage w') !! tab
       = if decide (tab = tabId) then Background.blockedUrlsByTab w !! tab
         else None)
  ∧ Background.blockedUrlsByTab w' = Background.blockedUrlsByTab w
  ∧ Background.storageUpdateTimer w' = None
  ∧ Background.pendingStorageUpdates w' = ∅.
Proof.
  intros [Hfresh _ _ _] Hnone Hclean scheduled w'.
  assert (scheduled
          = Background.withStorageTimer
              (Background.withPending w {[tabId]})
              (Some (Background.nextTimerId (Background.runtime w)))
              (Background.setTimeout (Background.runtime w)
                 Background.FlushBatched Background.STORAGE_BATCH_DELAY).2)
    as Hs.
  { unfold scheduled, Background.scheduleBatchedStorageUpdate.
    cbn [Background.storageUpdateTimer Background.withPending].
    rewrite Hnone, Hclean. by rewrite (right_id_L ∅ (∪)). }
  assert (w'
          = Background.callback
              (Background.withRuntime
                 (Background.advance scheduled Background.STORAGE_BATCH_DELAY)
                 (Background.clearTimeout
                    (Background.runtime
                       (Background.advance scheduled
                          Background.STORAGE_BATCH_DELAY))
                    (Background.nextTimerId (Background.runtime w))))
              Background.FlushBatched) as Hw'.
  { unfold w', Background.fireTimer. rewrite Hs.
    cbn [Background.advance Background.setTimeout Background.withStorageTimer
         Background.withPending Background.withRuntime Background.runtime
         Background.timers Background.now Background.nextTimerId snd].
    pose proof (list_find_fresh (Background.timers (Background.runtime w))
                  (Background.mkTimer
                     (Background.nextTimerId (Background.runtime w))
                     (Background.now (Background.runtime w)
                      + Background.STORAGE_BATCH_DELAY)
                     Background.FlushBatched)) as Hfind.
    cbn [Background.timerId] in Hfind. rewrite Hfind.
    2:{ eapply Forall_impl; [exact Hfresh|]. intros t Ht. simpl in *. lia. }
    cbn [Background.due Background.action]. by rewrite decide_True by lia. }
  split; [by rewrite Hs|].
  rewrite Hw', Hs. cbn [Background.callback].
  unfold Background.flushStorageUpdates.
  cbn [Background.advance Background.setTimeout Background.withStorageTimer
       Background.withPending Background.withRuntime Background.runtime
       Background.pendingStorageUpdates Background.blockedUrlsByTab
       Background.storage snd].
  rewrite decide_False by (rewrite size_singleton; lia).
  cbn [Background.withStorageTimer Background.withPending
       Background.withStorage Background.blockedUrlsByTab Background.storage
       Background.storageUpdateTimer Background.pendingStorageUpdates].
  split; [|done].
  intros tab. unfold Handlers.storedSessions.
  cbn [Storage.setBlockedUrlsByTab Storage.blockedUrlsByTab default
       from_option id].
  apply option_eq. intros d. rewrite map_lookup_filter_Some.
  cbn [fst]. rewrite elem_of_singleton.
  destruct (decide (tab = tabId)) as [->|Hne]; [tauto|].
  split; [tauto|done].
Qed.

(** Two stored sessions; a request on tab 1 marks it dirty. *)
Lemma batched_flush_forgets_other_tabs_witness :
  let tabs : gmap Z Session.TabData :=
    {[ 1%Z := Session.mkTabData (lit "a.example") [] 4 4 0;
       2%Z := Session.mkTabData (lit "b.example") [] 9 2 7 ]} in
  let w :=
    Background.withTabs
      (Background.start (Storage.setBlockedUrlsByTab Storage.empty tabs) 0)
      tabs in
  let w' :=
    Background.fireTimer
      (Background.advance (Background.scheduleBatchedStorageUpdate w 1)
         Background.STORAGE_BATCH_DELAY)
      (Background.nextTimerId (Background.runtime w)) in
  Handlers.storedSessions (Background.storage w) !! 2%Z
  = Some (Session.mkTabData (lit "b.example") [] 9 2 7)
  ∧ Handlers.storedSessions (Background.storage w') !! 2%Z = None
  ∧ Background.blockedUrlsByTab w' !! 2%Z
    = Some (Session.mkTabData (lit "b.example") [] 9 2 7).
Proof.
  cbv zeta.
  set (tabs := ({[ 1%Z := Session.mkTabData (lit "a.example") [] 4 4 0;
                   2%Z := Session.mkTabData (lit "b.example") [] 9 2 7 ]}
                : gmap Z Session.TabData)).
  set (w := Background.withTabs
              (Background.start
                 (Storage.setBlockedUrlsByTab Storage.empty tabs) 0) tabs).
  assert (Background.Inv w) as HI.
  { split; simpl; [constructor|constructor|done|].
    intros tab id Hid. by rewrite lookup_empty in Hid. }
  destruct (batched_flush_forgets_other_tabs w 1 HI eq_refl eq_refl)
    as (_ & Hstored & Htabs & _).
  split; [done|]. split.
  - rewrite Hstored. done.
  - rewrite Htabs. done.
Defined.

(** ** What the popup shows *)

Section PopupFacts.
Import Session Handlers Popup.

Context {Low : Lowering}.


End PopupFacts.


(** ** White space around the lines of a list *)

Section LineFacts.

Context {Low : Lowering}.

Lemma startsWith_snoc s p c :
  c ∉ p → startsWith (s ++ [c]) p = startsWith s p.
Proof.
  revert s. induction p as [|a p IH]; intros s Hc; [done|].
  apply not_elem_of_cons in Hc as [Hne Hc].
  destruct s as [|d s]; simpl.
  - by rewrite bool_decide_eq_false_2 by congruence.
  - by rewrite IH.
Qed.

Lemma includes_snoc s p c :
  c ∉ p → p ≠ [] → includes (s ++ [c]) p = includes s p.
Proof.
  intros Hc Hp. induction s as [|d s IH].
  - destruct p as [|a p]; [done|].
    apply not_elem_of_cons in Hc as [Hne Hc]. simpl.
    by rewrite bool_decide_eq_false_2 by congruence.
  - change (includes ((d :: s) ++ [c]) p)
      with (startsWith ((d :: s) ++ [c]) p || includes (s ++ [c]) p).
    change (includes (d :: s) p) with (startsWith (d :: s) p || includes s p).
    by rewrite startsWith_snoc, IH.
Qed.

Lemma trimStart_snoc s c :
  isWhiteSpace c = true →
  trimStart (s ++ [c])
  = match trimStart s with [] => [] | _ :: _ => trimStart s ++ [c] end.
Proof.
  intros Hc. induction s as [|d s IH]; simpl.
  - by rewrite Hc.
  - destruct (isWhiteSpace d); [done|]. done.
Qed.

Lemma trim_snoc s c : isWhiteSpace c = true → trim (s ++ [c]) = trim s.
Proof.
  intros Hc. unfold trim. rewrite trimStart_snoc by done.
  destruct (trimStart s) as [|x r]; [done|].
  rewrite reverse_app. simpl. by rewrite Hc.
Qed.

Lemma trim_cons s c : isWhiteSpace c = true → trim (c :: s) = trim s.
Proof. intros Hc. unfold trim. simpl. by rewrite Hc. Qed.

(** No white space unit is a unit of the markers the loader looks for. *)
Lemma whiteSpace_no_marker c :
  isWhiteSpace c = true →
  (c ∉ lit "!") ∧ (c ∉ lit "[") ∧ (c ∉ lit "##") ∧ (c ∉ lit "#@#")
  ∧ (c ∉ lit "@@").
Proof.
  intros Hc.
  assert (c ≠ 33 ∧ c ≠ 91 ∧ c ≠ 35 ∧ c ≠ 64) as (H1 & H2 & H3 & H4)
    by (repeat split; intros ->; by vm_compute in Hc).
  repeat split; intros Hin; vm_compute in Hin;
    repeat (apply elem_of_cons in Hin as [?|Hin]; [done|]);
    by apply elem_of_nil in Hin.
Qed.

Lemma loadLine_snoc t line c :
  isWhiteSpace c = true → loadLine t (line ++ [c]) = loadLine t line.
Proof.
  intros Hc. destruct (whiteSpace_no_marker c Hc) as (H1 & H2 & H3 & H4 & H5).
  unfold loadLine, skipped, filterOf.
  rewrite trim_snoc by done.
  rewrite !startsWith_snoc by done.
  by rewrite !includes_snoc by done.
Qed.

End LineFacts.

(** White space at the end of a line does not count: a list whose lines
    each end in one more white space unit, a carriage return for one,
    loads as the list without it. *)
Theorem trailing_white_space_loads_alike {Low : Lowering}
    (t : FilterTrie) (c : N)
    (lines : list jsstring) :
  isWhiteSpace c = true →
  loadLines t ((λ line, line ++ [c]) <$> lines) = loadLines t lines.
Proof.
  intros Hc. revert t. induction lines as [|line lines IH]; intros t; [done|].
  rewrite fmap_cons.
  change (loadLines t ((line ++ [c]) :: ((λ line, line ++ [c]) <$> lines)))
    with (loadLines (loadLine t (line ++ [c])) ((λ line, line ++ [c]) <$> lines)).
  rewrite IH. by rewrite loadLine_snoc.
Qed.

(** White space in front of a line does count: the checks for comments
    ([!]), headers ([[]) and exception rules ([@@]) look at the line as it
    is, the rule text is taken from the trimmed line.  So a line that
    follows white space is loaded as a blocking rule, whatever it starts
    with, unless it is blank, holds a cosmetic marker or has only
    options. *)
Theorem indented_line_is_loaded {Low : Lowering}
    (t : FilterTrie) (c : N) (line : jsstring) :
  isWhiteSpace c = true →
  trim line ≠ [] →
  includes line (lit "##") = false →
  includes line (lit "#@#") = false →
  head (trim line) ≠ Some 36 →
  filterOf (c :: line) = filterOf line
  ∧ filterOf line ≠ []
  ∧ loadLine t (c :: line)
    = insert t (filterOf line) (categorize categorizers (filterOf line)).
Proof.
  intros Hc Hne Hcos1 Hcos2 Hopt.
  destruct (whiteSpace_no_marker c Hc) as (H1 & H2 & H3 & H4 & H5).
  assert (filterOf line ≠ []) as Hf.
  { unfold filterOf. cbv zeta. destruct (includes (trim line) (lit "$")); [|done].
    destruct (trim line) as [|d r]; [done|]. simpl.
    destruct (bool_decide (d = 36)) eqn:Hd; [|done].
    apply bool_decide_eq_true in Hd. subst. by destruct Hopt. }
  assert (filterOf (c :: line) = filterOf line) as Hsame.
  { unfold filterOf. by rewrite trim_cons. }
  split; [done|]. split; [done|].
  unfold loadLine. rewrite Hsame.
  assert (skipped (c :: line) = false) as ->.
  { unfold skipped. rewrite trim_cons by done.
    rewrite bool_decide_eq_false_2 by done.
    assert (c ≠ 33 ∧ c ≠ 91 ∧ c ≠ 35 ∧ c ≠ 64) as (? & ? & ? & ?)
      by (repeat split; intros ->; by vm_compute in Hc).
    change (includes (c :: line) (lit "##"))
      with (startsWith (c :: line) (lit "##") || includes line (lit "##")).
    change (includes (c :: line) (lit "#@#"))
      with (startsWith (c :: line) (lit "#@#") || includes line (lit "#@#")).
    rewrite Hcos1, Hcos2.
    change (lit "!") with [33]. change (lit "[") with [91].
    change (lit "##") with [35; 35]. change (lit "#@#") with [35; 64; 35].
    change (lit "@@") with [64; 64].
    cbn [startsWith].
    by rewrite !bool_decide_eq_false_2 by congruence. }
  by rewrite bool_decide_eq_false_2 by done.
Qed.

(** ** Resetting while a reward is pending *)

(** [resetAllData] writes the counters as zero and leaves the pending
    reward and its timer alone: when that timer fires, the experience
    points and coins earned before the reset and not yet written are added
    to the zeros, so the stored reward is the pending amount. *)
Theorem reset_keeps_pending_reward (wk : Handlers.Worker) (id : positive) :
  Handlers.Slots (Handlers.world wk) →
  Background.xpCoinsUpdateTimer (Handlers.world wk) = Some id →
  (∀ t, t ∈ Background.timers (Background.runtime (Handlers.world wk)) →
        Background.timerId t = id →
        Background.due t ≤ Background.now (Background.runtime (Handlers.world wk))) →
  let w' := Background.fireTimer (Handlers.world (Handlers.resetAllData wk)) id in
  Storage.totalBlockedAllTime (Background.storage w') = Some 0
  ∧ Storage.userXP (Background.storage w')
    = Some (Background.pendingXPCoins (Handlers.world wk)).1
  ∧ Storage.userCoins (Background.storage w')
    = Some (Background.pendingXPCoins (Handlers.world wk)).2
  ∧ Background.pendingXPCoins w' = (0, 0)
  ∧ Background.xpCoinsUpdateTimer w' = None.
Proof.
  intros [_ Hd _ Hsl] Hheld Hdue. cbv zeta.
  destruct (Hsl Background.AwardXPCoins id Hheld) as (t & Hin & Hid & Hact).
  unfold Background.fireTimer, Handlers.resetAllData.
  cbn [Handlers.world Background.withStorage Background.withTabs
       Background.runtime].
  destruct (list_find _ _) as [[k t']|] eqn:Hfind.
  - apply list_find_Some in Hfind as (Hk & Hid' & _).
    apply list_elem_of_lookup_2 in Hk.
    assert (t' = t) as -> by (apply (TimerFacts.timer_by_id _ _ _ Hd Hk Hin);
                              congruence).
    rewrite decide_True by (by apply Hdue).
    rewrite Hact. cbn [Background.callback Background.withRuntime
                       Background.withStorage Background.withTabs
                       Background.pendingXPCoins].
    destruct (Background.pendingXPCoins (Handlers.world wk)) as [xp coins].
    simpl. repeat split; f_equal; lia.
  - apply list_find_None in Hfind. rewrite Forall_forall in Hfind.
    by destruct (Hfind t Hin).
Qed.

(** ** ASCII inputs

    On ASCII patterns and URLs the store and the matcher are those of
    [asciiLowering], whatever the lowering. *)

Section AsciiInputs.

Context {Low : Lowering}.

Lemma insert_ascii t p c :
  isAscii p = true → insert t p c = insert (Low := asciiLowering) t p c.
Proof.
  intros Hp. unfold insert. by rewrite (proj1 (cleanPattern_ascii p Hp)).
Qed.

Lemma build_ascii (ps : list (jsstring * Category)) :
  Forall (λ pc, isAscii pc.1 = true) ps →
  build ps = build (Low := asciiLowering) ps.
Proof.
  unfold build. generalize newTrie.
  induction ps as [|[p c] ps IH]; intros t Hps; [done|].
  apply Forall_cons in Hps as [Hp Hps]. cbn [foldl fst snd].
  rewrite (insert_ascii t p c Hp). by apply IH.
Qed.

Lemma matches_ascii t url :
  isAscii url = true → matches t url = matches (Low := asciiLowering) t url.
Proof.
  intros Hu. unfold matches. by rewrite (toLowerCase_ascii url Hu).
Qed.

End AsciiInputs.

(** * Evaluations

    The definitions at concrete ASCII inputs, where every lowering agrees
    with [asciiLowering] ([toLowerCase_ascii]). *)

#[local] Existing Instance asciiLowering.

Example clean_doubleclick :
  _cleanPattern (lit "||DoubleClick.net^") = lit "doubleclick.net".
Proof. vm_compute. reflexivity. Qed.

Example match_doubleclick :
  matches (build [(lit "||doubleclick.net^", Tracker)])
          (lit "https://stats.doubleclick.net/x")
  = Some (mkResult true (Some Tracker)).
Proof. vm_compute. reflexivity. Qed.

(** C1 (counterexample).  The claim promises the category of the inserted
    pattern itself.  The loader stores the line [/banner/] as [Ad] and the
    line [||tracker.example.com^] as [Tracker].  The URL
    [https://tracker.example.com/banner/1.gif] has a suffix (offset 27)
    that starts with [/banner/], yet the scan from offset 8 is the first
    to return and [matches] answers with category [Tracker]; it does so
    with every lowering, the patterns and the URL being ASCII. *)
Lemma matches_category_counterexample :
  let ps := [(lit "/banner/", Ad); (lit "||tracker.example.com^", Tracker)] in
  let url := lit "https://tracker.example.com/banner/1.gif" in
  loadLines newTrie [lit "/banner/"; lit "||tracker.example.com^"] = build ps
  ∧ (lit "/banner/", Ad) ∈ ps
  ∧ drop 27 (toLowerCase url) = _cleanPattern (lit "/banner/") ++ lit "1.gif"
  ∧ matches (build ps) url = Some (mkResult true (Some Tracker))
  ∧ matches (build ps) url ≠ Some (mkResult true (Some Ad))
  ∧ (∀ lowering : Lowering,
       matches (Low := lowering) (build (Low := lowering) ps) url
       = Some (mkResult true (Some Tracker))).
Proof.
  cbv zeta. split; [by vm_compute|]. split; [by left|].
  split; [by vm_compute|]. split; [by vm_compute|].
  split; [vm_compute; discriminate|]. intros lowering.
  rewrite (build_ascii (Low := lowering)) by (by repeat constructor).
  rewrite (matches_ascii (Low := lowering)) by done. by vm_compute.
Qed.

(** The amended C1 at the specification's example, in mixed case. *)
Lemma matches_inserted_pattern_witness :
  (∃ Q c pre' post',
     (Q, c) ∈ [(lit "||doubleclick.net^", Tracker)]
     ∧ toLowerCase (lit "https://stats.DoubleClick.net/x")
       = pre' ++ _cleanPattern Q ++ post'
     ∧ matches (build [(lit "||doubleclick.net^", Tracker)])
               (lit "https://stats.DoubleClick.net/x")
       = Some (mkResult true (Some c)))
  ∧ ((∀ Q D pre' post', (Q, D) ∈ [(lit "||doubleclick.net^", Tracker)] →
        toLowerCase (lit "https://stats.DoubleClick.net/x")
        = pre' ++ _cleanPattern Q ++ post' → D = Tracker) →
     matches (build [(lit "||doubleclick.net^", Tracker)])
             (lit "https://stats.DoubleClick.net/x")
     = Some (mkResult true (Some Tracker))).
Proof.
  apply (matches_inserted_pattern _ (lit "||doubleclick.net^") Tracker _
           (lit "https://stats.") (lit "/x")).
  - by left.
  - by vm_compute.
  - by vm_compute.
  - vm_compute. discriminate.
Defined.




(** C9 at the line [||^] in the middle of a list. *)
Lemma empty_pattern_matches_everything_witness :
  let t := loadLines newTrie
             ([lit "! Title: a list"; lit "||doubleclick.net^"]
              ++ lit "||^" :: [lit "||ads.example.com^$third-party"]) in
  isPattern (root t) = true
  ∧ (∀ url, url ≠ [] → ∃ c, matches t url = Some (mkResult true c))
  ∧ matches t [] = None.
Proof.
  apply (empty_pattern_matches_everything newTrie
           [lit "! Title: a list"; lit "||doubleclick.net^"] (lit "||^")
           [lit "||ads.example.com^$third-party"]).
  - by vm_compute.
  - vm_compute. discriminate.
  - by vm_compute.
Defined.

(** The example of the specification, through the loader: the line
    [||doubleclick.net^] is classified [Tracker] (the tracker alternatives
    are tried first, although [doubleclick] is an ad alternative too) and
    matches inside a longer host name. *)
Example doubleclick_is_tracker :
  categorize categorizers (lit "||doubleclick.net^") = Tracker
  ∧ regexTest adKeywords (lit "||doubleclick.net^") = true
  ∧ matches (loadFilterList newTrie (lit "! comment
||doubleclick.net^
@@||allowed.example^")) (lit "https://stats.doubleclick.net/x")
    = Some (mkResult true (Some Tracker)).
Proof. split; [|split]; by vm_compute. Qed.

(** Four leading bars: two survive the first cleaning. *)
Lemma cleanPattern_again_strips_bar_witness :
  _cleanPattern (_cleanPattern (lit "||||ads.example.com"))
  ≠ _cleanPattern (lit "||||ads.example.com").
Proof. apply cleanPattern_again_strips_bar. left. by vm_compute. Defined.

(** The rule order of a small list, reversed. *)
Lemma store_ignores_rule_order_witness :
  build [(lit "||ads.example.com^", Ad); (lit "/banner/", Ad);
         (lit "||tracker.example.com^", Tracker)]
  = build [(lit "||tracker.example.com^", Tracker); (lit "/banner/", Ad);
           (lit "||ads.example.com^", Ad)].
Proof.
  apply (store_ignores_rule_order newTrie).
  - symmetry.
    apply (reverse_Permutation
             [(lit "||ads.example.com^", Ad); (lit "/banner/", Ad);
              (lit "||tracker.example.com^", Tracker)]).
  - vm_compute. repeat (apply NoDup_cons; split; [set_unfold; intuition discriminate|]).
    apply NoDup_nil_2.
Defined.

(** From an empty storage area: a page load that is blocked 301 times. *)
Lemma sessions_stay_well_formed_witness :
  let hostname := λ _ : jsstring, Some (lit "news.example.com") in
  let tasks :=
    Handlers.ListLoaded (lit "||ads.example.com^")
    :: Handlers.TabUpdated 7 (Some (lit "https://news.example.com/"))
    :: replicate 301
         (Handlers.Request (lit "https://ads.example.com/a.js") 7 5
            Storage.empty) in
  let w := Handlers.world
             (Handlers.runTasks hostname (Handlers.boot Storage.empty 0) tasks) in
  (∀ tabId d, Background.blockedUrlsByTab w !! tabId = Some d →
     (length (Session.urls d) ≤ 300)%nat
     ∧ Session.adCount d + Session.trackerCount d = Session.totalCount d
     ∧ N.of_nat (Handlers.trackersIn (Session.urls d)) ≤ Session.trackerCount d
     ∧ N.of_nat (Handlers.adsIn (Session.urls d)) ≤ Session.adCount d)
  ∧ (∀ tabId d,
       Handlers.storedSessions (Background.storage w) !! tabId = Some d →
       (length (Session.urls d) ≤ 300)%nat
       ∧ Session.adCount d + Session.trackerCount d = Session.totalCount d
       ∧ N.of_nat (Handlers.trackersIn (Session.urls d)) ≤ Session.trackerCount d
       ∧ N.of_nat (Handlers.adsIn (Session.urls d)) ≤ Session.adCount d).
Proof.
  cbv zeta.
  apply (sessions_stay_well_formed
           (λ _ : jsstring, Some (lit "news.example.com")) Storage.empty 0).
  intros tabId d Hd.
  change ((∅ : gmap Z Session.TabData) !! tabId = Some d) in Hd.
  by rewrite lookup_empty in Hd.
Defined.


(** A list with Windows line ends, split at the line feeds. *)
Lemma trailing_white_space_loads_alike_witness :
  loadLines newTrie
    ((λ line, line ++ [13])
       <$> [lit "! Title: example"; lit "||ads.example.com^"; lit "/banner/"])
  = loadLines newTrie
      [lit "! Title: example"; lit "||ads.example.com^"; lit "/banner/"].
Proof.
  apply (trailing_white_space_loads_alike newTrie 13). by vm_compute.
Defined.

(** An exception rule after a blank: it is inserted, as a blocking rule. *)
Lemma indented_line_is_loaded_witness :
  filterOf (32 :: lit "@@||allowed.example^") = filterOf (lit "@@||allowed.example^")
  ∧ filterOf (lit "@@||allowed.example^") ≠ []
  ∧ loadLine newTrie (32 :: lit "@@||allowed.example^")
    = insert newTrie (filterOf (lit "@@||allowed.example^"))
        (categorize categorizers (filterOf (lit "@@||allowed.example^"))).
Proof.
  apply (indented_line_is_loaded newTrie 32 (lit "@@||allowed.example^"));
    by vm_compute.
Defined.

(** One blocked request, a second passes, the data is reset, the reward
    timer fires: 3 points and 1 coin are stored. *)
Lemma reset_keeps_pending_reward_witness :
  let wk :=
    Handlers.runTasks (λ _, None) (Handlers.boot Storage.empty 0)
      [Handlers.ListLoaded (lit "||ads.example.com^");
       Handlers.Request (lit "https://ads.example.com/a.js") 7 5 Storage.empty;
       Handlers.Advance 1000] in
  let w' := Background.fireTimer (Handlers.world (Handlers.resetAllData wk)) 2 in
  Storage.userXP (Background.storage w') = Some 3
  ∧ Storage.userCoins (Background.storage w') = Some 1.
Proof.
  cbv zeta.
  set (wk := Handlers.runTasks (λ _, None) (Handlers.boot Storage.empty 0)
               [Handlers.ListLoaded (lit "||ads.example.com^");
                Handlers.Request (lit "https://ads.example.com/a.js") 7 5
                  Storage.empty;
                Handlers.Advance 1000]).
  assert (Handlers.Slots (Handlers.world wk)) as HS
    by apply Slots_runTasks, Slots_boot.
  assert (Background.xpCoinsUpdateTimer (Handlers.world wk) = Some 2%positive)
    as Hheld by (by vm_compute).
  assert (Background.pendingXPCoins (Handlers.world wk) = (3, 1)) as Hpending
    by (by vm_compute).
  destruct (reset_keeps_pending_reward wk 2 HS Hheld) as (_ & Hxp & Hcoins & _).
  - intros t Ht Hid. vm_compute in Ht.
    repeat (apply elem_of_cons in Ht as [->|Ht]; [by vm_compute in Hid |- *|]).
    by apply elem_of_nil in Ht.
  - rewrite Hxp, Hcoins, Hpending. done.
Defined.

(** A history with a record created, a list cleared and a flush around
    the two callbacks, each running with a current answer. *)
Lemma storage_follows_sessions_witness :
  let hostname := λ _ : jsstring, Some (lit "shop.example.com") in
  let d := Session.mkTabData (lit "news.example.com")
             [Session.mkBlockedUrl (lit "https://ads.example.com/a.js")
                (lit "https://ads.example.com/a.js") 5 Ad] 1 1 0 in
  let s := Storage.setBlockedUrlsByTab Storage.empty {[7%Z := d]} in
  let tasks :=
    [Async.Handler (Handlers.TabUpdated 8 (Some (lit "https://shop.example.com/")));
     Async.SessionsAnswered;
     Async.InitialLoaded 0;
     Async.Handler (Handlers.ClearBlockedUrls 7);
     Async.SessionsAnswered;
     Async.StartupLoaded 1;
     Async.Handler (Handlers.Advance 1000);
     Async.Handler (Handlers.Fire 1)] in
  let w := Handlers.world
             (Async.worker
                (Async.runTasks hostname (Async.start s 0) tasks)) in
  (Background.storageUpdateTimer w = None → Handlers.notAhead w)
  ∧ (is_Some (Background.storageUpdateTimer w) →
     Handlers.inSync (Handlers.onUnload w))
  ∧ (Async.loaded hostname (Async.start s 0) tasks = true →
     (Background.storageUpdateTimer w = None → Handlers.inSync w)
     ∧ Handlers.inSync (Handlers.onUnload w)).
Proof.
  cbv zeta.
  apply (storage_follows_sessions
           (λ _ : jsstring, Some (lit "shop.example.com"))
           (Storage.setBlockedUrlsByTab Storage.empty
              {[7%Z := Session.mkTabData (lit "news.example.com")
                         [Session.mkBlockedUrl
                            (lit "https://ads.example.com/a.js")
                            (lit "https://ads.example.com/a.js") 5 Ad]
                         1 1 0]}) 0).
  cbn [Async.currentAnswers].
  repeat split; intros result Hr; vm_compute in Hr; try discriminate;
    injection Hr as <-; by vm_compute.
Defined.

(** From a stored session, with the data reset between the answer and
    the callback of the initial read. *)
Lemma async_sessions_stay_well_formed_witness :
  let hostname := λ _ : jsstring, Some (lit "shop.example.com") in
  let d := Session.mkTabData (lit "news.example.com")
             [Session.mkBlockedUrl (lit "https://ads.example.com/a.js")
                (lit "https://ads.example.com/a.js") 5 Ad] 1 1 0 in
  let s := Storage.setBlockedUrlsByTab Storage.empty {[7%Z := d]} in
  let tasks :=
    [Async.SessionsAnswered;
     Async.Handler Handlers.ResetAllData;
     Async.InitialLoaded 0] in
  let w := Handlers.world
             (Async.worker
                (Async.runTasks hostname (Async.start s 0) tasks)) in
  map_Forall (λ _ d, Handlers.wellFormed d) (Background.blockedUrlsByTab w)
  ∧ map_Forall (λ _ d, Handlers.wellFormed d)
      (Handlers.storedSessions (Background.storage w)).
Proof.
  cbv zeta.
  apply (async_sessions_stay_well_formed
           (λ _ : jsstring, Some (lit "shop.example.com"))
           (Storage.setBlockedUrlsByTab Storage.empty
              {[7%Z := Session.mkTabData (lit "news.example.com")
                         [Session.mkBlockedUrl
                            (lit "https://ads.example.com/a.js")
                            (lit "https://ads.example.com/a.js") 5 Ad]
                         1 1 0]}) 0).
  intros tab d' Hd.
  change (({[7%Z := Session.mkTabData (lit "news.example.com")
                      [Session.mkBlockedUrl
                         (lit "https://ads.example.com/a.js")
                         (lit "https://ads.example.com/a.js") 5 Ad]
                      1 1 0]} : gmap Z Session.TabData) !! tab = Some d') in Hd.
  apply lookup_singleton_Some in Hd as [_ <-].
  split; [cbn; unfold Background.MAX_STORED_PER_TAB; lia|]. split; [done|].
  split; by vm_compute.
Defined.
